(** * OrderBook: the order-matching and settlement engine

    A shallow embedding of the exchange back end: the order routes
    (submission, matching, settlement, cancellation) and the manager's
    mint, burn and delete routes of the symbol routes, over an explicit
    model of the SQL store they read and write, with the price direction
    of the book snapshot and the rows of a side as the front end lays
    them out.

    Conventions of the model.
    - The columns DECIMAL(15,2) (cash balances, prices) hold whole cents,
      as an integer; quantities are integers.
    - A number of the handlers is a binary64 number, kept as the rational
      it stands for, or NaN, or an infinity.  The price of a request is the
      decimal numeral the body carries; [Number] rounds it to binary64.
      The comparisons and the products of the handlers ([userCash <
      totalCost], [cashAvailable < tradePrice * matchQty], [price >=
      parseFloat(bestAsk)]) are those of binary64.
    - A number that a statement receives is written as the shortest
      decimal that converts back to it ([Number::toString]); the statement
      computes on that decimal exactly and the column rounds the result
      half away from zero.  NaN and the infinities are no literals: the
      statement raises.  The number of a product of a stored price and a
      quantity is written as a decimal within half a cent of the exact
      product, for products up to 10^15 cents ([amount_near]): the
      statement that moves it moves the balance by the exact product
      ([debit_number_exact], [credit_number_exact]), and the statements
      of the fills and of the cancellation are written that way.
    - Strict SQL mode: a value outside its column is refused.  The range
      is checked for what a request brings in (the quantity and the price
      of an inserted order); sums held in the store are taken not to leave
      their columns.
    - A table with a primary key that is only read by key is a finite map;
      the orders table, which is filtered and sorted, is the list of its
      rows; the trades table is the list of its rows in insertion order.
    - A handler is a function from the store to a response and the store
      it leaves behind; a rollback returns the store the handler started
      from.  All reads of one handler see the same store (one request at a
      time).
    - A statement that raises inside the transaction makes the body return
      [None]; the handler then rolls back and answers with a server
      error. *)

From Stdlib Require Import ZArith QArith Qround Qabs Qpower Lia Lqa.
From Stdlib Require Import Ascii String.
From stdpp Require Import base option list sorting gmap strings fin_maps.

Local Open Scope Z_scope.

(** ** Rows of the store *)

Inductive Side := buy | sell.

Inductive Status := OPEN | FILLED | CANCELLED.

Inductive Role := user | manager.

#[global] Instance Side_eq_dec : EqDecision Side.
Proof. solve_decision. Defined.

#[global] Instance Status_eq_dec : EqDecision Status.
Proof. solve_decision. Defined.

#[global] Instance Role_eq_dec : EqDecision Role.
Proof. solve_decision. Defined.

(** A row of [orders]. *)
Record order := mk_order {
  ord_id : Z;
  ord_user_id : Z;
  ord_symbol_id : Z;
  ord_side : Side;
  ord_price : Z;
  ord_quantity : Z;
  ord_status : Status
}.

(** A row of [trades]; an order id is [None] on the side of a market taker. *)
Record trade := mk_trade {
  trd_symbol_id : Z;
  trd_price : Z;
  trd_quantity : Z;
  trd_buy_order_id : option Z;
  trd_sell_order_id : option Z;
  trd_buy_user_id : Z;
  trd_sell_user_id : Z;
  trd_taker_side : Side
}.

(** A row of [symbols], without its ticker. *)
Record symbol := mk_symbol {
  outstanding_shares : Z;
  last_price : option Z;
  prev_price : option Z
}.

(** The store.  [users] maps a user id to its [cash_balance];
    [positions] maps (user id, symbol id) to the signed quantity held;
    [orders_auto_increment] is the id the next inserted order receives. *)
Record db := mk_db {
  users : gmap Z Z;
  symbols : gmap Z symbol;
  positions : gmap (Z * Z) Z;
  orders : list order;
  trades : list trade;
  orders_auto_increment : Z
}.

(** An entry of [tradesExecuted]. *)
Record fill := mk_fill {
  fill_price : Z;
  fill_quantity : Z
}.

#[global] Instance Qle_dec (x y : Q) : Decision (x <= y)%Q.
Proof.
  refine (cast_if (decide (Qle_bool x y = true))); by rewrite <- Qle_bool_iff.
Defined.

#[global] Instance Qlt_dec (x y : Q) : Decision (x < y)%Q.
Proof.
  refine (cast_if_not (decide (y <= x)%Q));
    [by apply Qle_not_lt | by apply Qnot_le_lt].
Defined.

(** ** JavaScript numbers *)

Inductive number :=
  | NaN
  | Infinity (negative : bool)
  | Finite (value : Q).

(** [floor (log2 q)] of a positive rational. *)
Definition Qlog2 (q : Q) : Z :=
  let k := Z.log2 (Qnum q) - Z.log2 (Zpos (Qden q)) in
  if Qle_bool (2 ^ k) q then k else k - 1.

(** The nearest integer, a tie going to the even one. *)
Definition round_half_even (r : Q) : Z :=
  let f := Qfloor r in
  match (r - inject_Z f ?= 1 # 2)%Q with
  | Lt => f
  | Gt => f + 1
  | Eq => if Z.even f then f else f + 1
  end.

(** The exponent of the last place of the binary64 numbers around a
    positive [q]: 53 significant bits, and the subnormal spacing at the
    bottom of the range. *)
Definition ulp_exponent (q : Q) : Z := Z.max (Qlog2 q - 52) (-1074).

(** Rounding of a positive real to binary64: to the nearest number, a tie
    to the even significand, beyond the range to Infinity. *)
Definition round_positive (q : Q) : number :=
  let e := ulp_exponent q in
  let m := round_half_even (q * 2 ^ (- e)) in
  let x := Qred (inject_Z m * 2 ^ e) in
  if Qle_bool (2 ^ 1024) x then Infinity false else Finite x.

Definition js_neg (x : number) : number :=
  match x with
  | NaN => NaN
  | Infinity s => Infinity (negb s)
  | Finite v => Finite (Qred (- v))
  end.

(** The Number value for a real. *)
Definition binary64 (q : Q) : number :=
  match (q ?= 0)%Q with
  | Eq => Finite 0
  | Gt => round_positive q
  | Lt => js_neg (round_positive (- q))
  end.

Definition js_mul (x y : number) : number :=
  match x, y with
  | NaN, _ | _, NaN => NaN
  | Infinity s, Infinity t => Infinity (xorb s t)
  | Infinity s, Finite v | Finite v, Infinity s =>
    match (v ?= 0)%Q with
    | Eq => NaN
    | Gt => Infinity s
    | Lt => Infinity (negb s)
    end
  | Finite v, Finite w => binary64 (v * w)
  end.

Definition js_add (x y : number) : number :=
  match x, y with
  | NaN, _ | _, NaN => NaN
  | Infinity s, Infinity t => if Bool.eqb s t then Infinity s else NaN
  | Infinity s, Finite _ | Finite _, Infinity s => Infinity s
  | Finite v, Finite w => binary64 (v + w)
  end.

Definition js_sub (x y : number) : number := js_add x (js_neg y).

(** [x < y]; false when either is NaN. *)
Definition js_lt (x y : number) : bool :=
  match x, y with
  | NaN, _ | _, NaN => false
  | Infinity s, Infinity t => s && negb t
  | Infinity s, Finite _ => s
  | Finite _, Infinity t => negb t
  | Finite v, Finite w => bool_decide (v < w)%Q
  end.

Definition js_le (x y : number) : bool :=
  match x, y with
  | NaN, _ | _, NaN => false
  | Infinity s, Infinity t => s || negb t
  | Infinity s, Finite _ => s
  | Finite _, Infinity t => negb t
  | Finite v, Finite w => bool_decide (v <= w)%Q
  end.

Definition number_of_Z (z : Z) : number := binary64 (inject_Z z).

(** A DECIMAL(15,2) value, counted in cents, as the number [parseFloat]
    makes of its text. *)
Definition parseFloat (cents : Z) : number := binary64 (inject_Z cents / 100).

(** A decimal numeral [m * 10^e]. *)
Definition decimal (m e : Z) : Q := (inject_Z m * 10 ^ e)%Q.

(** ** [Number::toString] *)

Definition rounds_to (x : Q) (v : Q) : bool :=
  match binary64 v with
  | Finite y => Qeq_bool x y
  | _ => false
  end.

(** The shortest decimal that converts back to the positive [x]: the
    multiples of [10^j] next to [x] are tried from the coarsest [j] down;
    of two that convert back the nearer is taken, of two equally near the
    one with the even digit string. *)
Fixpoint shortest (fuel : nat) (j : Z) (x : Q) : Q :=
  match fuel with
  | O => x
  | S fuel =>
    let s := Qfloor (x * 10 ^ (- j)) in
    let lo := decimal s j in
    let hi := decimal (s + 1) j in
    let ok_lo := bool_decide (0 < s) && rounds_to x lo in
    let ok_hi := rounds_to x hi in
    if ok_lo && ok_hi then
      match (x - lo ?= hi - x)%Q with
      | Lt => lo
      | Gt => hi
      | Eq => if Z.even s then lo else hi
      end
    else if ok_lo then lo
    else if ok_hi then hi
    else shortest fuel (j - 1) x
  end.

(** The number of decimal digits of a positive integer. *)
Definition digits (z : Z) : Z := Z.log2 z / 3 + 1.

Definition to_decimal (x : Q) : Q :=
  match (x ?= 0)%Q with
  | Eq => 0
  | Gt =>
    let j := digits (Qfloor x + 1) in
    Qred (shortest (Z.to_nat (j + Z.log2 (Zpos (Qden x)) + 2)) j x)
  | Lt =>
    let y := Qred (- x) in
    let j := digits (Qfloor y + 1) in
    Qred (- shortest (Z.to_nat (j + Z.log2 (Zpos (Qden y)) + 2)) j y)
  end.

(** DECIMAL(15,2) of a decimal value, in cents: rounded half away from
    zero. *)
Definition round_cents (v : Q) : Z :=
  let t := (v * 100)%Q in
  if Qle_bool 0 t then Qfloor (t + (1 # 2)) else - Qfloor (- t + (1 # 2)).

(** The value a positive real rounds to, before the range check. *)
Definition rounded (q : Q) : Q :=
  (inject_Z (round_half_even (q * 2 ^ (- ulp_exponent q)))
   * 2 ^ ulp_exponent q)%Q.

(** The unit roundoff of binary64. *)
Definition unit_roundoff : Q := 1 # 9007199254740992.

(** A number in lowest terms. *)
Definition canonical (x : number) : Prop :=
  match x with Finite v => Qred v = v | _ => True end.

(** ** Statements *)

(** [UPDATE users SET cash_balance = cash_balance + ? WHERE id = ?] with
    the exact amount of a stored price times a quantity; a debit is a
    credit of the opposite amount. *)
Definition credit_cash (uid amount : Z) (st : db) : db :=
  mk_db (alter (λ c, c + amount) uid (users st)) (symbols st) (positions st)
        (orders st) (trades st) (orders_auto_increment st).

Definition debit_cash (uid amount : Z) (st : db) : db :=
  credit_cash uid (- amount) st.

(** A number in the text of a statement: the decimal it is written as.
    NaN and Infinity are written as names, which the statement does not
    know: it raises. *)
Definition sql_literal (x : number) : option Q :=
  match x with
  | Finite v => Some (to_decimal v)
  | _ => None
  end.

(** [UPDATE users SET cash_balance = cash_balance + ? WHERE id = ?] and
    [... = cash_balance - ? ...] with a number of the handler: the sum is
    exact and the column rounds it to cents. *)
Definition credit_number (uid : Z) (amount : number) (st : db) : option db :=
  lit ← sql_literal amount;
  Some (mk_db (alter (λ c, round_cents (inject_Z c / 100 + lit)) uid (users st))
              (symbols st) (positions st) (orders st) (trades st)
              (orders_auto_increment st)).

Definition debit_number (uid : Z) (amount : number) (st : db) : option db :=
  lit ← sql_literal amount;
  Some (mk_db (alter (λ c, round_cents (inject_Z c / 100 - lit)) uid (users st))
              (symbols st) (positions st) (orders st) (trades st)
              (orders_auto_increment st)).

(** [INSERT INTO positions (user_id, symbol_id, quantity) VALUES (?, ?, ?)
     ON DUPLICATE KEY UPDATE quantity = quantity + ?] with both quantities
    equal to [delta] (the selling side passes the negated quantity and
    subtracts). *)
Definition adjust_position (uid sid delta : Z) (st : db) : db :=
  let q := match positions st !! (uid, sid) with
           | Some q0 => q0 + delta
           | None => delta
           end in
  mk_db (users st) (symbols st) (<[(uid, sid) := q]> (positions st))
        (orders st) (trades st) (orders_auto_increment st).

(** [SELECT quantity FROM positions WHERE user_id = ? AND symbol_id = ?],
    0 when there is no row. *)
Definition get_position (st : db) (uid sid : Z) : Z :=
  default 0 (positions st !! (uid, sid)).

(** [SELECT cash_balance FROM users WHERE id = ?], 0 when there is no row. *)
Definition get_cash (st : db) (uid : Z) : Z :=
  default 0 (users st !! uid).

(** [DELETE FROM positions WHERE quantity = 0]. *)
Definition delete_zero_positions (st : db) : db :=
  mk_db (users st) (symbols st) (filter (λ kv, kv.2 ≠ 0) (positions st))
        (orders st) (trades st) (orders_auto_increment st).

(** [INSERT INTO trades ...]: the users named by the row must exist
    (foreign keys into [users]); otherwise the statement raises. *)
Definition insert_trade (t : trade) (st : db) : option db :=
  if bool_decide (is_Some (users st !! trd_buy_user_id t)
                  ∧ is_Some (users st !! trd_sell_user_id t))
  then Some (mk_db (users st) (symbols st) (positions st) (orders st)
                   (trades st ++ [t]) (orders_auto_increment st))
  else None.

(** [UPDATE orders SET quantity = ?, status = ? WHERE id = ?]. *)
Definition set_order (oid qty : Z) (s : Status) (o : order) : order :=
  if bool_decide (ord_id o = oid)
  then mk_order (ord_id o) (ord_user_id o) (ord_symbol_id o) (ord_side o)
                (ord_price o) qty s
  else o.

Definition update_order (oid qty : Z) (s : Status) (st : db) : db :=
  mk_db (users st) (symbols st) (positions st)
        (set_order oid qty s <$> orders st) (trades st)
        (orders_auto_increment st).

(** [UPDATE orders SET quantity = ? WHERE id = ?]. *)
Definition set_order_quantity (oid qty : Z) (o : order) : order :=
  if bool_decide (ord_id o = oid)
  then mk_order (ord_id o) (ord_user_id o) (ord_symbol_id o) (ord_side o)
                (ord_price o) qty (ord_status o)
  else o.

Definition update_order_quantity (oid qty : Z) (st : db) : db :=
  mk_db (users st) (symbols st) (positions st)
        (set_order_quantity oid qty <$> orders st) (trades st)
        (orders_auto_increment st).

(** The greatest values of the columns INT and DECIMAL(15,2), the latter
    in cents. *)
Definition INT_MAX : Z := 2147483647.
Definition DECIMAL_MAX : Z := 999999999999999.

(** [INSERT INTO orders (user_id, symbol_id, side, price, quantity, status)]:
    the price is a number of the handler, which the column rounds to
    cents; the owner must exist and the price and the quantity must fit
    their columns, otherwise the statement raises; the row receives the
    next id, which is returned as [insertId]. *)
Definition insert_order (uid sid : Z) (sd : Side) (price : number) (q : Z)
    (st : db) : option (Z * db) :=
  lit ← sql_literal price;
  let p := round_cents lit in
  if bool_decide (is_Some (users st !! uid)
                  ∧ - DECIMAL_MAX ≤ p ≤ DECIMAL_MAX
                  ∧ - INT_MAX - 1 ≤ q ≤ INT_MAX)
  then let oid := orders_auto_increment st in
       Some (oid,
             mk_db (users st) (symbols st) (positions st)
                   (orders st ++ [mk_order oid uid sid sd p q OPEN])
                   (trades st) (oid + 1))
  else None.

(** [UPDATE symbols SET prev_price = ?, last_price = ? WHERE id = ?]. *)
Definition stamp_prices (sid prev last : Z) (st : db) : db :=
  mk_db (users st)
        (alter (λ s, mk_symbol (outstanding_shares s) (Some last) (Some prev))
               sid (symbols st))
        (positions st) (orders st) (trades st) (orders_auto_increment st).

(** ** The order book queries *)

Definition opposite (sd : Side) : Side :=
  match sd with buy => sell | sell => buy end.

(** The rows [WHERE symbol_id = ? AND side = ? AND status = 'OPEN']. *)
Definition open_orders (st : db) (sid : Z) (sd : Side) : list order :=
  filter (λ o, ord_symbol_id o = sid ∧ ord_side o = sd ∧ ord_status o = OPEN)
         (orders st).

(** [SELECT MIN(price)] and [SELECT MAX(price)]: [None] over no rows. *)
Definition min_price (l : list order) : option Z :=
  foldr (λ o acc, Some (match acc with
                        | Some m => Z.min (ord_price o) m
                        | None => ord_price o
                        end)) None l.

Definition max_price (l : list order) : option Z :=
  foldr (λ o acc, Some (match acc with
                        | Some m => Z.max (ord_price o) m
                        | None => ord_price o
                        end)) None l.

Definition bestAsk (st : db) (sid : Z) : option Z :=
  min_price (open_orders st sid sell).

Definition bestBid (st : db) (sid : Z) : option Z :=
  max_price (open_orders st sid buy).

(** The order in which a taker on side [sd] meets resting orders:
    [ORDER BY price ASC, id ASC] for a buyer,
    [ORDER BY price DESC, id ASC] for a seller. *)
Definition priority (sd : Side) (o1 o2 : order) : Prop :=
  match sd with
  | buy => ord_price o1 < ord_price o2
           ∨ (ord_price o1 = ord_price o2 ∧ ord_id o1 ≤ ord_id o2)
  | sell => ord_price o2 < ord_price o1
            ∨ (ord_price o1 = ord_price o2 ∧ ord_id o1 ≤ ord_id o2)
  end.

#[global] Instance priority_dec sd o1 o2 : Decision (priority sd o1 o2).
Proof. destruct sd; unfold priority; apply _. Defined.

(** The price condition of the limit queries: [price <= ?] for a buying
    taker, [price >= ?] for a selling one, against the decimal the bound
    is written as; a market taker has none. *)
Definition crosses (sd : Side) (bound : option Q) (o : order) : Prop :=
  match bound, sd with
  | None, _ => True
  | Some p, buy => (inject_Z (ord_price o) / 100 <= p)%Q
  | Some p, sell => (p <= inject_Z (ord_price o) / 100)%Q
  end.

#[global] Instance crosses_dec sd bound o : Decision (crosses sd bound o).
Proof. destruct bound, sd; unfold crosses; apply _. Defined.

(** [SELECT * FROM orders WHERE symbol_id = ? AND side = <opposite>
     AND status = 'OPEN' [AND price <=/>= ?] ORDER BY <priority> FOR UPDATE]. *)
Definition book_orders (st : db) (sid : Z) (sd : Side) (bound : option Q)
  : list order :=
  merge_sort (priority sd)
    (filter (crosses sd bound) (open_orders st sid (opposite sd))).

(** ** Requests and responses *)

(** The kinds of rejection; each stands for one message of the routes:
    - [INVALID_INPUT]: 'Missing or invalid order parameters', 'Invalid order
      side', 'Invalid price for limit order', 'quantity must be a positive
      number';
    - [CROSSES_BOOK]: 'Limit buy price must be lower than the current best
      ask ...' and its mirror for sells;
    - [UNKNOWN_SYMBOL]: 'Symbol not found';
    - [INSUFFICIENT_FUNDS]: 'Insufficient funds for buy order',
      'Insufficient funds to short sell';
    - [INSUFFICIENT_SHARES_IN_CIRCULATION]: 'Order exceeds available shares
      in circulation';
    - [NO_LIQUIDITY]: 'No liquidity to fill market order';
    - [NOT_FOUND_OR_CLOSED]: 'Order not found or already filled/cancelled';
    - [INSUFFICIENT_SHARES]: 'Insufficient shares to burn';
    - [PERMISSION_DENIED]: 'Access denied: requires manager role';
    - [INTERNAL]: the status 500 answers of the catch blocks. *)
Inductive error :=
  | INVALID_INPUT
  | CROSSES_BOOK
  | UNKNOWN_SYMBOL
  | INSUFFICIENT_FUNDS
  | INSUFFICIENT_SHARES_IN_CIRCULATION
  | NO_LIQUIDITY
  | NOT_FOUND_OR_CLOSED
  | INSUFFICIENT_SHARES
  | PERMISSION_DENIED
  | INTERNAL.

(** The [orderStatus] field of an accepted submission. *)
Inductive OrderStatus := STATUS_FILLED | STATUS_PARTIAL | STATUS_OPEN.

Inductive response :=
  | Rejected (e : error)
  | OrderPlaced (orderStatus : OrderStatus) (tradesExecuted : list fill)
  | OrderCancelled
  | Minted
  | Burned.

#[global] Instance error_eq_dec : EqDecision error.
Proof. solve_decision. Defined.

(** What a body carries as its price, as [Number(price)] reads it: the
    decimal numeral [m * 10^e], or something that is no numeral (NaN). *)
Inductive price_input :=
  | numeral (m e : Z)
  | non_numeric.

(** [Number(price)]. *)
Definition Number (v : price_input) : number :=
  match v with
  | numeral m e => binary64 (decimal m e)
  | non_numeric => NaN
  end.

(** The body of a submission as the handler sees it after destructuring:
    [symbol_id] and [quantity] are what [parseInt] returns ([None] for NaN),
    [side] and [type] are absent or a string (its UTF-8 bytes), [price] is
    absent (undefined or null) or what the body carries. *)
Record request := mk_request {
  body_symbol_id : option Z;
  body_side : option string;
  body_price : option price_input;
  body_quantity : option Z;
  body_type : option string
}.

(** [String.prototype.toLowerCase], on the characters whose lower case is
    an ASCII letter: the letters A to Z and the Kelvin sign U+212A, whose
    lower case is k.  No other character has a lower case with an ASCII
    letter alone, so no other changes whether the result is one of the
    words the handler compares it with; it is left as it is. *)
Definition lower_ascii (c : ascii) : ascii :=
  let n := nat_of_ascii c in
  if ((65 <=? n) && (n <=? 90))%nat then ascii_of_nat (n + 32) else c.

(** The UTF-8 bytes of the Kelvin sign. *)
Definition kelvin_sign (c1 c2 c3 : ascii) : bool :=
  ((nat_of_ascii c1 =? 226) && (nat_of_ascii c2 =? 132)
   && (nat_of_ascii c3 =? 170))%nat.

Fixpoint toLowerCase (s : string) : string :=
  match s with
  | EmptyString => EmptyString
  | String c1 s1 =>
    match s1 with
    | String c2 (String c3 r) =>
      if kelvin_sign c1 c2 c3 then String "k" (toLowerCase r)
      else String (lower_ascii c1) (toLowerCase s1)
    | _ => String (lower_ascii c1) (toLowerCase s1)
    end
  end.

(** [normalizeType]: default to 'limit' if undefined or empty. *)
Definition normalizeType (t : option string) : string :=
  match t with
  | None => "limit"
  | Some s => if bool_decide (s = "") then "limit" else toLowerCase s
  end.

(** The side after the two side checks. *)
Definition parse_side (s : string) : option Side :=
  if bool_decide (s = "buy") then Some buy
  else if bool_decide (s = "sell") then Some sell
  else None.

(** The variables of the handler once the input checks have passed;
    [p_price] is [None] for null. *)
Record params := mk_params {
  p_symbol_id : Z;
  p_side : Side;
  p_type : string;
  p_price : option number;
  p_quantity : Z
}.

(** The input checks of [router.post('/')], in the order of the code. *)
Definition validate (body : request) : error + params :=
  let side := toLowerCase <$> body_side body in
  let type := normalizeType (body_type body) in
  match body_symbol_id body, side, body_quantity body with
  | Some symbol_id, Some side, Some quantity =>
    if bool_decide (symbol_id = 0 ∨ side = "" ∨ quantity = 0 ∨ quantity ≤ 0)
    then inl INVALID_INPUT
    else match parse_side side with
         | None => inl INVALID_INPUT
         | Some sd =>
           if bool_decide (type = "limit")
           then match body_price body with
                | None => inl INVALID_INPUT
                | Some price =>
                  let price := Number price in
                  if js_le price (Finite 0) then inl INVALID_INPUT
                  else inr (mk_params symbol_id sd type (Some price) quantity)
                end
           else inr (mk_params symbol_id sd type None quantity)
         end
  | _, _, _ => inl INVALID_INPUT
  end.

(** [price] where the handler computes with it: null counts as 0. *)
Definition price_number (p : params) : number :=
  default (Finite 0) (p_price p).

(** Maker-maker cross prevention: [true] when the limit order is refused
    ([price >= parseFloat(bestAsk)], [price <= parseFloat(bestBid)]). *)
Definition crosses_book (st : db) (p : params) : bool :=
  if bool_decide (p_type p = "limit")
  then match p_side p with
       | buy =>
         match bestAsk st (p_symbol_id p) with
         | Some a => js_le (parseFloat a) (price_number p)
         | None => false
         end
       | sell =>
         match bestBid st (p_symbol_id p) with
         | Some b => js_le (price_number p) (parseFloat b)
         | None => false
         end
       end
  else false.

(** The short overhang [quantity - (userPos > 0 ? userPos : 0)]. *)
Definition shortQty (quantity userPos : Z) : Z :=
  quantity - (if bool_decide (0 < userPos) then userPos else 0).

(** Validation against the user's resources; [None] when the order passes.
    [userCash] is the number [parseFloat(cash_balance)]. *)
Definition check_resources (p : params) (symRow : symbol) (userCash : number)
    (userPos : Z) : option error :=
  match p_side p with
  | buy =>
    if bool_decide (p_type p = "limit")
       && js_lt userCash (js_mul (price_number p) (number_of_Z (p_quantity p)))
    then Some INSUFFICIENT_FUNDS else None
  | sell =>
    if bool_decide (userPos < p_quantity p)
    then if bool_decide (outstanding_shares symRow
                         < shortQty (p_quantity p) userPos)
         then Some INSUFFICIENT_SHARES_IN_CIRCULATION
         else
           let shortPrice :=
             if bool_decide (p_type p = "limit") then price_number p
             else match last_price symRow with
                  | Some l => parseFloat l
                  | None => Finite 0
                  end in
           let maxCost :=
             js_mul shortPrice (number_of_Z (shortQty (p_quantity p) userPos)) in
           if js_lt userCash maxCost then Some INSUFFICIENT_FUNDS else None
    else None
  end.

(** Reservation of funds or collateral at the start of the transaction;
    [None] when the statement raises. *)
Definition reserve (userId : Z) (p : params) (userPos : Z) (st : db)
  : option db :=
  if bool_decide (p_type p = "limit")
  then match p_side p with
       | buy =>
         let totalCost :=
           js_mul (price_number p) (number_of_Z (p_quantity p)) in
         debit_number userId totalCost st
       | sell =>
         if bool_decide (userPos < p_quantity p)
         then let collateral :=
                js_mul (price_number p)
                  (number_of_Z (shortQty (p_quantity p) userPos)) in
              if js_lt (Finite 0) collateral
              then debit_number userId collateral st else Some st
         else Some st
       end
  else Some st.

(** ** Matching and settlement *)

(** The result of a matching loop: the store, [remainingQty] and
    [tradesExecuted] when the loop is left. *)
Definition loop_result : Type := db * Z * list fill.

(** The status written to a maker whose quantity becomes [newQty]. *)
Definition maker_status (newQty : Z) : Status :=
  if bool_decide (newQty = 0) then FILLED else OPEN.

(** The rows inserted into [trades] for a fill of [m.2] units against the
    maker [m.1], at the maker's price: by a market taker on side [side]
    (whose own order id is null), by a new limit buy, by a new limit sell. *)
Definition market_trade (userId symbol_id : Z) (side : Side) (m : order * Z)
  : trade :=
  match side with
  | buy => mk_trade symbol_id (ord_price m.1) m.2
             None (Some (ord_id m.1)) userId (ord_user_id m.1) side
  | sell => mk_trade symbol_id (ord_price m.1) m.2
              (Some (ord_id m.1)) None (ord_user_id m.1) userId side
  end.

Definition limit_buy_trade (userId symbol_id newOrderId : Z) (m : order * Z)
  : trade :=
  mk_trade symbol_id (ord_price m.1) m.2
    (Some newOrderId) (Some (ord_id m.1)) userId (ord_user_id m.1) buy.

Definition limit_sell_trade (userId symbol_id newOrderId : Z) (m : order * Z)
  : trade :=
  mk_trade symbol_id (ord_price m.1) m.2
    (Some (ord_id m.1)) (Some newOrderId) (ord_user_id m.1) userId sell.

(** The loop of a market order over [bookOrders].  A market buyer stops at
    the first fill for which [cashAvailable < tradePrice * matchQty], a
    comparison of numbers.  Each fill records the trade, updates the
    maker, moves cash (the buyer pays, the seller receives) and moves
    shares. *)
Fixpoint market_loop (userId symbol_id : Z) (side : Side)
    (bookOrders : list order) (st : db) (remainingQty : Z)
    (cashAvailable : number) (tradesExecuted : list fill)
  : option loop_result :=
  match bookOrders with
  | [] => Some (st, remainingQty, tradesExecuted)
  | maker :: rest =>
    if bool_decide (remainingQty = 0)
    then Some (st, remainingQty, tradesExecuted)
    else
      let matchQty := Z.min remainingQty (ord_quantity maker) in
      let tradePrice := ord_price maker in
      let amount := js_mul (parseFloat tradePrice) (number_of_Z matchQty) in
      if bool_decide (side = buy) && js_lt cashAvailable amount
      then Some (st, remainingQty, tradesExecuted)
      else
        st ← insert_trade
               (market_trade userId symbol_id side (maker, matchQty)) st;
        let newQty := ord_quantity maker - matchQty in
        let st := update_order (ord_id maker) newQty (maker_status newQty) st in
        match side with
        | buy =>
          let st := debit_cash userId (tradePrice * matchQty) st in
          let st := credit_cash (ord_user_id maker) (tradePrice * matchQty) st in
          let st := adjust_position userId symbol_id matchQty st in
          let st := adjust_position (ord_user_id maker) symbol_id (- matchQty) st in
          market_loop userId symbol_id side rest st (remainingQty - matchQty)
            (js_sub cashAvailable amount)
            (tradesExecuted ++ [mk_fill tradePrice matchQty])
        | sell =>
          let st := credit_cash userId (tradePrice * matchQty) st in
          let st := debit_cash (ord_user_id maker) (tradePrice * matchQty) st in
          let st := adjust_position userId symbol_id (- matchQty) st in
          let st := adjust_position (ord_user_id maker) symbol_id matchQty st in
          market_loop userId symbol_id side rest st (remainingQty - matchQty)
            cashAvailable
            (tradesExecuted ++ [mk_fill tradePrice matchQty])
        end
  end.

(** The loop of a new limit buy over [sellOrders]: the buyer was debited
    upfront, so a fill credits the seller only. *)
Fixpoint limit_buy_loop (userId symbol_id newOrderId : Z)
    (sellOrders : list order) (st : db) (remainingQty : Z)
    (tradesExecuted : list fill) : option loop_result :=
  match sellOrders with
  | [] => Some (st, remainingQty, tradesExecuted)
  | sellOrder :: rest =>
    if bool_decide (remainingQty ≤ 0)
    then Some (st, remainingQty, tradesExecuted)
    else
      let matchQty := Z.min remainingQty (ord_quantity sellOrder) in
      let tradePrice := ord_price sellOrder in
      st ← insert_trade
             (limit_buy_trade userId symbol_id newOrderId (sellOrder, matchQty))
             st;
      let remainingQty := remainingQty - matchQty in
      let newSellQty := ord_quantity sellOrder - matchQty in
      let st := update_order (ord_id sellOrder) newSellQty
                  (maker_status newSellQty) st in
      let st := adjust_position userId symbol_id matchQty st in
      let st := adjust_position (ord_user_id sellOrder) symbol_id (- matchQty) st in
      let st := credit_cash (ord_user_id sellOrder) (tradePrice * matchQty) st in
      let tradesExecuted := tradesExecuted ++ [mk_fill tradePrice matchQty] in
      if bool_decide (remainingQty = 0)
      then Some (st, remainingQty, tradesExecuted)
      else limit_buy_loop userId symbol_id newOrderId rest st remainingQty
             tradesExecuted
  end.

(** The loop of a new limit sell over [buyOrders]: a fill debits the
    resting buyer and credits the seller. *)
Fixpoint limit_sell_loop (userId symbol_id newOrderId : Z)
    (buyOrders : list order) (st : db) (remainingQty : Z)
    (tradesExecuted : list fill) : option loop_result :=
  match buyOrders with
  | [] => Some (st, remainingQty, tradesExecuted)
  | buyOrder :: rest =>
    if bool_decide (remainingQty ≤ 0)
    then Some (st, remainingQty, tradesExecuted)
    else
      let matchQty := Z.min remainingQty (ord_quantity buyOrder) in
      let tradePrice := ord_price buyOrder in
      st ← insert_trade
             (limit_sell_trade userId symbol_id newOrderId (buyOrder, matchQty))
             st;
      let remainingQty := remainingQty - matchQty in
      let newBuyQty := ord_quantity buyOrder - matchQty in
      let st := update_order (ord_id buyOrder) newBuyQty
                  (maker_status newBuyQty) st in
      let st := adjust_position (ord_user_id buyOrder) symbol_id matchQty st in
      let st := adjust_position userId symbol_id (- matchQty) st in
      let st := debit_cash (ord_user_id buyOrder) (tradePrice * matchQty) st in
      let st := credit_cash userId (tradePrice * matchQty) st in
      let tradesExecuted := tradesExecuted ++ [mk_fill tradePrice matchQty] in
      if bool_decide (remainingQty = 0)
      then Some (st, remainingQty, tradesExecuted)
      else limit_sell_loop userId symbol_id newOrderId rest st remainingQty
             tradesExecuted
  end.

(** Price stamping after at least one fill: [prev_price] becomes the old
    [last_price] (or the last trade price when there was none) and
    [last_price] the price of the last fill. *)
Definition stamp_last_trade (symbol_id : Z) (symRow : symbol)
    (tradesExecuted : list fill) (st : db) : db :=
  match last tradesExecuted with
  | Some t =>
    let lastTradePrice := fill_price t in
    let prevPrice := default lastTradePrice (last_price symRow) in
    stamp_prices symbol_id prevPrice lastTradePrice st
  | None => st
  end.

(** [tradesExecuted.reduce((sum, t) => sum + t.price * t.quantity, 0)],
    a sum of numbers. *)
Definition totalSpent (tradesExecuted : list fill) : number :=
  foldl (λ sum t, js_add sum (js_mul (parseFloat (fill_price t))
                                     (number_of_Z (fill_quantity t))))
        (Finite 0) tradesExecuted.

(** The market branch of the transaction; [None] stands for a raised
    statement. *)
Definition market_order (userId : Z) (p : params) (symRow : symbol)
    (userCash : number) (st : db) : option (response * db) :=
  let bookOrders := book_orders st (p_symbol_id p) (p_side p) None in
  '(st', remainingQty, tradesExecuted) ←
    market_loop userId (p_symbol_id p) (p_side p) bookOrders st
      (p_quantity p) userCash [];
  if bool_decide (tradesExecuted = [])
  then Some (Rejected NO_LIQUIDITY, st')
  else
    let st' := stamp_last_trade (p_symbol_id p) symRow tradesExecuted st' in
    let st' := delete_zero_positions st' in
    Some (OrderPlaced
            (if bool_decide (remainingQty = 0) then STATUS_FILLED
             else STATUS_PARTIAL)
            tradesExecuted, st').

(** Refund of reserved cash after the matching of a new limit order. *)
Definition refund_reserved (userId : Z) (p : params) (userPos remainingQty : Z)
    (tradesExecuted : list fill) (st : db) : option db :=
  if bool_decide (p_type p = "limit")
  then
    let price := price_number p in
    let quantity := p_quantity p in
    match p_side p with
    | buy =>
      if bool_decide (remainingQty < quantity)
      then
        let totalReserved := js_mul price (number_of_Z quantity) in
        let refund := js_sub totalReserved (totalSpent tradesExecuted) in
        if js_lt (Finite 0) refund then credit_number userId refund st
        else Some st
      else Some st
    | sell =>
      if bool_decide (userPos < quantity)
      then
        let remainingShortQty :=
          remainingQty
          - (if bool_decide (0 < userPos)
             then Z.max 0 (userPos - (quantity - remainingQty)) else 0) in
        let refundCollateral :=
          js_mul price
            (number_of_Z (if bool_decide (0 < remainingShortQty)
                          then remainingShortQty else 0)) in
        if js_lt (Finite 0) refundCollateral
        then credit_number userId refundCollateral st else Some st
      else Some st
    end
  else Some st.

(** The rest of the transaction for an order that is not a market order:
    the order is inserted OPEN ([price !== null ? price : 0]), matched as
    a taker against the rows its price reaches, then updated; reserved
    cash is refunded and the last price stamped. *)
Definition limit_order (userId : Z) (p : params) (symRow : symbol)
    (userPos : Z) (st : db) : option (response * db) :=
  let symbol_id := p_symbol_id p in
  let quantity := p_quantity p in
  '(newOrderId, st) ←
    insert_order userId symbol_id (p_side p) (price_number p) quantity st;
  candidates ←
    match p_price p with
    | Some price =>
      bound ← sql_literal price;
      Some (book_orders st symbol_id (p_side p) (Some bound))
    | None => Some []
    end;
  '(st, remainingQty, tradesExecuted) ←
    match p_side p with
    | buy => limit_buy_loop userId symbol_id newOrderId candidates st quantity []
    | sell => limit_sell_loop userId symbol_id newOrderId candidates st quantity []
    end;
  let st := if bool_decide (0 < remainingQty)
            then update_order_quantity newOrderId remainingQty st
            else update_order newOrderId 0 FILLED st in
  st ← refund_reserved userId p userPos remainingQty tradesExecuted st;
  let st := stamp_last_trade symbol_id symRow tradesExecuted st in
  let st := delete_zero_positions st in
  Some (OrderPlaced
          (if bool_decide (remainingQty = 0) then STATUS_FILLED
           else if bool_decide (remainingQty < quantity) then STATUS_PARTIAL
           else STATUS_OPEN)
          tradesExecuted, st).

(** The transaction boundary: a body that answers with a rejection was
    rolled back before answering, a body that raised is rolled back by the
    catch block, any other body is committed. *)
Definition transaction (st : db) (body : option (response * db))
  : response * db :=
  match body with
  | Some (Rejected e, _) => (Rejected e, st)
  | Some r => r
  | None => (Rejected INTERNAL, st)
  end.

(** [router.post('/')]: place a new order for the authenticated [userId]. *)
Definition place_order (st : db) (userId : Z) (body : request)
  : response * db :=
  match validate body with
  | inl e => (Rejected e, st)
  | inr p =>
    if crosses_book st p then (Rejected CROSSES_BOOK, st)
    else
      match symbols st !! p_symbol_id p with
      | None => (Rejected UNKNOWN_SYMBOL, st)
      | Some symRow =>
        let userCash := parseFloat (get_cash st userId) in
        let userPos := get_position st userId (p_symbol_id p) in
        match check_resources p symRow userCash userPos with
        | Some e => (Rejected e, st)
        | None =>
          transaction st
            (st ← reserve userId p userPos st;
             if bool_decide (p_type p = "market")
             then market_order userId p symRow userCash st
             else limit_order userId p symRow userPos st)
        end
      end
  end.

(** [router.delete('/:id')]: cancel an OPEN order of [userId]. *)
Definition cancel_order (st : db) (userId orderId : Z) : response * db :=
  match filter (λ o, ord_id o = orderId ∧ ord_user_id o = userId
                     ∧ ord_status o = OPEN) (orders st) with
  | [] => (Rejected NOT_FOUND_OR_CLOSED, st)
  | o :: _ =>
    let st' :=
      match ord_side o with
      | buy => credit_cash userId (ord_price o * ord_quantity o) st
      | sell =>
        if bool_decide (0 < ord_quantity o)
        then credit_cash userId (ord_price o * ord_quantity o) st
        else st
      end in
    (OrderCancelled, update_order orderId 0 CANCELLED st')
  end.

(** [router.post('/:id/burn')] of the symbol routes, behind [verifyToken]
    and [requireManager]. *)
Definition burn (st : db) (userId : Z) (role : Role) (symbolId qty : Z)
  : response * db :=
  if bool_decide (role ≠ manager) then (Rejected PERMISSION_DENIED, st)
  else if bool_decide (qty = 0 ∨ qty ≤ 0) then (Rejected INVALID_INPUT, st)
  else
    match symbols st !! symbolId with
    | None => (Rejected UNKNOWN_SYMBOL, st)
    | Some sym =>
      match positions st !! (userId, symbolId) with
      | None => (Rejected INSUFFICIENT_SHARES, st)
      | Some held =>
        if bool_decide (held < qty) then (Rejected INSUFFICIENT_SHARES, st)
        else
          (Burned,
           mk_db (users st)
                 (alter (λ s, mk_symbol (outstanding_shares s - qty)
                                        (last_price s) (prev_price s))
                        symbolId (symbols st))
                 (alter (λ q, q - qty) (userId, symbolId) (positions st))
                 (orders st) (trades st) (orders_auto_increment st))
      end
    end.

(** [router.post('/:id/issue')] of the symbol routes: a manager mints
    [qty] shares (at most [MAX_BATCH] per call) into their own position. *)
Definition MAX_BATCH : Z := 1000000.

Definition issue (st : db) (userId : Z) (role : Role) (symbolId qty : Z)
  : response * db :=
  if bool_decide (role ≠ manager) then (Rejected PERMISSION_DENIED, st)
  else if bool_decide (qty = 0 ∨ qty ≤ 0 ∨ MAX_BATCH < qty)
  then (Rejected INVALID_INPUT, st)
  else
    match symbols st !! symbolId with
    | None => (Rejected UNKNOWN_SYMBOL, st)
    | Some sym =>
      if bool_decide (is_Some (users st !! userId))
      then
        let st := adjust_position userId symbolId qty st in
        (Minted,
         mk_db (users st)
               (alter (λ s, mk_symbol (outstanding_shares s + qty)
                                      (last_price s) (prev_price s))
                      symbolId (symbols st))
               (positions st) (orders st) (trades st)
               (orders_auto_increment st))
      else (Rejected INTERNAL, st)
    end.

(** ** The matcher of the specification

    The pure reduction of the design: walking the candidates in the order
    given, a fill of [min residual maker_remaining] is proposed as long as
    the residual is positive; with a cash limit (a market buy) the walk
    stops at the first fill the remaining cash does not cover. *)
Fixpoint matcher (cash : option Z) (residual : Z) (candidates : list order)
  : list (order * Z) :=
  match candidates with
  | [] => []
  | maker :: rest =>
    if bool_decide (0 < residual)
    then
      let q := Z.min residual (ord_quantity maker) in
      match cash with
      | Some c =>
        if bool_decide (c < ord_price maker * q) then []
        else (maker, q) :: matcher (Some (c - ord_price maker * q))
                             (residual - q) rest
      | None => (maker, q) :: matcher None (residual - q) rest
      end
    else []
  end.


(** The entry of [tradesExecuted] for a proposed fill. *)
Definition fill_of (m : order * Z) : fill := mk_fill (ord_price m.1) m.2.

(** The quantity and the cash a list of proposed fills adds up to. *)
Definition filled (ms : list (order * Z)) : Z :=
  foldr (λ m acc, m.2 + acc) 0 ms.

Definition cost (ms : list (order * Z)) : Z :=
  foldr (λ m acc, ord_price m.1 * m.2 + acc) 0 ms.

(** A loop result agrees with the proposed fills [ms], walked from the
    store [st] with residual [r] and the entries [acc] already pushed: the
    entries of [ms] were pushed in order, their rows appended to [trades]
    in order, and the residual reduced by their quantities. *)
Definition loop_agrees (row : order * Z → trade) (st : db) (r : Z)
    (acc : list fill) (ms : list (order * Z)) (res : loop_result) : Prop :=
  res.2 = acc ++ (fill_of <$> ms)
  ∧ trades res.1.1 = trades st ++ (row <$> ms)
  ∧ res.1.2 = r - filled ms.

#[global] Arguments filled : simpl never.
#[global] Arguments cost : simpl never.

(** The foreign key of [orders.user_id]. *)
Definition owners_exist (st : db) : Prop :=
  ∀ o, o ∈ orders st → is_Some (users st !! ord_user_id o).

(** ** The scenarios of the specification

    Users [U1] and [U2] each hold 10,000.00 in cash; the symbol [SYM] has
    100 shares outstanding, all held by [U1]; no order was placed and no
    trade made.  [U1] is the manager who minted the shares. *)
Definition U1 : Z := 1.
Definition U2 : Z := 2.
Definition SYM : Z := 1.

Definition initial : db :=
  mk_db {[U1 := 1000000; U2 := 1000000]}
        {[SYM := mk_symbol 100 None None]}
        {[(U1, SYM) := 100]}
        [] [] 1.

(** A limit order at a price of [price] cents. *)
Definition limit_request (side : string) (price quantity : Z) : request :=
  mk_request (Some SYM) (Some side) (Some (numeral price (-2)))
    (Some quantity) (Some "limit").

Definition market_request (side : string) (quantity : Z) : request :=
  mk_request (Some SYM) (Some side) None (Some quantity) (Some "market").

(** The handlers in sequence: the store a list of steps leaves behind. *)
Definition run (steps : list (db → response * db)) (st : db) : db :=
  foldl (λ st step, (step st).2) st steps.

(** [U1] rests a buy limit 5 @ 90.00, then sells 5 at market into it. *)
Definition self_trade_rested : db :=
  run [λ st, place_order st U1 (limit_request "buy" 9000 5)] initial.

Definition self_trade_crossed : response * db :=
  place_order self_trade_rested U1 (market_request "sell" 5).

(** [U2] rests a buy limit 10 @ 100.00; [U1] sells 3 and then 4 at market
    into it (or 4 and then 3); [U2] cancels the residual 3. *)
Definition lifecycle_rested : db :=
  run [λ st, place_order st U2 (limit_request "buy" 10000 10)] initial.

Definition lifecycle_filled (q1 q2 : Z) : db :=
  run [λ st, place_order st U1 (market_request "sell" q1);
       λ st, place_order st U1 (market_request "sell" q2)] lifecycle_rested.

Definition lifecycle_cancelled (q1 q2 : Z) : response * db :=
  cancel_order (lifecycle_filled q1 q2) U2 1.

(** [U2] rests a buy limit 100 @ 100.00 with all of their cash; [U1] sells
    100 at market into it. *)
Definition all_in_rested : db :=
  run [λ st, place_order st U2 (limit_request "buy" 10000 100)] initial.

Definition all_in_filled : response * db :=
  place_order all_in_rested U1 (market_request "sell" 100).

(** [U1], who holds 100 shares, rests a sell limit 10 @ 100.00 and
    cancels it. *)
Definition covered_sell_rested : response * db :=
  place_order initial U1 (limit_request "sell" 10000 10).

Definition covered_sell_cancelled : response * db :=
  cancel_order covered_sell_rested.2 U1 1.

(** [U2] rests a short sell limit 5 @ 100.00; the manager [U1] buys the 5
    at market and then holds 105 shares of the 100 outstanding. *)
Definition manager_long : db :=
  run [λ st, place_order st U2 (limit_request "sell" 10000 5);
       λ st, place_order st U1 (market_request "buy" 5)] initial.

(** [U1] rests the sell limits 60 @ 100.00 and 40 @ 101.00; [U2], with
    10,000.00 in cash, buys 100 at market. *)
Definition two_asks : db :=
  run [λ st, place_order st U1 (limit_request "sell" 10000 60);
       λ st, place_order st U1 (limit_request "sell" 10100 40)] initial.



(** [U1] rests two sell limits at 100.00, of 3 and then of 5 units. *)
Definition tied_asks : db :=
  run [λ st, place_order st U1 (limit_request "sell" 10000 3);
       λ st, place_order st U1 (limit_request "sell" 10000 5)] initial.

(** ** Totals and invariants of the store *)

(** The sum of [w k v] over the rows of a table. *)
Definition msum `{Countable K} {A} (w : K → A → Z) (m : gmap K A) : Z :=
  map_fold (λ k v acc, w k v + acc) 0 m.

(** All the cash of the exchange. *)
Definition total_cash (st : db) : Z := msum (λ _ cash, cash) (users st).

(** All the shares of a symbol held, short positions counted negative. *)
Definition shares_held (st : db) (sid : Z) : Z :=
  msum (λ k q, if bool_decide (k.2 = sid) then q else 0) (positions st).

(** The positions of every symbol add up to its [outstanding_shares]. *)
Definition float_matches (st : db) : Prop :=
  ∀ sid sym, symbols st !! sid = Some sym →
             shares_held st sid = outstanding_shares sym.

(** The statements of one iteration of the market loop once its checks
    have passed and the trade row is accepted: the fill of [m.2] units
    against the maker [m.1]. *)
Definition market_settle (userId symbol_id : Z) (side : Side) (st : db)
    (m : order * Z) : db :=
  let maker := m.1 in
  let matchQty := m.2 in
  let tradePrice := ord_price maker in
  let st := mk_db (users st) (symbols st) (positions st) (orders st)
              (trades st ++ [market_trade userId symbol_id side m])
              (orders_auto_increment st) in
  let newQty := ord_quantity maker - matchQty in
  let st := update_order (ord_id maker) newQty (maker_status newQty) st in
  match side with
  | buy =>
    let st := debit_cash userId (tradePrice * matchQty) st in
    let st := credit_cash (ord_user_id maker) (tradePrice * matchQty) st in
    let st := adjust_position userId symbol_id matchQty st in
    adjust_position (ord_user_id maker) symbol_id (- matchQty) st
  | sell =>
    let st := credit_cash userId (tradePrice * matchQty) st in
    let st := debit_cash (ord_user_id maker) (tradePrice * matchQty) st in
    let st := adjust_position userId symbol_id (- matchQty) st in
    adjust_position (ord_user_id maker) symbol_id matchQty st
  end.

(** Order ids are the values the counter has handed out: below the
    counter and pairwise distinct. *)
Definition ids_fresh (st : db) : Prop :=
  (∀ o, o ∈ orders st → ord_id o < orders_auto_increment st)
  ∧ NoDup (ord_id <$> orders st).

(** An OPEN order has a positive quantity left; a FILLED or CANCELLED
    order has none. *)
Definition order_consistent (o : order) : Prop :=
  (ord_status o = OPEN → 0 < ord_quantity o)
  ∧ (ord_status o ≠ OPEN → ord_quantity o = 0).

(** No maker-crossing book: every OPEN buy order of a symbol is priced
    strictly below every OPEN sell order of the symbol. *)
Definition uncrossed (st : db) : Prop :=
  ∀ b a, b ∈ orders st → a ∈ orders st →
         ord_symbol_id b = ord_symbol_id a →
         ord_side b = buy → ord_side a = sell →
         ord_status b = OPEN → ord_status a = OPEN →
         ord_price b < ord_price a.

(** A row [o'] is a later state of the row [o]: the same order, and OPEN
    only if [o] was. *)
Definition later_state (o o' : order) : Prop :=
  ord_id o' = ord_id o ∧ ord_user_id o' = ord_user_id o
  ∧ ord_symbol_id o' = ord_symbol_id o ∧ ord_side o' = ord_side o
  ∧ ord_price o' = ord_price o
  ∧ (ord_status o' = OPEN → ord_status o = OPEN).

(** The fills a market order makes on its way through [bookOrders]: the
    control of [market_loop] without its statements. *)
Fixpoint market_walk (side : Side) (cashAvailable : number)
    (remainingQty : Z) (bookOrders : list order) : list (order * Z) :=
  match bookOrders with
  | [] => []
  | maker :: rest =>
    if bool_decide (remainingQty = 0) then []
    else
      let matchQty := Z.min remainingQty (ord_quantity maker) in
      let amount :=
        js_mul (parseFloat (ord_price maker)) (number_of_Z matchQty) in
      if bool_decide (side = buy) && js_lt cashAvailable amount then []
      else (maker, matchQty)
           :: market_walk side
                (match side with
                 | buy => js_sub cashAvailable amount
                 | sell => cashAvailable
                 end)
                (remainingQty - matchQty) rest
  end.

(** The store a committed market order leaves behind. *)
Definition traded_store (userId : Z) (p : params) (symRow : symbol)
    (ms : list (order * Z)) (st : db) : db :=
  delete_zero_positions
    (stamp_last_trade (p_symbol_id p) symRow (fill_of <$> ms)
       (foldl (market_settle userId (p_symbol_id p) (p_side p)) st ms)).

(** The answers of [router.delete('/:id')] of the symbol routes:
    'Symbol deleted', 'Symbol not found', 'Cannot delete symbol with
    active orders/positions', and the refusal of [requireManager]. *)
Inductive delete_response :=
  | SymbolDeleted
  | SymbolNotFound
  | SymbolInUse
  | DeleteDenied.

(** [ON DELETE SET NULL] of the order ids of a trade row, for the orders
    whose ids are in [gone]. *)
Definition null_order_refs (gone : list Z) (t : trade) : trade :=
  let keep (r : option Z) :=
    match r with
    | Some i => if bool_decide (i ∈ gone) then None else Some i
    | None => None
    end in
  mk_trade (trd_symbol_id t) (trd_price t) (trd_quantity t)
    (keep (trd_buy_order_id t)) (keep (trd_sell_order_id t))
    (trd_buy_user_id t) (trd_sell_user_id t) (trd_taker_side t).

(** [router.delete('/:id')] of the symbol routes: a manager deletes a
    symbol that no OPEN order and no position row refers to.  The
    deletion cascades to the orders, positions and trades of the symbol,
    and nulls the references of other trades to the deleted orders. *)
Definition delete_symbol (st : db) (role : Role) (symbolId : Z)
  : delete_response * db :=
  if bool_decide (role ≠ manager) then (DeleteDenied, st)
  else
    match symbols st !! symbolId with
    | None => (SymbolNotFound, st)
    | Some sym =>
      let openOrders :=
        filter (λ o, ord_symbol_id o = symbolId ∧ ord_status o = OPEN)
               (orders st) in
      let openPos := filter (λ kv, kv.1.2 = symbolId) (positions st) in
      if bool_decide (0 < length openOrders ∨ 0 < size openPos)%nat
      then (SymbolInUse, st)
      else
        let gone :=
          ord_id <$> filter (λ o, ord_symbol_id o = symbolId) (orders st) in
        (SymbolDeleted,
         mk_db (users st)
               (delete symbolId (symbols st))
               (filter (λ kv, kv.1.2 ≠ symbolId) (positions st))
               (filter (λ o, ord_symbol_id o ≠ symbolId) (orders st))
               (null_order_refs gone
                  <$> filter (λ t, trd_symbol_id t ≠ symbolId) (trades st))
               (orders_auto_increment st))
    end.

(** The text of a DECIMAL(15,2) value, as the driver hands it to the
    handler: the sign, the integer digits, the point and two decimals. *)
Definition digit (n : Z) : ascii := ascii_of_nat (48 + Z.to_nat n).

Fixpoint digits_of (fuel : nat) (n : Z) (acc : string) : string :=
  let acc := String (digit (n `mod` 10)) acc in
  match fuel with
  | O => acc
  | S fuel => if bool_decide (n < 10) then acc else digits_of fuel (n `div` 10) acc
  end.

Definition decimal_text (cents : Z) : string :=
  let a := Z.abs cents in
  ((if bool_decide (cents < 0) then "-" else "")
   ++ digits_of (Z.to_nat (Z.log2 a)) (a `div` 100)
        (String "." (String (digit ((a `div` 10) `mod` 10))
                            (String (digit (a `mod` 10)) EmptyString))))%string.

(** [s < t] on strings: by the first character that differs, a proper
    prefix being less. *)
Fixpoint string_lt (s t : string) : bool :=
  match s, t with
  | _, EmptyString => false
  | EmptyString, String _ _ => true
  | String a s, String b t =>
    if (nat_of_ascii a <? nat_of_ascii b)%nat then true
    else if (nat_of_ascii b <? nat_of_ascii a)%nat then false
    else string_lt s t
  end.

(** The [priceDirection] field of the book snapshot.  [last_price] and
    [prev_price] reach the handler as the texts of their DECIMAL values,
    and [>] and [<] compare them as strings. *)
Inductive Direction := direction_up | direction_down | direction_same.

Definition priceDirection (sym : symbol) : Direction :=
  match last_price sym, prev_price sym with
  | Some last, Some prev =>
    if string_lt (decimal_text prev) (decimal_text last) then direction_up
    else if string_lt (decimal_text last) (decimal_text prev)
         then direction_down
    else direction_same
  | _, _ => direction_same
  end.

(** A row of the book as the front end shows it. *)
Record book_row := mk_book_row {
  row_price : Z;
  row_quantity : Z
}.

(** The comparator of [padSide] is negative: [a] is sorted before [b].
    Buy rows run from the high price to the low, sell rows from the low
    to the high. *)
Definition sorts_before (isBuy : bool) (a b : book_row) : Prop :=
  if isBuy then row_price b < row_price a else row_price a < row_price b.

#[global] Instance sorts_before_dec isBuy a b : Decision (sorts_before isBuy a b).
Proof. destruct isBuy; unfold sorts_before; apply _. Defined.

(** [Array.prototype.sort], a stable sort: a row is put behind the rows
    sorted before it and ahead of all others, the rows being taken from
    the last to the first. *)
Fixpoint insert_row (isBuy : bool) (x : book_row) (l : list book_row)
  : list book_row :=
  match l with
  | [] => [x]
  | y :: l' =>
    if decide (sorts_before isBuy y x) then y :: insert_row isBuy x l'
    else x :: l
  end.

Definition sort_rows (isBuy : bool) (l : list book_row) : list book_row :=
  foldr (insert_row isBuy) [] l.

Definition MAX_ROWS : nat := 10.

(** [padSide]: copy, sort, slice to [MAX_ROWS], pad with blank rows. *)
Definition padSide (orders : list book_row) (isBuy : bool)
  : list (option book_row) :=
  let sorted := sort_rows isBuy orders in
  let trimmed := take MAX_ROWS sorted in
  (Some <$> trimmed) ++ replicate (MAX_ROWS - length trimmed) None.

(** [a] may stand before [b] in a sorted side: [b] is not sorted before
    [a]. *)
Definition not_after (isBuy : bool) (a b : book_row) : Prop :=
  ¬ sorts_before isBuy b a.

(** The sign with which a taker on side [sd] pays: a buyer pays cash and
    receives shares, a seller the reverse. *)
Definition signed (sd : Side) (x : Z) : Z :=
  match sd with buy => x | sell => - x end.

(** [U1] rests a sell limit 10 @ 100.00 and [U2] a buy limit 5 @ 90.00. *)
Definition two_sided : db :=
  run [λ st, place_order st U1 (limit_request "sell" 10000 10);
       λ st, place_order st U2 (limit_request "buy" 9000 5)] initial.

(** The initial store with a second symbol that nobody holds or trades. *)
Definition SPARE : Z := 2.

Definition with_spare : db :=
  mk_db (users initial)
        (<[SPARE := mk_symbol 0 None None]> (symbols initial))
        (positions initial) [] [] 1.

(** A sell order of [U1] for 10 units with type 'stop'. *)
Definition stop_request : request :=
  mk_request (Some SYM) (Some "sell") (Some (numeral 10000 (-2))) (Some 10)
    (Some "stop").

(** ** Powers of two *)

Lemma pow2_pos (z : Z) : (0 < 2 ^ z)%Q.
Proof. by apply Qpower_0_lt. Qed.

Lemma pow2_add (a b : Z) : (2 ^ (a + b) == 2 ^ a * 2 ^ b)%Q.
Proof. by apply Qpower_plus. Qed.

Lemma pow2_succ (a : Z) : (2 ^ (a + 1) == 2 * 2 ^ a)%Q.
Proof. rewrite pow2_add. simpl. ring. Qed.

Lemma pow2_opp (a : Z) : (2 ^ (- a) * 2 ^ a == 1)%Q.
Proof. rewrite <- pow2_add. by replace (- a + a) with 0 by lia. Qed.

Lemma pow2_le (a b : Z) : a ≤ b → (2 ^ a <= 2 ^ b)%Q.
Proof. intros. by apply Qpower_le_compat_l. Qed.

Lemma pow2_lt (a b : Z) : a < b → (2 ^ a < 2 ^ b)%Q.
Proof. intros. by apply Qpower_lt_compat_l. Qed.

Lemma pow2_lt_inv (a b : Z) : (2 ^ a < 2 ^ b)%Q → a < b.
Proof. intros. by eapply Qpower_lt_compat_l_inv. Qed.

Lemma pow2_inject (a : Z) : 0 ≤ a → (inject_Z (2 ^ a) == 2 ^ a)%Q.
Proof. intros. by rewrite Zpower_Qpower. Qed.

Lemma scale_lt (q : Q) (e k : Z) :
  (q < 2 ^ (k + e))%Q → (q * 2 ^ (- e) < 2 ^ k)%Q.
Proof.
  intros H. rewrite pow2_add in H.
  pose proof (pow2_pos (- e)) as Hc. pose proof (pow2_opp e) as Hopp.
  set (a := (2 ^ k)%Q) in *. set (b := (2 ^ e)%Q) in *.
  set (c := (2 ^ (- e))%Q) in *. clearbody a b c.
  assert (a * (c * b) == a)%Q as Ha by (rewrite Hopp; ring).
  assert (0 < (a * b - q) * c)%Q as Hp by (apply Qmult_lt_0_compat; lra).
  nra.
Qed.

Lemma scale_le (q : Q) (e k : Z) :
  (2 ^ (k + e) <= q)%Q → (2 ^ k <= q * 2 ^ (- e))%Q.
Proof.
  intros H. rewrite pow2_add in H.
  pose proof (pow2_pos (- e)) as Hc. pose proof (pow2_opp e) as Hopp.
  set (a := (2 ^ k)%Q) in *. set (b := (2 ^ e)%Q) in *.
  set (c := (2 ^ (- e))%Q) in *. clearbody a b c.
  assert (a * (c * b) == a)%Q as Ha by (rewrite Hopp; ring).
  assert (0 <= (q - a * b) * c)%Q as Hp by (apply Qmult_le_0_compat; lra).
  nra.
Qed.

(** ** The binary logarithm *)

Lemma Qlog2_spec (q : Q) :
  (0 < q)%Q → (2 ^ Qlog2 q <= q)%Q ∧ (q < 2 ^ (Qlog2 q + 1))%Q.
Proof.
  intros Hq. unfold Qlog2.
  destruct q as [n d]. simpl Qnum. simpl Qden.
  assert (0 < n) as Hn by (unfold Qlt in Hq; simpl in Hq; lia).
  pose proof (Z.log2_spec n Hn) as [Hn1 Hn2].
  pose proof (Z.log2_spec (Z.pos d) eq_refl) as [Hd1 Hd2].
  pose proof (Z.log2_nonneg n) as Ha.
  pose proof (Z.log2_nonneg (Z.pos d)) as Hb.
  set (a := Z.log2 n) in *. set (b := Z.log2 (Z.pos d)) in *.
  assert (n # d == inject_Z n / inject_Z (Z.pos d))%Q as Hq' by apply Qmake_Qdiv.
  assert (0 < inject_Z (Z.pos d))%Q as Hdpos by (unfold Qlt; simpl; lia).
  assert (inject_Z (2 ^ a) <= inject_Z n)%Q as Hn1' by (by rewrite <- Zle_Qle).
  assert (inject_Z n < inject_Z (2 ^ Z.succ a))%Q as Hn2' by (by rewrite <- Zlt_Qlt).
  assert (inject_Z (2 ^ b) <= inject_Z (Z.pos d))%Q as Hd1' by (by rewrite <- Zle_Qle).
  assert (inject_Z (Z.pos d) < inject_Z (2 ^ Z.succ b))%Q as Hd2'
    by (by rewrite <- Zlt_Qlt).
  rewrite pow2_inject in Hn1', Hn2', Hd1', Hd2' by lia.
  replace (Z.succ a) with (a + 1) in Hn2' by lia.
  replace (Z.succ b) with (b + 1) in Hd2' by lia.
  rewrite pow2_succ in Hn2', Hd2'.
  pose proof (pow2_pos a) as Hpa. pose proof (pow2_pos b) as Hpb.
  pose proof (pow2_pos (a - b)) as Hpk.
  assert (2 ^ (a - b) * 2 ^ b == 2 ^ a)%Q as Hk
    by (rewrite <- pow2_add; by replace (a - b + b) with a by lia).
  destruct (Qle_bool (2 ^ (a - b)) (n # d)) eqn:Hle.
  - apply Qle_bool_iff in Hle. split; [done |].
    rewrite pow2_succ, Hq'. apply Qlt_shift_div_r; [done |].
    nra.
  - assert (¬ (2 ^ (a - b) <= n # d)%Q) as Hnle
      by (rewrite <- Qle_bool_iff; congruence).
    apply Qnot_le_lt in Hnle.
    replace (a - b - 1 + 1) with (a - b) by lia. split; [| done].
    assert (2 * 2 ^ (a - b - 1) == 2 ^ (a - b))%Q as Hk'
      by (rewrite <- pow2_succ; by replace (a - b - 1 + 1) with (a - b) by lia).
    pose proof (pow2_pos (a - b - 1)) as Hpk'.
    rewrite Hq'. apply Qle_shift_div_l; [done |].
    nra.
Qed.

Lemma Qlog2_unique (q : Q) (k : Z) :
  (2 ^ k <= q)%Q → (q < 2 ^ (k + 1))%Q → Qlog2 q = k.
Proof.
  intros H1 H2.
  assert (0 < q)%Q as Hq by (pose proof (pow2_pos k); lra).
  destruct (Qlog2_spec q Hq) as [H3 H4].
  assert (k < Qlog2 q + 1) by (apply pow2_lt_inv; lra).
  assert (Qlog2 q < k + 1) by (apply pow2_lt_inv; lra).
  lia.
Qed.

Lemma Qlog2_mono (q r : Q) : (0 < q)%Q → (q <= r)%Q → Qlog2 q ≤ Qlog2 r.
Proof.
  intros Hq Hqr.
  destruct (Qlog2_spec q Hq) as [H1 H2].
  destruct (Qlog2_spec r) as [H3 H4]; [lra |].
  assert (Qlog2 q < Qlog2 r + 1) by (apply pow2_lt_inv; lra). lia.
Qed.

(** ** Rounding to an integer *)

Lemma round_half_even_spec (r : Q) :
  (r - (1 # 2) <= inject_Z (round_half_even r))%Q
  ∧ (inject_Z (round_half_even r) <= r + (1 # 2))%Q.
Proof.
  unfold round_half_even.
  pose proof (Qfloor_le r) as H1. pose proof (Qlt_floor r) as H2.
  rewrite inject_Z_plus in H2. change (inject_Z 1) with 1%Q in H2.
  destruct (Qcompare_spec (r - inject_Z (Qfloor r)) (1 # 2)) as [He | He | He].
  - destruct (Z.even (Qfloor r));
      [| rewrite inject_Z_plus; change (inject_Z 1) with 1%Q]; split; lra.
  - split; lra.
  - rewrite inject_Z_plus. change (inject_Z 1) with 1%Q. split; lra.
Qed.

Lemma round_half_even_floor (r : Q) :
  Qfloor r ≤ round_half_even r ≤ Qfloor r + 1.
Proof.
  unfold round_half_even.
  destruct (r - inject_Z (Qfloor r) ?= 1 # 2)%Q; [destruct (Z.even _) | |]; lia.
Qed.

Lemma round_half_even_mono (r s : Q) :
  (r <= s)%Q → round_half_even r ≤ round_half_even s.
Proof.
  intros Hrs. pose proof (Qfloor_resp_le _ _ Hrs) as Hf.
  destruct (decide (Qfloor r = Qfloor s)) as [Heq | Hne].
  - unfold round_half_even. rewrite Heq.
    destruct (Qcompare_spec (r - inject_Z (Qfloor s)) (1 # 2)) as [He | He | He];
      destruct (Qcompare_spec (s - inject_Z (Qfloor s)) (1 # 2))
        as [He' | He' | He'];
      try destruct (Z.even (Qfloor s)); try lia; lra.
  - pose proof (round_half_even_floor r). pose proof (round_half_even_floor s).
    lia.
Qed.

Lemma round_half_even_Z (r : Q) (z : Z) :
  (r == inject_Z z)%Q → round_half_even r = z.
Proof.
  intros Hr. unfold round_half_even.
  assert (Qfloor r = z) as ->.
  { pose proof (Qfloor_le r) as H1. pose proof (Qlt_floor r) as H2.
    assert (inject_Z (Qfloor r) <= inject_Z z)%Q as H3 by lra.
    assert (inject_Z z < inject_Z (Qfloor r + 1))%Q as H4 by lra.
    rewrite <- Zle_Qle in H3. rewrite <- Zlt_Qlt in H4. lia. }
  destruct (Qcompare_spec (r - inject_Z z) (1 # 2)) as [He | He | He];
    [lra | done | lra].
Qed.

(** ** Rounding to binary64 *)

Lemma ulp_exponent_mono (q r : Q) :
  (0 < q)%Q → (q <= r)%Q → ulp_exponent q ≤ ulp_exponent r.
Proof.
  intros Hq Hqr. unfold ulp_exponent.
  pose proof (Qlog2_mono q r Hq Hqr). lia.
Qed.

(** The significand of a positive real is below [2^53]; when the real is
    in the normal range it is at least [2^52]. *)
Lemma significand_bounds (q : Q) :
  (0 < q)%Q →
  let e := ulp_exponent q in
  let m := round_half_even (q * 2 ^ (- e)) in
  0 ≤ m ≤ 2 ^ 53 ∧ (-1074 < e → 2 ^ 52 ≤ m).
Proof.
  intros Hq e m.
  destruct (Qlog2_spec q Hq) as [H1 H2].
  pose proof (pow2_pos (- e)) as Hpe.
  pose proof (round_half_even_floor (q * 2 ^ (- e))) as Hfl. fold m in Hfl.
  assert (q * 2 ^ (- e) < inject_Z (2 ^ 53))%Q as Hup.
  { rewrite pow2_inject by lia. apply scale_lt.
    eapply Qlt_le_trans; [exact H2 |].
    apply pow2_le. unfold e, ulp_exponent. lia. }
  assert (0 <= q * 2 ^ (- e))%Q as Hlo
    by (apply Qmult_le_0_compat; by apply Qlt_le_weak).
  split.
  - split.
    + apply Qfloor_resp_le in Hlo. change (Qfloor 0) with 0 in Hlo. lia.
    + assert (Qfloor (q * 2 ^ (- e)) < 2 ^ 53); [| lia].
      rewrite Zlt_Qlt. pose proof (Qfloor_le (q * 2 ^ (- e))).
      eapply Qle_lt_trans; [done | exact Hup].
  - intros He.
    assert (e = Qlog2 q - 52) as Hee by (unfold e, ulp_exponent in *; lia).
    assert (inject_Z (2 ^ 52) <= q * 2 ^ (- e))%Q as Hge.
    { rewrite pow2_inject by lia. apply scale_le.
      by replace (52 + e) with (Qlog2 q) by lia. }
    apply Qfloor_resp_le in Hge. rewrite Qfloor_Z in Hge. lia.
Qed.

(** The rounding error is at most half a unit of the last place. *)
Lemma round_positive_error (q : Q) :
  (0 < q)%Q →
  let e := ulp_exponent q in
  let m := round_half_even (q * 2 ^ (- e)) in
  (q - 2 ^ (e - 1) <= inject_Z m * 2 ^ e)%Q
  ∧ (inject_Z m * 2 ^ e <= q + 2 ^ (e - 1))%Q.
Proof.
  intros Hq e m.
  destruct (round_half_even_spec (q * 2 ^ (- e))) as [H1 H2]. fold m in H1, H2.
  pose proof (pow2_pos e) as Hpe. pose proof (pow2_opp e) as Hopp.
  assert (2 * 2 ^ (e - 1) == 2 ^ e)%Q as Hhalf
    by (rewrite <- pow2_succ; f_equiv; lia).
  assert (q == (q * 2 ^ (- e)) * 2 ^ e)%Q as Hq'
    by (rewrite <- Qmult_assoc, Hopp; ring).
  set (r := (q * 2 ^ (- e))%Q) in *. set (a := (2 ^ e)%Q) in *.
  set (h := (2 ^ (e - 1))%Q) in *. clearbody r a h.
  split; nra.
Qed.

Lemma round_positive_Finite (q x : Q) :
  round_positive q = Finite x →
  (x == inject_Z (round_half_even (q * 2 ^ (- ulp_exponent q)))
        * 2 ^ ulp_exponent q)%Q
  ∧ (x < 2 ^ 1024)%Q.
Proof.
  unfold round_positive.
  destruct (Qle_bool _ _) eqn:Hle; [done |]. intros [= <-].
  split; [apply Qred_correct |].
  apply Qnot_le_lt. rewrite <- Qle_bool_iff. congruence.
Qed.

Lemma round_positive_Infinity (q : Q) :
  round_positive q ≠ NaN
  ∧ round_positive q ≠ Infinity true
  ∧ (round_positive q = Infinity false →
     (2 ^ 1024
      <= inject_Z (round_half_even (q * 2 ^ (- ulp_exponent q)))
         * 2 ^ ulp_exponent q)%Q).
Proof.
  unfold round_positive.
  destruct (Qle_bool _ _) eqn:Hle; repeat split; try done.
  intros _. apply Qle_bool_iff in Hle. by rewrite Qred_correct in Hle.
Qed.

Lemma Qlog2_compat (q r : Q) : (0 < q)%Q → (q == r)%Q → Qlog2 q = Qlog2 r.
Proof.
  intros Hq Hqr. destruct (Qlog2_spec q Hq) as [H1 H2].
  symmetry. apply Qlog2_unique; lra.
Qed.

Lemma round_half_even_compat (q r : Q) :
  (q == r)%Q → round_half_even q = round_half_even r.
Proof.
  intros Hqr. apply Z.le_antisymm; apply round_half_even_mono; lra.
Qed.

Lemma round_positive_compat (q r : Q) :
  (0 < q)%Q → (q == r)%Q → round_positive q = round_positive r.
Proof.
  intros Hq Hqr. unfold round_positive, ulp_exponent.
  rewrite <- (Qlog2_compat q r Hq Hqr).
  rewrite (round_half_even_compat (q * _) (r * 2 ^ (- Z.max (Qlog2 q - 52) (-1074))))
    by (apply Qmult_comp; [exact Hqr | reflexivity]).
  done.
Qed.

Lemma binary64_compat (q r : Q) : (q == r)%Q → binary64 q = binary64 r.
Proof.
  intros Hqr. unfold binary64.
  rewrite <- (Qcompare_comp q r Hqr 0%Q 0%Q (Qeq_refl 0%Q)).
  destruct (Qcompare_spec q 0) as [H | H | H]; [done | |].
  - f_equal. apply round_positive_compat; lra.
  - apply round_positive_compat; lra.
Qed.

Lemma binary64_pos (q : Q) : (0 < q)%Q → binary64 q = round_positive q.
Proof.
  intros Hq. unfold binary64.
  destruct (Qcompare_spec q 0) as [H | H | H]; [lra | lra | done].
Qed.

Lemma binary64_neg (q : Q) :
  (q < 0)%Q → binary64 q = js_neg (round_positive (- q)).
Proof.
  intros Hq. unfold binary64.
  destruct (Qcompare_spec q 0) as [H | H | H]; [lra | done | lra].
Qed.

Lemma binary64_zero (q : Q) : (q == 0)%Q → binary64 q = Finite 0.
Proof.
  intros Hq. unfold binary64.
  destruct (Qcompare_spec q 0) as [H | H | H]; [done | lra | lra].
Qed.

Lemma round_positive_rounded (q : Q) :
  round_positive q
  = if Qle_bool (2 ^ 1024) (Qred (rounded q)) then Infinity false
    else Finite (Qred (rounded q)).
Proof. done. Qed.

Lemma rounded_compat (q r : Q) :
  (0 < q)%Q → (q == r)%Q → rounded q = rounded r.
Proof.
  intros Hq Hqr. unfold rounded, ulp_exponent.
  rewrite <- (Qlog2_compat q r Hq Hqr).
  rewrite (round_half_even_compat (q * _) (r * 2 ^ (- Z.max (Qlog2 q - 52) (-1074))))
    by (apply Qmult_comp; [exact Hqr | reflexivity]).
  done.
Qed.

Lemma rounded_nonneg (q : Q) : (0 < q)%Q → (0 <= rounded q)%Q.
Proof.
  intros Hq. unfold rounded.
  destruct (significand_bounds q Hq) as [[Hm _] _].
  apply Qmult_le_0_compat; [| apply Qlt_le_weak, pow2_pos].
  by rewrite Zle_Qle in Hm.
Qed.

Lemma rounded_mono (v w : Q) :
  (0 < v)%Q → (v <= w)%Q → (rounded v <= rounded w)%Q.
Proof.
  intros Hv Hvw. assert (0 < w)%Q as Hw by lra.
  pose proof (ulp_exponent_mono v w Hv Hvw) as He.
  destruct (significand_bounds v Hv) as [[_ Hmv] _].
  destruct (significand_bounds w Hw) as [[Hmw0 _] Hmw].
  unfold rounded.
  set (ev := ulp_exponent v) in *. set (ew := ulp_exponent w) in *.
  set (mv := round_half_even (v * 2 ^ (- ev))) in *.
  set (mw := round_half_even (w * 2 ^ (- ew))) in *.
  destruct (decide (ev = ew)) as [Heq | Hne].
  - assert (mv ≤ mw) as Hm.
    { unfold mv, mw. rewrite Heq. apply round_half_even_mono.
      apply Qmult_le_compat_r; [done | apply Qlt_le_weak, pow2_pos]. }
    rewrite Heq. apply Qmult_le_compat_r; [| apply Qlt_le_weak, pow2_pos].
    by rewrite <- Zle_Qle.
  - assert (2 ^ 52 ≤ mw) as Hmw' by (apply Hmw; unfold ev, ulp_exponent in *; lia).
    apply Qle_trans with (inject_Z (2 ^ 53) * 2 ^ ev)%Q.
    { apply Qmult_le_compat_r; [| apply Qlt_le_weak, pow2_pos].
      by rewrite <- Zle_Qle. }
    apply Qle_trans with (inject_Z (2 ^ 52) * 2 ^ ew)%Q.
    { rewrite !pow2_inject by lia. rewrite <- !pow2_add. apply pow2_le. lia. }
    apply Qmult_le_compat_r; [| apply Qlt_le_weak, pow2_pos].
    by rewrite <- Zle_Qle.
Qed.

Lemma round_positive_mono (v w : Q) :
  (0 < v)%Q → (v <= w)%Q →
  js_le (round_positive v) (round_positive w) = true.
Proof.
  intros Hv Hvw. pose proof (rounded_mono v w Hv Hvw) as Hr.
  rewrite !round_positive_rounded.
  destruct (Qle_bool (2 ^ 1024) (Qred (rounded v))) eqn:H1;
    destruct (Qle_bool (2 ^ 1024) (Qred (rounded w))) eqn:H2; simpl; try done.
  - apply Qle_bool_iff in H1. rewrite Qred_correct in H1.
    assert (2 ^ 1024 <= Qred (rounded w))%Q as H3
      by (rewrite Qred_correct; lra).
    apply Qle_bool_iff in H3. congruence.
  - apply bool_decide_eq_true. by rewrite !Qred_correct.
Qed.

Lemma round_positive_sign (q : Q) :
  (0 < q)%Q → js_le (Finite 0) (round_positive q) = true.
Proof.
  intros Hq. rewrite round_positive_rounded.
  destruct (Qle_bool _ _); simpl; [done |].
  apply bool_decide_eq_true. rewrite Qred_correct. by apply rounded_nonneg.
Qed.

Lemma js_le_neg (x y : number) : js_le (js_neg x) (js_neg y) = js_le y x.
Proof.
  destruct x as [| [] | v], y as [| [] | w]; simpl; try done.
  apply bool_decide_ext. rewrite !Qred_correct. split; intros; lra.
Qed.

Lemma js_le_trans (x y z : number) :
  js_le x y = true → js_le y z = true → js_le x z = true.
Proof.
  destruct x as [| [] | v], y as [| [] | w], z as [| [] | u]; simpl; try done.
  rewrite !bool_decide_eq_true. intros. lra.
Qed.

(** Rounding to binary64 is monotone. *)
Lemma binary64_mono (v w : Q) :
  (v <= w)%Q → js_le (binary64 v) (binary64 w) = true.
Proof.
  intros Hvw.
  destruct (Qcompare_spec v 0) as [Hv | Hv | Hv];
    destruct (Qcompare_spec w 0) as [Hw | Hw | Hw]; try lra.
  - rewrite (binary64_zero v), (binary64_zero w) by done. done.
  - rewrite (binary64_zero v), (binary64_pos w) by done.
    by apply round_positive_sign.
  - rewrite (binary64_neg v), (binary64_zero w) by done.
    change (Finite 0) with (js_neg (Finite 0)). rewrite js_le_neg.
    apply round_positive_sign. lra.
  - rewrite (binary64_neg v), (binary64_neg w) by done. rewrite js_le_neg.
    apply round_positive_mono; lra.
  - rewrite (binary64_neg v), (binary64_pos w) by done.
    apply js_le_trans with (Finite 0); [| by apply round_positive_sign].
    change (Finite 0) with (js_neg (Finite 0)). rewrite js_le_neg.
    apply round_positive_sign. lra.
  - rewrite (binary64_pos v), (binary64_pos w) by done.
    by apply round_positive_mono.
Qed.

Lemma unit_roundoff_pow2 : (2 ^ (-53) == unit_roundoff)%Q.
Proof. reflexivity. Qed.

(** In the normal range the relative error of rounding is at most the
    unit roundoff. *)
Lemma rounded_relative (q : Q) :
  (2 ^ (-1022) <= q)%Q →
  (q * (1 - unit_roundoff) <= rounded q)%Q
  ∧ (rounded q <= q * (1 + unit_roundoff))%Q.
Proof.
  intros Hq. pose proof (pow2_pos (-1022)) as Hp.
  assert (0 < q)%Q as Hq0 by lra.
  destruct (Qlog2_spec q Hq0) as [H1 H2].
  assert (-1022 ≤ Qlog2 q) as HL.
  { assert (-1022 < Qlog2 q + 1); [| lia]. apply pow2_lt_inv. lra. }
  destruct (round_positive_error q Hq0) as [H3 H4]. fold (rounded q) in H3, H4.
  assert (ulp_exponent q - 1 = Qlog2 q + -53) as He
    by (unfold ulp_exponent; lia).
  rewrite He, pow2_add, unit_roundoff_pow2 in H3, H4.
  set (a := (2 ^ Qlog2 q)%Q) in *. clearbody a.
  assert (0 < unit_roundoff)%Q as Hu by done.
  set (u := unit_roundoff) in *. clearbody u.
  assert (a * u <= q * u)%Q by (apply Qmult_le_compat_r; lra).
  split; lra.
Qed.

Lemma binary64_relative (q : Q) :
  (2 ^ (-1022) <= q)%Q → (q < 2 ^ 1023)%Q →
  ∃ x, binary64 q = Finite x
       ∧ (q * (1 - unit_roundoff) <= x)%Q
       ∧ (x <= q * (1 + unit_roundoff))%Q.
Proof.
  intros Hq Hq'. pose proof (pow2_pos (-1022)) as Hp.
  destruct (rounded_relative q Hq) as [H1 H2].
  rewrite binary64_pos by lra. rewrite round_positive_rounded.
  assert (rounded q < 2 ^ 1024)%Q as Hlt.
  { assert (2 ^ 1024 == 2 * 2 ^ 1023)%Q as -> by (by rewrite <- pow2_succ).
    assert (unit_roundoff < 1)%Q as Hu by done.
    set (u := unit_roundoff) in *. clearbody u.
    set (b := (2 ^ 1023)%Q) in *. clearbody b.
    assert (q * u <= q * 1)%Q by (apply Qmult_le_l; lra). lra. }
  destruct (Qle_bool _ _) eqn:Hle.
  { apply Qle_bool_iff in Hle. rewrite Qred_correct in Hle. lra. }
  eexists. split; [done |]. by rewrite Qred_correct.
Qed.

(** ** Numbers are fixed points of the rounding *)

Lemma Qred_idemp (q : Q) : Qred (Qred q) = Qred q.
Proof. apply Qred_complete, Qred_correct. Qed.

Lemma round_positive_canonical (q : Q) : canonical (round_positive q).
Proof.
  rewrite round_positive_rounded. destruct (Qle_bool _ _); simpl; [done |].
  apply Qred_idemp.
Qed.

Lemma binary64_canonical (q : Q) : canonical (binary64 q).
Proof.
  unfold binary64. destruct (q ?= 0)%Q; [done | |].
  - pose proof (round_positive_canonical (- q)) as H.
    destruct (round_positive (- q)); simpl; [done | done | apply Qred_idemp].
  - apply round_positive_canonical.
Qed.

Lemma rounded_fixed (m e : Z) :
  0 < m ≤ 2 ^ 53 → -1074 ≤ e → (-1074 < e → 2 ^ 52 ≤ m) →
  (rounded (inject_Z m * 2 ^ e) == inject_Z m * 2 ^ e)%Q.
Proof.
  intros Hm He Hn. set (x := (inject_Z m * 2 ^ e)%Q).
  pose proof (pow2_pos e) as Hpe.
  assert (0 < inject_Z m)%Q as Hm0 by (rewrite <- (Zlt_Qlt 0); lia).
  destruct (Z.log2_spec m) as [Hl1 Hl2]; [lia |].
  pose proof (Z.log2_nonneg m) as Hl0.
  assert (Qlog2 x = Z.log2 m + e) as HL.
  { apply Qlog2_unique; unfold x.
    - rewrite pow2_add. apply Qmult_le_compat_r; [| lra].
      rewrite <- pow2_inject by lia. by rewrite <- Zle_Qle.
    - replace (Z.log2 m + e + 1) with (Z.succ (Z.log2 m) + e) by lia.
      rewrite pow2_add. apply Qmult_lt_compat_r; [done |].
      rewrite <- pow2_inject by lia. by rewrite <- Zlt_Qlt. }
  destruct (decide (m = 2 ^ 53)) as [-> | Hne].
  - assert (Z.log2 (2 ^ 53) = 53) as Hl by (by rewrite Z.log2_pow2).
    unfold rounded, ulp_exponent. fold x. rewrite HL, Hl.
    replace (Z.max (53 + e - 52) (-1074)) with (1 + e) by lia.
    rewrite (round_half_even_Z _ (2 ^ 52)).
    + unfold x. rewrite !pow2_inject by lia. rewrite <- !pow2_add.
      f_equiv. lia.
    + unfold x. rewrite !pow2_inject by lia.
      rewrite <- Qmult_assoc, <- !pow2_add. f_equiv. lia.
  - assert (Z.log2 m < 53) as Hl53.
    { apply Z.log2_lt_pow2; lia. }
    assert (Z.max (Z.log2 m + e - 52) (-1074) = e) as Hmax.
    { destruct (decide (e = -1074)) as [-> | He']; [lia |].
      assert (52 ≤ Z.log2 m); [| lia].
      apply Z.log2_le_pow2; [lia |]. apply Hn. lia. }
    unfold rounded, ulp_exponent. fold x. rewrite HL, Hmax.
    rewrite (round_half_even_Z _ m); [done |].
    unfold x. rewrite <- Qmult_assoc.
    assert (2 ^ e * 2 ^ (- e) == 1)%Q as ->
      by (rewrite Qmult_comm; apply pow2_opp).
    ring.
Qed.

Lemma rounded_idemp (q : Q) :
  (0 < q)%Q → (0 < rounded q)%Q → (rounded (rounded q) == rounded q)%Q.
Proof.
  intros Hq Hr. destruct (significand_bounds q Hq) as [[Hm0 Hm] Hn].
  unfold rounded at 2 3.
  apply rounded_fixed; [| unfold ulp_exponent; lia | done].
  split; [| done].
  destruct (decide (round_half_even (q * 2 ^ (- ulp_exponent q)) = 0))
    as [Hz | Hnz]; [| lia].
  unfold rounded in Hr. rewrite Hz in Hr. change (inject_Z 0) with 0%Q in Hr.
  rewrite Qmult_0_l in Hr. lra.
Qed.

Lemma round_positive_idemp (q x : Q) :
  (0 < q)%Q → round_positive q = Finite x → (0 < x)%Q →
  round_positive x = Finite x.
Proof.
  intros Hq Hx Hx0. rewrite round_positive_rounded in Hx.
  destruct (Qle_bool _ _) eqn:Hle; [done |]. injection Hx as <-.
  rewrite Qred_correct in Hx0.
  rewrite (round_positive_compat _ (rounded q)) by (by rewrite ?Qred_correct).
  rewrite round_positive_rounded.
  rewrite (Qred_complete _ _ (rounded_idemp q Hq Hx0)).
  by rewrite Hle.
Qed.

(** Rounding leaves a binary64 number as it is. *)
Lemma binary64_idemp (q x : Q) : binary64 q = Finite x → binary64 x = Finite x.
Proof.
  intros Hx. pose proof (binary64_canonical q) as Hc. rewrite Hx in Hc.
  simpl in Hc.
  destruct (Qcompare_spec x 0) as [Hz | Hn | Hp].
  - rewrite binary64_zero by done. f_equal.
    rewrite <- Hc. by apply (Qred_complete 0 x).
  - destruct (Qcompare_spec q 0) as [Hq | Hq | Hq].
    + rewrite binary64_zero in Hx by done. injection Hx as <-. lra.
    + rewrite binary64_neg in Hx by done. rewrite binary64_neg by done.
      destruct (round_positive (- q)) as [| s | y] eqn:Hy; try done.
      injection Hx as <-. rewrite Qred_correct in Hn.
      rewrite (round_positive_compat _ y) by (rewrite ?Qred_correct; lra).
      rewrite (round_positive_idemp (- q) y) by (done || lra). done.
    + rewrite binary64_pos in Hx by done.
      pose proof (round_positive_sign q Hq) as Hs. rewrite Hx in Hs.
      simpl in Hs. apply bool_decide_eq_true in Hs. lra.
  - destruct (Qcompare_spec q 0) as [Hq | Hq | Hq].
    + rewrite binary64_zero in Hx by done. injection Hx as <-. lra.
    + rewrite binary64_neg in Hx by done.
      pose proof (round_positive_sign (- q)) as Hs.
      destruct (round_positive (- q)) as [| s | y] eqn:Hy; try done.
      injection Hx as <-. rewrite Qred_correct in Hp.
      simpl in Hs. rewrite bool_decide_eq_true in Hs.
      assert (0 <= y)%Q by (apply Hs; lra). lra.
    + rewrite binary64_pos in Hx by done. rewrite binary64_pos by done.
      by apply (round_positive_idemp q).
Qed.

(** ** The decimal a number is written as *)

Lemma rounds_to_spec (x v : Q) :
  Qred x = x → rounds_to x v = true → binary64 v = Finite x.
Proof.
  intros Hx. unfold rounds_to.
  pose proof (binary64_canonical v) as Hc.
  destruct (binary64 v) as [| s | y]; try done. simpl in Hc.
  intros Hy%Qeq_bool_iff. f_equal. rewrite <- Hc, <- Hx.
  by apply Qred_complete.
Qed.

Lemma decimal_pos (m e : Z) : 0 < m → (0 < decimal m e)%Q.
Proof.
  intros Hm. unfold decimal. apply Qmult_lt_0_compat.
  - by rewrite <- (Zlt_Qlt 0).
  - by apply Qpower_0_lt.
Qed.

Lemma shortest_S (fuel : nat) (j : Z) (x : Q) :
  shortest (S fuel) j x
  = let s := Qfloor (x * 10 ^ (- j)) in
    let lo := decimal s j in
    let hi := decimal (s + 1) j in
    let ok_lo := bool_decide (0 < s) && rounds_to x lo in
    let ok_hi := rounds_to x hi in
    if ok_lo && ok_hi then
      match (x - lo ?= hi - x)%Q with
      | Lt => lo
      | Gt => hi
      | Eq => if Z.even s then lo else hi
      end
    else if ok_lo then lo
    else if ok_hi then hi
    else shortest fuel (j - 1) x.
Proof. done. Qed.

Lemma shortest_rounds (fuel : nat) (j : Z) (x : Q) :
  binary64 x = Finite x → (0 < x)%Q →
  binary64 (shortest fuel j x) = Finite x ∧ (0 < shortest fuel j x)%Q.
Proof.
  intros Hx Hx0.
  assert (Qred x = x) as Hc
    by (pose proof (binary64_canonical x) as H; by rewrite Hx in H).
  revert j. induction fuel as [| fuel IH]; intros j; [done |].
  rewrite shortest_S. cbv zeta.
  set (s := Qfloor (x * 10 ^ (- j))).
  assert (0 ≤ s) as Hs.
  { assert (0 <= x * 10 ^ (- j))%Q as H0.
    { apply Qmult_le_0_compat; [lra |]. by apply Qpower_0_le. }
    apply Qfloor_resp_le in H0. by change (Qfloor 0) with 0 in H0. }
  assert (0 < decimal (s + 1) j)%Q as Hhi by (apply decimal_pos; lia).
  destruct (bool_decide (0 < s) && rounds_to x (decimal s j)) eqn:Hlo;
    destruct (rounds_to x (decimal (s + 1) j)) eqn:Hhi'; cbn [andb].
  - apply andb_true_iff in Hlo as [Hs'%bool_decide_eq_true Hlo].
    pose proof (decimal_pos s j Hs').
    destruct (_ ?= _)%Q; [destruct (Z.even s) | |];
      split; try done; by apply rounds_to_spec.
  - apply andb_true_iff in Hlo as [Hs'%bool_decide_eq_true Hlo].
    split; [by apply rounds_to_spec | by apply decimal_pos].
  - split; [by apply rounds_to_spec | done].
  - apply IH.
Qed.

(** The decimal a positive number is written as converts back to the
    number. *)
Lemma to_decimal_rounds (x : Q) :
  binary64 x = Finite x → (0 < x)%Q →
  binary64 (to_decimal x) = Finite x ∧ (0 < to_decimal x)%Q.
Proof.
  intros Hx Hx0. unfold to_decimal.
  destruct (Qcompare_spec x 0) as [H | H | H]; [lra | lra |].
  set (d := shortest _ _ x).
  destruct (shortest_rounds
              (Z.to_nat (digits (Qfloor x + 1) + Z.log2 (Z.pos (Qden x)) + 2))
              (digits (Qfloor x + 1)) x Hx Hx0) as [H1 H2].
  fold d in H1, H2. split.
  - rewrite <- H1. apply binary64_compat, Qred_correct.
  - by rewrite Qred_correct.
Qed.

(** ** Cents *)

Lemma Qfloor_unique (r : Q) (z : Z) :
  (inject_Z z <= r)%Q → (r < inject_Z z + 1)%Q → Qfloor r = z.
Proof.
  intros H1 H2. pose proof (Qfloor_le r) as H3. pose proof (Qlt_floor r) as H4.
  rewrite inject_Z_plus in H4. change (inject_Z 1) with 1%Q in H4.
  assert (inject_Z (Qfloor r) < inject_Z (z + 1))%Q as H5
    by (rewrite inject_Z_plus; change (inject_Z 1) with 1%Q; lra).
  assert (inject_Z z < inject_Z (Qfloor r + 1))%Q as H6
    by (rewrite inject_Z_plus; change (inject_Z 1) with 1%Q; lra).
  rewrite <- Zlt_Qlt in H5, H6. lia.
Qed.

(** A value within half a cent of a whole number of cents is stored as
    that number. *)
Lemma round_cents_near (v : Q) (z : Z) :
  (inject_Z z - (1 # 2) < v * 100)%Q → (v * 100 < inject_Z z + (1 # 2))%Q →
  round_cents v = z.
Proof.
  intros H1 H2. unfold round_cents.
  destruct (Qle_bool 0 (v * 100)) eqn:Hs.
  - apply Qfloor_unique; lra.
  - assert (Qfloor (- (v * 100) + (1 # 2)) = - z); [| lia].
    apply Qfloor_unique; rewrite inject_Z_opp; lra.
Qed.

Lemma round_cents_Z (z : Z) : round_cents (inject_Z z / 100) = z.
Proof.
  apply round_cents_near;
    (assert (inject_Z z / 100 * 100 == inject_Z z)%Q as -> by (field; done));
    lra.
Qed.

Lemma cents_normal (c : Z) :
  0 < c ≤ 10 ^ 15 →
  (2 ^ (-1022) <= inject_Z c / 100)%Q ∧ (inject_Z c / 100 < 2 ^ 1023)%Q.
Proof.
  intros [Hc1 Hc2].
  assert (inject_Z 1 <= inject_Z c)%Q as H1 by (rewrite <- Zle_Qle; lia).
  change (inject_Z 1) with 1%Q in H1.
  assert (inject_Z c <= inject_Z (10 ^ 15))%Q as H2 by (by rewrite <- Zle_Qle).
  change (inject_Z (10 ^ 15)) with (1000000000000000 # 1)%Q in H2.
  assert (2 ^ (-1022) <= 2 ^ (-7))%Q as H3 by (by apply pow2_le).
  assert (2 ^ (-7) == 1 # 128)%Q as H4 by reflexivity.
  assert (2 ^ 50 <= 2 ^ 1023)%Q as H5 by (by apply pow2_le).
  assert (2 ^ 50 == 1125899906842624 # 1)%Q as H6 by reflexivity.
  split.
  - apply Qle_shift_div_l; lra.
  - apply Qlt_shift_div_r; lra.
Qed.

(** The number [parseFloat] makes of a stored amount is within the unit
    roundoff of the amount. *)
Lemma parseFloat_relative (c : Z) :
  0 < c ≤ 10 ^ 15 →
  ∃ p, parseFloat c = Finite p
       ∧ (inject_Z c / 100 * (1 - unit_roundoff) <= p)%Q
       ∧ (p <= inject_Z c / 100 * (1 + unit_roundoff))%Q.
Proof.
  intros Hc. destruct (cents_normal c Hc) as [H1 H2].
  by apply binary64_relative.
Qed.

Lemma Qred_inject_Z (z : Z) : Qred (inject_Z z) = inject_Z z.
Proof.
  unfold Qred, inject_Z.
  pose proof (Z.ggcd_gcd z 1) as Hg.
  pose proof (Z.ggcd_correct_divisors z 1) as Hd.
  destruct (Z.ggcd z 1) as [g [a b]]. simpl in *.
  rewrite Z.gcd_1_r in Hg. subst g. destruct Hd as [Ha Hb].
  replace a with z by lia. by replace b with 1 by lia.
Qed.

(** An integer of at most 53 bits is a number. *)
Lemma number_of_Z_exact (q : Z) :
  0 < q ≤ 2 ^ 53 → number_of_Z q = Finite (inject_Z q).
Proof.
  intros Hq. unfold number_of_Z.
  assert (inject_Z 0 < inject_Z q)%Q as Hq0 by (rewrite <- Zlt_Qlt; lia).
  change (inject_Z 0) with 0%Q in Hq0.
  rewrite binary64_pos by done. rewrite round_positive_rounded.
  assert (rounded (inject_Z q) == inject_Z q)%Q as Hr.
  { destruct (decide (q = 2 ^ 53)) as [-> | Hne].
    { assert (inject_Z (2 ^ 53) == inject_Z (2 ^ 53) * 2 ^ 0)%Q as Hq'
        by (simpl; ring).
      assert (rounded (inject_Z (2 ^ 53))
              = rounded (inject_Z (2 ^ 53) * 2 ^ 0)) as Hrr
        by (by apply rounded_compat).
      rewrite Hrr. etrans; [apply rounded_fixed; lia | by symmetry]. }
    destruct (Z.log2_spec q) as [Hl1 Hl2]; [lia |].
    pose proof (Z.log2_nonneg q) as Hl0.
    assert (Z.log2 q < 53) as Hl53 by (apply Z.log2_lt_pow2; lia).
    set (k := 52 - Z.log2 q).
    assert (inject_Z q == inject_Z (q * 2 ^ k) * 2 ^ (- k))%Q as Hq'.
    { rewrite inject_Z_mult, pow2_inject by (unfold k; lia).
      rewrite <- Qmult_assoc.
      assert (2 ^ k * 2 ^ (- k) == 1)%Q as ->
        by (rewrite Qmult_comm; apply pow2_opp).
      ring. }
    assert (rounded (inject_Z q) = rounded (inject_Z (q * 2 ^ k) * 2 ^ (- k)))
      as Hrr by (by apply rounded_compat).
    rewrite Hrr.
    assert (2 ^ Z.log2 q * 2 ^ k = 2 ^ 52) as Hp
      by (rewrite <- Z.pow_add_r by (unfold k; lia); f_equal; unfold k; lia).
    assert (2 ^ Z.succ (Z.log2 q) = 2 * 2 ^ Z.log2 q) as Hs
      by (by rewrite Z.pow_succ_r).
    assert (0 < 2 ^ k) by (apply Z.pow_pos_nonneg; unfold k; lia).
    etrans; [| by symmetry].
    apply rounded_fixed; [nia | unfold k; lia | intros _; nia]. }
  rewrite (Qred_complete _ _ Hr), Qred_inject_Z.
  destruct (Qle_bool _ _) eqn:Hle; [| done].
  apply Qle_bool_iff in Hle.
  assert (inject_Z q <= inject_Z (2 ^ 53))%Q as H1 by (rewrite <- Zle_Qle; lia).
  rewrite pow2_inject in H1 by lia.
  assert (2 ^ 53 < 2 ^ 1024)%Q by (by apply pow2_lt). lra.
Qed.

(** From a decimal back to the number: the decimal is within the unit
    roundoff of a number in the normal range that it converts to. *)
Lemma decimal_near (d x : Q) :
  binary64 d = Finite x → (0 < d)%Q → (1 # 200 <= x)%Q →
  (d * (1 - unit_roundoff) <= x)%Q ∧ (x <= d * (1 + unit_roundoff))%Q.
Proof.
  intros Hd Hd0 Hx.
  destruct (Qlt_le_dec d (2 ^ (-1022))) as [Hsmall | Hn].
  - pose proof (binary64_mono d (2 ^ (-1022))) as Hm.
    rewrite Hd in Hm.
    assert (binary64 (2 ^ (-1022)) = Finite (2 ^ (-1022))) as Hb
      by (vm_compute; reflexivity).
    assert (2 ^ (-1022) <= 2 ^ (-8))%Q as H3 by (by apply pow2_le).
    assert (2 ^ (-8) == 1 # 256)%Q as H4 by reflexivity.
    set (t := (2 ^ (-1022))%Q) in *. clearbody t.
    rewrite Hb in Hm. unfold js_le in Hm. rewrite bool_decide_eq_true in Hm.
    assert (x <= t)%Q by (apply Hm; lra). lra.
  - destruct (rounded_relative d Hn) as [H1 H2].
    rewrite binary64_pos, round_positive_rounded in Hd by done.
    destruct (Qle_bool _ _); [done |]. injection Hd as <-.
    by rewrite Qred_correct.
Qed.

(** What the statements receive for [price * quantity], for a price of
    [c] cents: the decimal written for the product of the two numbers is
    within half a cent of [c * q] cents as long as that is at most
    10^15. *)
Lemma amount_near (c q : Z) :
  0 < c → 0 < q → c * q ≤ 10 ^ 15 →
  ∃ A, js_mul (parseFloat c) (number_of_Z q) = Finite A
       ∧ (0 < A)%Q
       ∧ (inject_Z (c * q) - (1 # 2) < to_decimal A * 100)%Q
       ∧ (to_decimal A * 100 < inject_Z (c * q) + (1 # 2))%Q.
Proof.
  intros Hc Hq HK.
  assert (c ≤ 10 ^ 15 ∧ q ≤ 10 ^ 15) as [Hc' Hq'] by nia.
  destruct (parseFloat_relative c) as (p & Hp & Hp1 & Hp2); [lia |].
  rewrite Hp, number_of_Z_exact by lia. simpl.
  assert (inject_Z 1 <= inject_Z c)%Q as Hc1 by (rewrite <- Zle_Qle; lia).
  assert (inject_Z 1 <= inject_Z q)%Q as Hq1 by (rewrite <- Zle_Qle; lia).
  assert (inject_Z (c * q) <= inject_Z (10 ^ 15))%Q as HK'
    by (by rewrite <- Zle_Qle).
  change (inject_Z 1) with 1%Q in *.
  change (inject_Z (10 ^ 15)) with (1000000000000000 # 1)%Q in HK'.
  rewrite inject_Z_mult in *.
  unfold Qdiv in Hp1, Hp2. change (/ 100)%Q with (1 # 100)%Q in Hp1, Hp2.
  set (cq := inject_Z c) in *. set (qq := inject_Z q) in *.
  clearbody cq qq.
  assert (unit_roundoff == 1 # 9007199254740992)%Q as Hu by reflexivity.
  set (u := unit_roundoff) in *. clearbody u.
  assert (cq * (1 # 100) * (1 - u) * qq <= p * qq)%Q as Hpq1
    by (apply Qmult_le_compat_r; lra).
  assert (p * qq <= cq * (1 # 100) * (1 + u) * qq)%Q as Hpq2
    by (apply Qmult_le_compat_r; lra).
  assert (cq * (1 # 100) * (1 - u) * qq
          == (1 # 100) * (cq * qq) - (1 # 100) * (cq * qq * u))%Q as E1 by ring.
  assert (cq * (1 # 100) * (1 + u) * qq
          == (1 # 100) * (cq * qq) + (1 # 100) * (cq * qq * u))%Q as E2 by ring.
  rewrite E1 in Hpq1. rewrite E2 in Hpq2. clear E1 E2.
  assert (1 <= cq * qq)%Q as Hk1.
  { assert (1 * 1 <= cq * qq)%Q; [| lra].
    apply Qmult_le_compat_nonneg; split; lra. }
  set (k := (cq * qq)%Q) in *. set (pq := (p * qq)%Q) in *.
  assert (0 <= k * u)%Q as Hku0 by (apply Qmult_le_0_compat; lra).
  assert (k * u <= 1000000000000000 * u)%Q as Hku
    by (apply Qmult_le_compat_r; lra).
  set (ku := (k * u)%Q) in *. clearbody ku pq k.
  assert (2 ^ (-1022) <= 2 ^ (-8))%Q as H3 by (by apply pow2_le).
  assert (2 ^ (-8) == 1 # 256)%Q as H4 by reflexivity.
  assert (2 ^ 60 <= 2 ^ 1023)%Q as H5 by (by apply pow2_le).
  assert (2 ^ 60 == 1152921504606846976 # 1)%Q as H6 by reflexivity.
  set (t := (2 ^ (-1022))%Q) in *. set (T := (2 ^ 1023)%Q) in *.
  set (t8 := (2 ^ (-8))%Q) in *. set (T60 := (2 ^ 60)%Q) in *.
  clearbody t8 T60.
  destruct (binary64_relative pq) as (A & HA & HA1 & HA2);
    [fold t; clearbody t T; lra | fold T; clearbody t T; lra |].
  clearbody t T.
  exists A. split; [done |].
  assert (pq * (1 - unit_roundoff) == pq - pq * unit_roundoff)%Q as E1 by ring.
  assert (pq * (1 + unit_roundoff) == pq + pq * unit_roundoff)%Q as E2 by ring.
  rewrite E1 in HA1. rewrite E2 in HA2. clear E1 E2.
  assert (unit_roundoff == 1 # 9007199254740992)%Q as Hu' by reflexivity.
  set (u' := unit_roundoff) in *. clearbody u'.
  assert (0 <= pq * u')%Q as Hpu0 by (apply Qmult_le_0_compat; lra).
  assert (pq * u' <= ((1 # 100) * k + (1 # 100) * ku) * u')%Q as Hpu
    by (apply Qmult_le_compat_r; lra).
  assert (((1 # 100) * k + (1 # 100) * ku) * u'
          == (1 # 100) * (k * u') + (1 # 100) * (ku * u'))%Q as E3 by ring.
  rewrite E3 in Hpu. clear E3.
  assert (k * u' <= 1000000000000000 * u')%Q as Hku'
    by (apply Qmult_le_compat_r; lra).
  assert (ku * u' <= 1 * u')%Q as Hkuu
    by (apply Qmult_le_compat_r; lra).
  set (pu := (pq * u')%Q) in *. set (ku' := (k * u')%Q) in *.
  set (kuu := (ku * u')%Q) in *. clearbody pu ku' kuu.
  assert (0 < A)%Q as HA0 by lra.
  split; [done |].
  pose proof (binary64_idemp _ _ HA) as HAA.
  destruct (to_decimal_rounds A HAA HA0) as [HD HD0].
  destruct (decimal_near _ _ HD HD0) as [HD1 HD2]; [lra |].
  set (D := to_decimal A) in *. clearbody D.
  assert (D * (1 - unit_roundoff) == D - D * (1 # 9007199254740992))%Q as E1
    by (unfold unit_roundoff; ring).
  assert (D * (1 + unit_roundoff) == D + D * (1 # 9007199254740992))%Q as E2
    by (unfold unit_roundoff; ring).
  rewrite E1 in HD1. rewrite E2 in HD2. clear E1 E2.
  split; lra.
Qed.

(** ** The statements leave the other tables alone *)

Lemma users_credit_cash uid amount st k :
  is_Some (users (credit_cash uid amount st) !! k) ↔ is_Some (users st !! k).
Proof.
  unfold credit_cash; simpl. rewrite lookup_alter.
  case_decide; subst; [|done]. by rewrite fmap_is_Some.
Qed.

Lemma insert_trade_Some t st st' :
  insert_trade t st = Some st' →
  st' = mk_db (users st) (symbols st) (positions st) (orders st)
              (trades st ++ [t]) (orders_auto_increment st).
Proof. unfold insert_trade. case_bool_decide; congruence. Qed.

Lemma insert_trade_exists t st :
  is_Some (users st !! trd_buy_user_id t) →
  is_Some (users st !! trd_sell_user_id t) →
  insert_trade t st
  = Some (mk_db (users st) (symbols st) (positions st) (orders st)
                (trades st ++ [t]) (orders_auto_increment st)).
Proof. intros. unfold insert_trade. by rewrite bool_decide_eq_true_2. Qed.

(** ** The book queries *)

#[global] Instance priority_total sd : Total (priority sd).
Proof. intros o1 o2. destruct sd; unfold priority; lia. Qed.

#[global] Instance priority_transitive sd : Transitive (priority sd).
Proof. intros o1 o2 o3. destruct sd; unfold priority; lia. Qed.

Lemma elem_of_open_orders st sid sd o :
  o ∈ open_orders st sid sd
  ↔ o ∈ orders st ∧ ord_symbol_id o = sid ∧ ord_side o = sd
    ∧ ord_status o = OPEN.
Proof. unfold open_orders. rewrite list_elem_of_filter. tauto. Qed.

Lemma elem_of_book_orders st sid sd bound o :
  o ∈ book_orders st sid sd bound
  ↔ o ∈ orders st ∧ ord_symbol_id o = sid ∧ ord_side o = opposite sd
    ∧ ord_status o = OPEN ∧ crosses sd bound o.
Proof.
  unfold book_orders. rewrite merge_sort_Permutation.
  rewrite list_elem_of_filter, elem_of_open_orders. tauto.
Qed.

Lemma book_orders_sorted st sid sd bound :
  StronglySorted (priority sd) (book_orders st sid sd bound).
Proof. apply StronglySorted_merge_sort; apply _. Qed.

(** In a list sorted by priority, of two rows at one price the one with
    the smaller id comes first. *)
Lemma sorted_tie_break sd (l : list order) o1 o2 :
  StronglySorted (priority sd) l →
  o1 ∈ l → o2 ∈ l →
  ord_price o1 = ord_price o2 → ord_id o1 < ord_id o2 →
  ∃ l1 l2 l3, l = l1 ++ o1 :: l2 ++ o2 :: l3.
Proof.
  intros Hs H1 H2 Hp Hid.
  destruct (list_elem_of_split _ _ H1) as (l1 & l' & ->).
  apply elem_of_app in H2 as [H2 | H2].
  - exfalso.
    assert (priority sd o2 o1) as Hpr.
    { eapply StronglySorted_app_1_elem_of; [exact Hs | exact H2 | left]. }
    destruct sd; unfold priority in Hpr; lia.
  - apply elem_of_cons in H2 as [-> | H2]; [lia |].
    destruct (list_elem_of_split _ _ H2) as (l2 & l3 & ->).
    by exists l1, l2, l3.
Qed.

(** [MIN(price)] is the least price of the rows, [MAX(price)] the greatest. *)
Lemma min_price_None l : min_price l = None ↔ l = [].
Proof. destruct l; simpl; split; congruence. Qed.

Lemma max_price_None l : max_price l = None ↔ l = [].
Proof. destruct l; simpl; split; congruence. Qed.

Lemma min_price_Some l a :
  min_price l = Some a →
  (∃ o, o ∈ l ∧ ord_price o = a) ∧ ∀ o, o ∈ l → a ≤ ord_price o.
Proof.
  revert a. induction l as [|x l IH]; intros a; simpl; [done |].
  destruct (min_price l) as [m|] eqn:Hm; intros [= <-].
  - destruct (IH m eq_refl) as [(o & Ho & Hpo) Hle]. split.
    + destruct (Z.min_spec (ord_price x) m) as [[_ ->] | [_ ->]].
      * exists x. split; [left | done].
      * exists o. split; [by right | done].
    + intros o' [-> | Ho']%elem_of_cons; [lia |].
      specialize (Hle _ Ho'). lia.
  - apply min_price_None in Hm as ->. split.
    + exists x. split; [left | done].
    + intros o' [-> | Ho']%elem_of_cons; [lia | by apply elem_of_nil in Ho'].
Qed.

Lemma max_price_Some l b :
  max_price l = Some b →
  (∃ o, o ∈ l ∧ ord_price o = b) ∧ ∀ o, o ∈ l → ord_price o ≤ b.
Proof.
  revert b. induction l as [|x l IH]; intros b; simpl; [done |].
  destruct (max_price l) as [m|] eqn:Hm; intros [= <-].
  - destruct (IH m eq_refl) as [(o & Ho & Hpo) Hle]. split.
    + destruct (Z.max_spec (ord_price x) m) as [[_ ->] | [_ ->]].
      * exists o. split; [by right | done].
      * exists x. split; [left | done].
    + intros o' [-> | Ho']%elem_of_cons; [lia |].
      specialize (Hle _ Ho'). lia.
  - apply max_price_None in Hm as ->. split.
    + exists x. split; [left | done].
    + intros o' [-> | Ho']%elem_of_cons; [lia | by apply elem_of_nil in Ho'].
Qed.

(** ** The loops against the matcher *)

Lemma matcher_done cash l : matcher cash 0 l = [].
Proof. by destruct l. Qed.

Lemma filled_nil : filled [] = 0.
Proof. done. Qed.

Lemma cost_nil : cost [] = 0.
Proof. done. Qed.

Lemma filled_cons m ms : filled (m :: ms) = m.2 + filled ms.
Proof. done. Qed.

Lemma cost_cons m ms : cost (m :: ms) = ord_price m.1 * m.2 + cost ms.
Proof. done. Qed.

Lemma loop_agrees_nil row st r acc : loop_agrees row st r acc [] (st, r, acc).
Proof.
  unfold loop_agrees, filled; simpl. rewrite !app_nil_r. repeat split; lia.
Qed.

Lemma loop_agrees_step row st st1 r acc m ms res :
  trades st1 = trades st ++ [row m] →
  loop_agrees row st1 (r - m.2) (acc ++ [fill_of m]) ms res →
  loop_agrees row st r acc (m :: ms) res.
Proof.
  unfold loop_agrees. intros Ht (Hf & Htr & Hr).
  rewrite Hf, Htr, Ht, Hr, filled_cons, !fmap_cons, <- !app_assoc; simpl.
  repeat split; lia.
Qed.

Ltac step_insert_trade H :=
  match type of H with
  | context [insert_trade ?t ?st] =>
    let E := fresh "Hins" in
    destruct (insert_trade t st) as [?st|] eqn:E; simpl in H; [| done];
    apply insert_trade_Some in E; subst
  end.

(** The market loop makes the fills of its walk, in its order. *)
Lemma market_loop_walk userId sid sd book :
  ∀ st r cash acc res,
    market_loop userId sid sd book st r cash acc = Some res →
    loop_agrees (market_trade userId sid sd) st r acc
      (market_walk sd cash r book) res.
Proof.
  induction book as [|maker rest IH]; intros st r cash acc res H; simpl in H.
  { injection H as <-. apply loop_agrees_nil. }
  simpl. case_bool_decide as H0.
  { injection H as <-. apply loop_agrees_nil. }
  destruct (bool_decide (sd = buy) && js_lt cash _) eqn:Hg.
  { injection H as <-. apply loop_agrees_nil. }
  step_insert_trade H.
  destruct sd; apply IH in H; (eapply loop_agrees_step; [| exact H]); done.
Qed.

Lemma limit_buy_loop_matcher userId sid newOrderId book :
  ∀ st r acc res,
    0 ≤ r →
    limit_buy_loop userId sid newOrderId book st r acc = Some res →
    loop_agrees (limit_buy_trade userId sid newOrderId) st r acc
      (matcher None r book) res.
Proof.
  induction book as [|maker rest IH]; intros st r acc res Hr H; simpl in H.
  { injection H as <-. apply loop_agrees_nil. }
  simpl. case_bool_decide as H0.
  { injection H as <-. rewrite bool_decide_eq_false_2 by lia.
    apply loop_agrees_nil. }
  rewrite bool_decide_eq_true_2 by lia.
  step_insert_trade H.
  case_bool_decide as Hz.
  - injection H as <-. eapply loop_agrees_step; cycle 1.
    + simpl. rewrite Hz, matcher_done. apply loop_agrees_nil.
    + done.
  - apply IH in H; [| lia].
    eapply loop_agrees_step; [| exact H]. done.
Qed.

Lemma limit_sell_loop_matcher userId sid newOrderId book :
  ∀ st r acc res,
    0 ≤ r →
    limit_sell_loop userId sid newOrderId book st r acc = Some res →
    loop_agrees (limit_sell_trade userId sid newOrderId) st r acc
      (matcher None r book) res.
Proof.
  induction book as [|maker rest IH]; intros st r acc res Hr H; simpl in H.
  { injection H as <-. apply loop_agrees_nil. }
  simpl. case_bool_decide as H0.
  { injection H as <-. rewrite bool_decide_eq_false_2 by lia.
    apply loop_agrees_nil. }
  rewrite bool_decide_eq_true_2 by lia.
  step_insert_trade H.
  case_bool_decide as Hz.
  - injection H as <-. eapply loop_agrees_step; cycle 1.
    + simpl. rewrite Hz, matcher_done. apply loop_agrees_nil.
    + done.
  - apply IH in H; [| lia].
    eapply loop_agrees_step; [| exact H]. done.
Qed.

(** ** The matcher *)

(** The makers of the proposed fills are the candidates, from the first
    one on, with none skipped. *)
Lemma matcher_prefix cash r l : (fst <$> matcher cash r l) `prefix_of` l.
Proof.
  revert cash r. induction l as [|maker rest IH]; intros cash r; simpl.
  { by exists []. }
  case_bool_decide; [| apply prefix_nil].
  destruct cash as [c|].
  - case_bool_decide; [apply prefix_nil |].
    simpl. apply prefix_cons, IH.
  - simpl. apply prefix_cons, IH.
Qed.

(** Each proposed fill has the size [min residual maker_remaining], for
    the residual left by the fills before it, which is positive. *)
Lemma matcher_sizes cash r l i m :
  matcher cash r l !! i = Some m →
  0 < r - filled (take i (matcher cash r l))
  ∧ m.2 = Z.min (r - filled (take i (matcher cash r l))) (ord_quantity m.1).
Proof.
  revert cash r i. induction l as [|maker rest IH]; intros cash r i; simpl.
  { by rewrite lookup_nil. }
  case_bool_decide as Hr; [| by rewrite lookup_nil].
  assert (∀ c',
    ((maker, Z.min r (ord_quantity maker))
       :: matcher c' (r - Z.min r (ord_quantity maker)) rest) !! i = Some m →
    0 < r - filled (take i ((maker, Z.min r (ord_quantity maker))
           :: matcher c' (r - Z.min r (ord_quantity maker)) rest))
    ∧ m.2 = Z.min (r - filled (take i ((maker, Z.min r (ord_quantity maker))
           :: matcher c' (r - Z.min r (ord_quantity maker)) rest)))
              (ord_quantity m.1)) as Hstep.
  { intros c' Hi. destruct i as [|i]; simpl in *.
    - injection Hi as <-. rewrite filled_nil; simpl.
      split; [lia | f_equal; lia].
    - apply IH in Hi as [Hpos Hq]. rewrite filled_cons; simpl.
      split; [lia |]. rewrite Hq. f_equal. lia. }
  destruct cash as [c|]; [case_bool_decide |]; auto.
  by rewrite lookup_nil.
Qed.

(** With a cash limit the proposed fills cost no more than the limit. *)
Lemma matcher_cost c r l : 0 ≤ c → cost (matcher (Some c) r l) ≤ c.
Proof.
  revert c r. induction l as [|maker rest IH]; intros c r Hc; simpl;
    [by rewrite cost_nil |].
  case_bool_decide; [| by rewrite cost_nil].
  case_bool_decide; [by rewrite cost_nil |].
  rewrite cost_cons; simpl.
  specialize (IH (c - ord_price maker * Z.min r (ord_quantity maker))
                 (r - Z.min r (ord_quantity maker))). lia.
Qed.

(** Why the walk stopped before a candidate: the residual was used up, or
    the cash left does not cover the next fill. *)
Lemma matcher_stop cash r l o rest :
  l = (fst <$> matcher cash r l) ++ o :: rest →
  r - filled (matcher cash r l) ≤ 0
  ∨ ∃ c, cash = Some c
         ∧ c - cost (matcher cash r l)
           < ord_price o * Z.min (r - filled (matcher cash r l)) (ord_quantity o).
Proof.
  revert cash r. induction l as [|maker rest' IH]; intros cash r; simpl.
  { done. }
  case_bool_decide as Hr; [| left; rewrite filled_nil; lia].
  destruct cash as [c|].
  - case_bool_decide as Hc.
    + simpl. intros [= <- <-]. right. exists c. split; [done |].
      rewrite filled_nil, cost_nil, !Z.sub_0_r. lia.
    + simpl. intros [= Hl]. apply IH in Hl as [Hl | (c' & [= <-] & Hl)].
      * left. rewrite filled_cons; simpl. lia.
      * right. exists c. split; [done |].
        rewrite filled_cons, cost_cons; simpl.
        replace (r - (Z.min r (ord_quantity maker)
                      + filled (matcher (Some (c - ord_price maker
                          * Z.min r (ord_quantity maker)))
                          (r - Z.min r (ord_quantity maker)) rest')))
          with (r - Z.min r (ord_quantity maker)
                - filled (matcher (Some (c - ord_price maker
                          * Z.min r (ord_quantity maker)))
                          (r - Z.min r (ord_quantity maker)) rest')) by lia.
        lia.
  - simpl. intros [= Hl]. apply IH in Hl as [Hl | (c' & [=] & _)].
    left. rewrite filled_cons; simpl. lia.
Qed.

(** The walk proposes nothing exactly when there is no candidate or the
    first fill is not covered. *)
Lemma matcher_nil cash r l :
  0 < r →
  matcher cash r l = []
  ↔ l = [] ∨ ∃ c o rest, cash = Some c ∧ l = o :: rest
                         ∧ c < ord_price o * Z.min r (ord_quantity o).
Proof.
  intros Hr. destruct l as [|maker rest]; simpl.
  { split; [by left | done]. }
  rewrite bool_decide_eq_true_2 by done.
  destruct cash as [c|].
  - case_bool_decide as Hc; split; try done.
    + intros _. right. by exists c, maker, rest.
    + intros [[=] | (c' & o & rest' & [= <-] & [= <- <-] & Hlt)]. lia.
  - split; [done |]. intros [[=] | (c' & o & rest' & [=] & _)].
Qed.

(** ** The walk of a market order *)

(** The guard of a market buyer only cuts the walk short: the fills of a
    market order are fills of the walk without a cash limit, from the
    first on; a market seller makes all of them. *)
Lemma market_walk_prefix sd cash r book :
  0 ≤ r → market_walk sd cash r book `prefix_of` matcher None r book.
Proof.
  revert cash r. induction book as [|maker rest IH]; intros cash r Hr; simpl.
  { done. }
  case_bool_decide as H0; [apply prefix_nil |].
  rewrite (bool_decide_eq_true_2 (0 < r)) by lia.
  destruct (bool_decide (sd = buy) && js_lt cash _); [apply prefix_nil |].
  apply prefix_cons, IH. lia.
Qed.

Lemma market_walk_sell cash r book :
  0 ≤ r → market_walk sell cash r book = matcher None r book.
Proof.
  revert r. induction book as [|maker rest IH]; intros r Hr; simpl; [done |].
  case_bool_decide as H0.
  { subst r. by rewrite bool_decide_eq_false_2 by lia. }
  rewrite (bool_decide_eq_true_2 (0 < r)) by lia. simpl. f_equal. apply IH. lia.
Qed.

Lemma prefix_fmap {A B} (f : A → B) (l k : list A) :
  l `prefix_of` k → (f <$> l) `prefix_of` (f <$> k).
Proof. intros [k' ->]. rewrite fmap_app. by eexists. Qed.

(** ** The loops do not raise over a store with its foreign keys *)

Lemma market_loop_total userId sid sd book :
  ∀ st r cash acc,
    is_Some (users st !! userId) →
    (∀ o, o ∈ book → is_Some (users st !! ord_user_id o)) →
    is_Some (market_loop userId sid sd book st r cash acc).
Proof.
  induction book as [|maker rest IH]; intros st r cash acc Hu Hb; simpl; [done |].
  case_bool_decide; [done |].
  destruct (bool_decide (sd = buy) && js_lt cash _); [done |].
  assert (is_Some (users st !! ord_user_id maker)) as Hm by (apply Hb; left).
  rewrite insert_trade_exists by (destruct sd; done). simpl.
  destruct sd; apply IH; simpl;
    try (intros o Ho; specialize (Hb o (list_elem_of_further _ _ _ Ho)));
    rewrite !lookup_alter; repeat case_decide; subst;
    rewrite ?fmap_is_Some; done.
Qed.

Lemma limit_buy_loop_total userId sid newOrderId book :
  ∀ st r acc,
    is_Some (users st !! userId) →
    (∀ o, o ∈ book → is_Some (users st !! ord_user_id o)) →
    is_Some (limit_buy_loop userId sid newOrderId book st r acc).
Proof.
  induction book as [|maker rest IH]; intros st r acc Hu Hb; simpl; [done |].
  case_bool_decide; [done |].
  assert (is_Some (users st !! ord_user_id maker)) as Hm by (apply Hb; left).
  rewrite insert_trade_exists by done. simpl.
  case_bool_decide; [done |].
  apply IH; simpl;
    try (intros o Ho; specialize (Hb o (list_elem_of_further _ _ _ Ho)));
    rewrite !lookup_alter; repeat case_decide; subst;
    rewrite ?fmap_is_Some; done.
Qed.

Lemma limit_sell_loop_total userId sid newOrderId book :
  ∀ st r acc,
    is_Some (users st !! userId) →
    (∀ o, o ∈ book → is_Some (users st !! ord_user_id o)) →
    is_Some (limit_sell_loop userId sid newOrderId book st r acc).
Proof.
  induction book as [|maker rest IH]; intros st r acc Hu Hb; simpl; [done |].
  case_bool_decide; [done |].
  assert (is_Some (users st !! ord_user_id maker)) as Hm by (apply Hb; left).
  rewrite insert_trade_exists by done. simpl.
  case_bool_decide; [done |].
  apply IH; simpl;
    try (intros o Ho; specialize (Hb o (list_elem_of_further _ _ _ Ho)));
    rewrite !lookup_alter; repeat case_decide; subst;
    rewrite ?fmap_is_Some; done.
Qed.

(** ** Prices and amounts in cents *)

Lemma js_le_zero_false (x : Q) :
  js_le (Finite x) (Finite 0) = false → (0 < x)%Q.
Proof. simpl. intros H%bool_decide_eq_false. by apply Qnot_le_lt. Qed.

(** What [Number] makes of a numeral is a number. *)
Lemma Number_idemp v x : Number v = Finite x → binary64 x = Finite x.
Proof. destruct v; simpl; [apply binary64_idemp | done]. Qed.

(** A numeral of whole cents reads as the stored price does. *)
Lemma Number_cents m e c :
  (decimal m e == inject_Z c / 100)%Q → Number (numeral m e) = parseFloat c.
Proof. intros H. by apply binary64_compat. Qed.

Lemma parseFloat_zero : parseFloat 0 = Finite 0.
Proof. by apply binary64_zero. Qed.

(** The numbers of two stored amounts up to 10^15 cents that differ are
    apart the same way. *)
Lemma cents_separated (x y : Z) :
  0 ≤ x → x < y → y ≤ 10 ^ 15 →
  js_le (parseFloat y) (parseFloat x) = false
  ∧ js_lt (parseFloat x) (parseFloat y) = true.
Proof.
  intros Hx Hxy Hy.
  destruct (parseFloat_relative y) as (py & Epy & Hy1 & _); [lia |].
  assert (inject_Z x + 1 <= inject_Z y)%Q as Hxy'.
  { change 1%Q with (inject_Z 1). rewrite <- inject_Z_plus, <- Zle_Qle. lia. }
  assert (inject_Z 0 <= inject_Z x)%Q as Hx' by (by rewrite <- Zle_Qle).
  assert (inject_Z y <= inject_Z (10 ^ 15))%Q as Hy' by (by rewrite <- Zle_Qle).
  change (inject_Z 0) with 0%Q in Hx'.
  change (inject_Z (10 ^ 15)) with (1000000000000000 # 1)%Q in Hy'.
  unfold Qdiv, unit_roundoff in Hy1. change (/ 100)%Q with (1 # 100)%Q in Hy1.
  rewrite Epy.
  destruct (decide (x = 0)) as [-> | Hx0].
  - rewrite parseFloat_zero. simpl.
    rewrite bool_decide_eq_false_2, bool_decide_eq_true_2; [done | lra | lra].
  - destruct (parseFloat_relative x) as (px & Epx & _ & Hx2); [lia |].
    unfold Qdiv, unit_roundoff in Hx2. change (/ 100)%Q with (1 # 100)%Q in Hx2.
    rewrite Epx. simpl.
    rewrite bool_decide_eq_false_2, bool_decide_eq_true_2; [done | lra | lra].
Qed.

(** The number of a stored price up to 10^15 cents is written into a
    statement as a decimal that the column rounds to the price. *)
Lemma price_round_trip (c : Z) :
  0 < c ≤ 10 ^ 15 →
  ∃ x, parseFloat c = Finite x ∧ (0 < x)%Q
       ∧ round_cents (to_decimal x) = c.
Proof.
  intros Hc.
  destruct (amount_near c 1) as (A & HA & HA0 & H1 & H2); [lia .. |].
  destruct (parseFloat_relative c) as (x & Hx & _); [done |].
  rewrite Hx in HA. rewrite number_of_Z_exact in HA by done. simpl in HA.
  rewrite (binary64_compat _ x) in HA by (change (inject_Z 1) with 1%Q; ring).
  unfold parseFloat in Hx. rewrite (binary64_idemp _ _ Hx) in HA.
  injection HA as <-. exists x. split; [done |]. split; [done |].
  rewrite Z.mul_1_r in H1, H2. by apply round_cents_near.
Qed.

(** ** Statements with a number of the handler *)

Lemma credit_number_frame uid amount st st' :
  credit_number uid amount st = Some st' →
  positions st' = positions st ∧ symbols st' = symbols st
  ∧ orders st' = orders st ∧ trades st' = trades st
  ∧ orders_auto_increment st' = orders_auto_increment st
  ∧ dom (users st') = dom (users st)
  ∧ ∀ k, k ≠ uid → users st' !! k = users st !! k.
Proof.
  unfold credit_number. destruct (sql_literal amount); simpl; [| done].
  intros [= <-]; simpl. repeat split; [apply dom_alter_L |].
  intros k Hk. by rewrite lookup_alter_ne.
Qed.

Lemma debit_number_frame uid amount st st' :
  debit_number uid amount st = Some st' →
  positions st' = positions st ∧ symbols st' = symbols st
  ∧ orders st' = orders st ∧ trades st' = trades st
  ∧ orders_auto_increment st' = orders_auto_increment st
  ∧ dom (users st') = dom (users st)
  ∧ ∀ k, k ≠ uid → users st' !! k = users st !! k.
Proof.
  unfold debit_number. destruct (sql_literal amount); simpl; [| done].
  intros [= <-]; simpl. repeat split; [apply dom_alter_L |].
  intros k Hk. by rewrite lookup_alter_ne.
Qed.

Lemma frame_refl st uid :
  positions st = positions st ∧ symbols st = symbols st
  ∧ orders st = orders st ∧ trades st = trades st
  ∧ orders_auto_increment st = orders_auto_increment st
  ∧ dom (users st) = dom (users st)
  ∧ ∀ k : Z, k ≠ uid → users st !! k = users st !! k.
Proof. done. Qed.

Lemma reserve_frame userId p userPos st st' :
  reserve userId p userPos st = Some st' →
  positions st' = positions st ∧ symbols st' = symbols st
  ∧ orders st' = orders st ∧ trades st' = trades st
  ∧ orders_auto_increment st' = orders_auto_increment st
  ∧ dom (users st') = dom (users st)
  ∧ ∀ k, k ≠ userId → users st' !! k = users st !! k.
Proof.
  unfold reserve.
  case_bool_decide; [| intros [= <-]; apply frame_refl].
  destruct (p_side p); [apply debit_number_frame |].
  case_bool_decide; [| intros [= <-]; apply frame_refl].
  destruct (js_lt _ _); [apply debit_number_frame |].
  intros [= <-]; apply frame_refl.
Qed.

Lemma refund_reserved_frame userId p userPos r fills st st' :
  refund_reserved userId p userPos r fills st = Some st' →
  positions st' = positions st ∧ symbols st' = symbols st
  ∧ orders st' = orders st ∧ trades st' = trades st
  ∧ orders_auto_increment st' = orders_auto_increment st
  ∧ dom (users st') = dom (users st)
  ∧ ∀ k, k ≠ userId → users st' !! k = users st !! k.
Proof.
  unfold refund_reserved.
  case_bool_decide; [| intros [= <-]; apply frame_refl].
  destruct (p_side p);
    (case_bool_decide; [| intros [= <-]; apply frame_refl]);
    (destruct (js_lt _ _); [apply credit_number_frame |]);
    intros [= <-]; apply frame_refl.
Qed.

Lemma stamp_last_trade_frame sid symRow fills st :
  let st' := stamp_last_trade sid symRow fills st in
  users st' = users st ∧ positions st' = positions st
  ∧ orders st' = orders st ∧ trades st' = trades st
  ∧ orders_auto_increment st' = orders_auto_increment st.
Proof. unfold stamp_last_trade. by destruct (last fills). Qed.

Lemma stamp_last_trade_outstanding sid symRow fills st k :
  outstanding_shares <$> symbols (stamp_last_trade sid symRow fills st) !! k
  = outstanding_shares <$> symbols st !! k.
Proof.
  unfold stamp_last_trade. destruct (last fills); [| done]. simpl.
  rewrite lookup_alter. case_decide; [subst | done].
  by destruct (symbols st !! k).
Qed.

Lemma insert_order_frame uid sid sd price q st oid st' :
  insert_order uid sid sd price q st = Some (oid, st') →
  is_Some (users st !! uid)
  ∧ oid = orders_auto_increment st
  ∧ users st' = users st ∧ positions st' = positions st
  ∧ symbols st' = symbols st ∧ trades st' = trades st
  ∧ (∃ lit, sql_literal price = Some lit
            ∧ orders st'
              = orders st ++ [mk_order oid uid sid sd (round_cents lit) q OPEN])
  ∧ orders_auto_increment st' = oid + 1.
Proof.
  unfold insert_order. destruct (sql_literal price) as [lit|]; simpl; [| done].
  case_bool_decide as H; [| done]. intros [= <- <-]. simpl.
  destruct H as (? & _). repeat split; [done |]. by exists lit.
Qed.

(** ** Submissions *)

Lemma filter_none {A} (P : A → Prop) `{∀ x, Decision (P x)} (l : list A) :
  (∀ x, x ∈ l → ¬ P x) → filter P l = [].
Proof.
  induction l as [|x l IH]; intros Hl; [done |].
  rewrite filter_cons_False by (apply Hl; left).
  apply IH. intros y Hy. apply Hl. by right.
Qed.

(** A rejected submission leaves the store as it was. *)
Lemma transaction_rejected st body e st' :
  transaction st body = (Rejected e, st') → st' = st.
Proof.
  unfold transaction. destruct body as [[[] ?]|]; congruence.
Qed.

Lemma place_order_rejected st userId body e st' :
  place_order st userId body = (Rejected e, st') → st' = st.
Proof.
  unfold place_order.
  destruct (validate body) as [|p]; [congruence |].
  destruct (crosses_book st p); [congruence |].
  destruct (symbols st !! p_symbol_id p); [| congruence].
  destruct (check_resources _ _ _ _); [congruence |].
  apply transaction_rejected.
Qed.

(** A validated order has a positive quantity, and a limit price exactly
    when its type is 'limit'; the price is then the number of what the
    body carries, and not at or below zero. *)
Lemma validate_inr body p :
  validate body = inr p →
  0 < p_quantity p
  ∧ p_symbol_id p ≠ 0
  ∧ p_type p = normalizeType (body_type body)
  ∧ (p_type p = "limit" →
     ∃ v, body_price body = Some v ∧ p_price p = Some (Number v)
          ∧ js_le (Number v) (Finite 0) = false)
  ∧ (p_type p ≠ "limit" → p_price p = None).
Proof.
  unfold validate.
  destruct (body_symbol_id body) as [sid|]; [| done].
  destruct (body_side body) as [sd|]; simpl; [| done].
  destruct (body_quantity body) as [q|]; [| done].
  case_bool_decide as Hq; [done |].
  destruct (parse_side _); [| done].
  case_bool_decide as Ht.
  - destruct (body_price body) as [v|]; [| done].
    destruct (js_le _ _) eqn:Hle; [done |]. intros [= <-]; simpl.
    split; [lia |]. split; [intros ->; apply Hq; by left |].
    split; [done |]. split; [| done].
    intros _. by exists v.
  - intros [= <-]; simpl.
    split; [lia |]. split; [intros ->; apply Hq; by left |].
    split; [done |]. split; done.
Qed.

(** The price of a validated limit order that can be written into a
    statement is a positive number. *)
Lemma limit_price_positive v lit :
  js_le (Number v) (Finite 0) = false →
  sql_literal (Number v) = Some lit →
  ∃ x, Number v = Finite x ∧ binary64 x = Finite x ∧ (0 < x)%Q
       ∧ lit = to_decimal x.
Proof.
  intros Hle Hlit. destruct (Number v) as [| s | x] eqn:Hn; [done | done |].
  injection Hlit as <-. exists x.
  split; [done |]. split; [by eapply Number_idemp |].
  split; [by apply js_le_zero_false | done].
Qed.

(** No resting order is reached by an uncrossed limit price. *)
Lemma uncrossed_no_candidates st st' p v bound :
  p_type p = "limit" → p_price p = Some (Number v) →
  js_le (Number v) (Finite 0) = false →
  sql_literal (Number v) = Some bound →
  crosses_book st p = false →
  open_orders st' (p_symbol_id p) (opposite (p_side p))
  = open_orders st (p_symbol_id p) (opposite (p_side p)) →
  book_orders st' (p_symbol_id p) (p_side p) (Some bound) = [].
Proof.
  intros Ht Hp Hpos Hlit Hc Ho. unfold book_orders. rewrite Ho.
  rewrite filter_none; [done |].
  destruct (limit_price_positive _ _ Hpos Hlit) as (x & Hx & Hxx & Hx0 & ->).
  destruct (to_decimal_rounds x Hxx Hx0) as [Hd _].
  assert (price_number p = Finite x) as Hpn
    by (unfold price_number; by rewrite Hp, Hx).
  unfold crosses_book in Hc. rewrite Hpn, Ht in Hc.
  rewrite bool_decide_eq_true_2 in Hc by done.
  intros o Hin. destruct (p_side p); simpl in Hin |- *; cbv iota in Hc.
  - unfold bestAsk in Hc.
    destruct (min_price _) as [a|] eqn:Hm.
    + apply min_price_Some in Hm as [_ Hle]. specialize (Hle _ Hin).
      intros Hcr. apply binary64_mono in Hcr. rewrite Hd in Hcr.
      assert (js_le (parseFloat a) (parseFloat (ord_price o)) = true) as H1.
      { apply binary64_mono. apply Qmult_le_compat_r; [| done].
        by rewrite <- Zle_Qle. }
      by rewrite (js_le_trans _ _ _ H1 Hcr) in Hc.
    + apply min_price_None in Hm. rewrite Hm in Hin.
      by apply elem_of_nil in Hin.
  - unfold bestBid in Hc.
    destruct (max_price _) as [b|] eqn:Hm.
    + apply max_price_Some in Hm as [_ Hle]. specialize (Hle _ Hin).
      intros Hcr. apply binary64_mono in Hcr. rewrite Hd in Hcr.
      assert (js_le (parseFloat (ord_price o)) (parseFloat b) = true) as H1.
      { apply binary64_mono. apply Qmult_le_compat_r; [| done].
        by rewrite <- Zle_Qle. }
      by rewrite (js_le_trans _ _ _ Hcr H1) in Hc.
    + apply max_price_None in Hm. rewrite Hm in Hin.
      by apply elem_of_nil in Hin.
Qed.

(** The reservation and the insertion of the taker's own row leave the
    opposite side of the book as it was. *)
Lemma open_orders_reserve userId p userPos st st' sid sd :
  reserve userId p userPos st = Some st' →
  open_orders st' sid sd = open_orders st sid sd.
Proof.
  intros (_ & _ & Ho & _)%reserve_frame. unfold open_orders. by rewrite Ho.
Qed.

Lemma open_orders_insert_order uid sid sd price q st oid st' :
  insert_order uid sid sd price q st = Some (oid, st') →
  open_orders st' sid (opposite sd) = open_orders st sid (opposite sd).
Proof.
  intros (_ & _ & _ & _ & _ & _ & (lit & _ & Ho) & _)%insert_order_frame.
  unfold open_orders. rewrite Ho, filter_app, filter_cons_False.
  - by rewrite filter_nil, app_nil_r.
  - simpl. intros (_ & Hsd & _). by destruct sd.
Qed.

Lemma trades_stamp_last_trade sid symRow fills st :
  trades (stamp_last_trade sid symRow fills st) = trades st.
Proof. unfold stamp_last_trade. by destruct (last fills). Qed.

(** An uncrossed limit order is inserted and nothing else happens to the
    tape: it meets no candidate, so it is answered OPEN with no fill. *)
Lemma limit_order_uncrossed st0 userId p v symRow userPos st r st' :
  p_type p = "limit" → p_price p = Some (Number v) →
  js_le (Number v) (Finite 0) = false → 0 < p_quantity p →
  crosses_book st0 p = false →
  open_orders st (p_symbol_id p) (opposite (p_side p))
  = open_orders st0 (p_symbol_id p) (opposite (p_side p)) →
  limit_order userId p symRow userPos st = Some (r, st') →
  r = OrderPlaced STATUS_OPEN [] ∧ trades st' = trades st.
Proof.
  intros Ht Hp Hpos Hq Hc Ho. unfold limit_order.
  destruct (insert_order _ _ _ _ _ _) as [[oid st1]|] eqn:Hins; simpl; [| done].
  rewrite Hp. simpl.
  destruct (sql_literal (Number v)) as [bound|] eqn:Hlit; simpl; [| done].
  rewrite (uncrossed_no_candidates st0 st1 p v bound Ht Hp Hpos Hlit Hc)
    by (rewrite <- Ho; eapply open_orders_insert_order, Hins).
  apply insert_order_frame in Hins as (_ & _ & _ & _ & _ & Htr & _).
  destruct (p_side p) eqn:Hsd; simpl;
    rewrite (bool_decide_eq_true_2 (0 < p_quantity p)) by done;
    rewrite (bool_decide_eq_false_2 (p_quantity p = 0)) by lia;
    rewrite (bool_decide_eq_false_2 (p_quantity p < p_quantity p)) by lia;
    (destruct (refund_reserved _ _ _ _ _ _) as [st2|] eqn:Hre; simpl; [| done]);
    apply refund_reserved_frame in Hre as (_ & _ & _ & Htr2 & _);
    intros [= <- <-]; (split; [done |]);
    simpl; by rewrite trades_stamp_last_trade, Htr2.
Qed.

(** C9.  In a serial execution an accepted limit order executes no fill
    at submission: the cross-prevention check leaves no opposite OPEN
    order within reach of the limit price, so the taker loop finds no
    candidate, the answer is orderStatus OPEN with an empty
    tradesExecuted, and no trade is recorded. *)
Theorem accepted_limit_rests_unfilled st userId body p status fills st' :
  validate body = inr p →
  p_type p = "limit" →
  place_order st userId body = (OrderPlaced status fills, st') →
  status = STATUS_OPEN ∧ fills = [] ∧ trades st' = trades st.
Proof.
  intros Hv Ht. pose proof (validate_inr _ _ Hv) as (Hq & _ & _ & Hpr & _).
  destruct (Hpr Ht) as (v & _ & Hp & Hpos).
  unfold place_order. rewrite Hv.
  destruct (crosses_book st p) eqn:Hc; [done |].
  destruct (symbols st !! p_symbol_id p) as [symRow|]; [| done].
  destruct (check_resources _ _ _ _); [done |].
  destruct (reserve _ _ _ _) as [st0|] eqn:Hres; simpl; [| done].
  rewrite bool_decide_eq_false_2 by (by rewrite Ht).
  destruct (limit_order _ _ _ _ _) as [[r st1]|] eqn:Hl; simpl; [| done].
  eapply limit_order_uncrossed in Hl as [-> Htr]; try done.
  - intros [= <- <- <-]. rewrite Htr.
    by apply reserve_frame in Hres as (_ & _ & _ & ? & _).
  - by eapply open_orders_reserve.
Qed.

(** With the ask 10 @ 100.00 of [U1] and the bid 5 @ 90.00 of [U2]
    resting, the buy limit 3 @ 95.00 of [U2] is accepted, and rests OPEN
    with no fill. *)
Lemma accepted_limit_rests_unfilled_witness :
  (place_order two_sided U2 (limit_request "buy" 9500 3)).1
  = OrderPlaced STATUS_OPEN []
  ∧ trades (place_order two_sided U2 (limit_request "buy" 9500 3)).2
    = trades two_sided.
Proof.
  destruct (place_order two_sided U2 (limit_request "buy" 9500 3))
    as [r st'] eqn:Hpo.
  assert (∃ status fills, r = OrderPlaced status fills)
    as (status & fills & ->)
    by (revert Hpo; vm_compute; intros [= <- _]; eauto).
  destruct (accepted_limit_rests_unfilled two_sided U2
              (limit_request "buy" 9500 3)
              (mk_params SYM buy "limit" (Some (Number (numeral 9500 (-2)))) 3)
              status fills st') as (-> & -> & Htr);
    [vm_compute; reflexivity | reflexivity | exact Hpo |].
  split; [reflexivity | exact Htr].
Defined.

(** ** Cross prevention *)

Lemma check_resources_error p symRow userCash userPos e :
  check_resources p symRow userCash userPos = Some e →
  e = INSUFFICIENT_FUNDS ∨ e = INSUFFICIENT_SHARES_IN_CIRCULATION.
Proof.
  unfold check_resources. destruct (p_side p).
  - destruct (_ && _); intros [= <-]. by left.
  - case_bool_decide; [| done].
    case_bool_decide; [intros [= <-]; by right |].
    destruct (js_lt _ _); intros [= <-]. by left.
Qed.

Lemma market_order_response userId p symRow userCash st r st' :
  market_order userId p symRow userCash st = Some (r, st') →
  r = Rejected NO_LIQUIDITY ∨ ∃ status fills, r = OrderPlaced status fills.
Proof.
  unfold market_order.
  destruct (market_loop _ _ _ _ _ _ _ _) as [[[st1 rq] fills]|]; simpl; [| done].
  case_bool_decide; intros [= <- <-]; eauto.
Qed.

Lemma limit_order_response userId p symRow userPos st r st' :
  limit_order userId p symRow userPos st = Some (r, st') →
  ∃ status fills, r = OrderPlaced status fills.
Proof.
  unfold limit_order.
  destruct (insert_order _ _ _ _ _ _) as [[oid st1]|]; simpl; [| done].
  destruct (match p_price p with Some _ => _ | None => _ end); simpl; [| done].
  destruct (match p_side p with buy => _ | sell => _ end)
    as [[[st2 rq] fills]|]; simpl; [| done].
  destruct (refund_reserved _ _ _ _ _ _); simpl; [| done].
  intros [= <- <-]; eauto.
Qed.

Lemma place_order_crossing st userId body p :
  validate body = inr p → crosses_book st p = true →
  place_order st userId body = (Rejected CROSSES_BOOK, st).
Proof. intros Hv Hc. unfold place_order. by rewrite Hv, Hc. Qed.

Lemma place_order_not_crossing st userId body p :
  validate body = inr p → crosses_book st p = false →
  (place_order st userId body).1 ≠ Rejected CROSSES_BOOK.
Proof.
  intros Hv Hc. unfold place_order. rewrite Hv, Hc.
  destruct (symbols st !! p_symbol_id p) as [symRow|]; [| done].
  destruct (check_resources _ _ _ _) as [e|] eqn:He.
  { apply check_resources_error in He as [-> | ->]; done. }
  unfold transaction.
  destruct (reserve _ _ _ _) as [st0|]; simpl; [| done].
  case_bool_decide.
  - destruct (market_order _ _ _ _ _) as [[r st1]|] eqn:Hm; [| done].
    apply market_order_response in Hm as [-> | (status & fills & ->)]; done.
  - destruct (limit_order _ _ _ _ _) as [[r st1]|] eqn:Hl; [| done].
    apply limit_order_response in Hl as (status & fills & ->). done.
Qed.

Lemma parseFloat_mono (x y : Z) :
  x ≤ y → js_le (parseFloat x) (parseFloat y) = true.
Proof.
  intros H. apply binary64_mono. apply Qmult_le_compat_r; [| done].
  by rewrite <- Zle_Qle.
Qed.

(** C5.  Cross prevention.  A validated limit buy whose price is at or
    above the best ask (the least price among the OPEN sell orders of the
    symbol) is rejected with CROSSES_BOOK and the store is unchanged;
    a validated limit sell whose price is at or below the best bid (the
    greatest price among the OPEN buy orders) likewise; a limit order
    facing an empty opposite side, or inside the spread by a cent or
    more (its price at most an amount of whole cents below the best ask,
    at least one above the best bid, the best price being one its column
    holds), is not rejected for crossing. *)
Theorem cross_prevention st userId body p m e :
  validate body = inr p →
  p_type p = "limit" →
  body_price body = Some (numeral m e) →
  let sid := p_symbol_id p in
  let price := decimal m e in
  (* the best ask and the best bid are the extreme OPEN prices *)
  (∀ a, bestAsk st sid = Some a →
        (∃ o, o ∈ open_orders st sid sell ∧ ord_price o = a)
        ∧ ∀ o, o ∈ open_orders st sid sell → a ≤ ord_price o)
  ∧ (bestAsk st sid = None ↔ open_orders st sid sell = [])
  ∧ (∀ b, bestBid st sid = Some b →
          (∃ o, o ∈ open_orders st sid buy ∧ ord_price o = b)
          ∧ ∀ o, o ∈ open_orders st sid buy → ord_price o ≤ b)
  ∧ (bestBid st sid = None ↔ open_orders st sid buy = [])
  (* a crossing limit order is rejected and nothing changes *)
  ∧ (p_side p = buy →
     ∀ a, bestAsk st sid = Some a → (inject_Z a / 100 <= price)%Q →
          place_order st userId body = (Rejected CROSSES_BOOK, st))
  ∧ (p_side p = sell →
     ∀ b, bestBid st sid = Some b → (price <= inject_Z b / 100)%Q →
          place_order st userId body = (Rejected CROSSES_BOOK, st))
  (* an order inside the spread is not rejected for crossing *)
  ∧ (p_side p = buy →
     bestAsk st sid = None
     ∨ (∃ a c, bestAsk st sid = Some a ∧ (price <= inject_Z c / 100)%Q
               ∧ c < a ≤ DECIMAL_MAX) →
     (place_order st userId body).1 ≠ Rejected CROSSES_BOOK)
  ∧ (p_side p = sell →
     bestBid st sid = None
     ∨ (∃ b c, bestBid st sid = Some b ∧ (inject_Z c / 100 <= price)%Q
               ∧ b < c ∧ b ≤ DECIMAL_MAX) →
     (place_order st userId body).1 ≠ Rejected CROSSES_BOOK).
Proof.
  intros Hv Ht Hb sid price.
  split; [apply min_price_Some |]. split; [apply min_price_None |].
  split; [apply max_price_Some |]. split; [apply max_price_None |].
  pose proof (validate_inr _ _ Hv) as (_ & _ & _ & Hl & _).
  destruct (Hl Ht) as (v & Hbv & Hp & Hpos). rewrite Hb in Hbv.
  injection Hbv as <-.
  assert (price_number p = binary64 price) as Hn
    by (unfold price_number; by rewrite Hp).
  simpl in Hpos. fold price in Hpos.
  assert (crosses_book st p
          = match p_side p with
            | buy => match bestAsk st sid with
                     | Some a => js_le (parseFloat a) (binary64 price)
                     | None => false
                     end
            | sell => match bestBid st sid with
                      | Some b => js_le (binary64 price) (parseFloat b)
                      | None => false
                      end
            end) as Hc.
  { unfold crosses_book. by rewrite Ht, Hn. }
  assert (js_le (parseFloat 0) (Finite 0) = true) as Hz
    by (by rewrite parseFloat_zero).
  repeat split.
  - intros Hs a Ha Hle. apply (place_order_crossing _ _ _ p Hv).
    rewrite Hc, Hs, Ha. by apply binary64_mono.
  - intros Hs b Hbb Hle. apply (place_order_crossing _ _ _ p Hv).
    rewrite Hc, Hs, Hbb. by apply binary64_mono.
  - intros Hs Hin. apply (place_order_not_crossing _ _ _ p Hv).
    rewrite Hc, Hs. destruct Hin as [-> | (a & c & -> & Hle & Hlt & Ha)]; [done |].
    apply binary64_mono in Hle. fold (parseFloat c) in Hle.
    destruct (js_le (parseFloat a) (binary64 price)) eqn:Hcr; [| done].
    pose proof (js_le_trans _ _ _ Hcr Hle) as Hac.
    destruct (decide (0 ≤ c)) as [Hc0 | Hc0].
    + destruct (cents_separated c a) as [Hsep _]; [done | done | |].
      * unfold DECIMAL_MAX in Ha. lia.
      * by rewrite Hsep in Hac.
    + assert (js_le (parseFloat c) (parseFloat 0) = true) as Hc1
        by (apply parseFloat_mono; lia).
      pose proof (js_le_trans _ _ _ Hle (js_le_trans _ _ _ Hc1 Hz)) as Hneg.
      by rewrite Hneg in Hpos.
  - intros Hs Hin. apply (place_order_not_crossing _ _ _ p Hv).
    rewrite Hc, Hs. destruct Hin as [-> | (b & c & -> & Hle & Hlt & Hbm)]; [done |].
    apply binary64_mono in Hle. fold (parseFloat c) in Hle.
    destruct (js_le (binary64 price) (parseFloat b)) eqn:Hcr; [| done].
    pose proof (js_le_trans _ _ _ Hle Hcr) as Hcb.
    destruct (decide (0 ≤ b)) as [Hb0 | Hb0].
    + destruct (cents_separated b (Z.min c (10 ^ 15))) as [Hsep _];
        [done | unfold DECIMAL_MAX in Hbm; lia | lia |].
      assert (js_le (parseFloat (Z.min c (10 ^ 15))) (parseFloat c) = true)
        as Hmin by (apply parseFloat_mono; lia).
      by rewrite (js_le_trans _ _ _ Hmin Hcb) in Hsep.
    + assert (js_le (parseFloat b) (parseFloat 0) = true) as Hb1
        by (apply parseFloat_mono; lia).
      pose proof (js_le_trans _ _ _ Hcr (js_le_trans _ _ _ Hb1 Hz)) as Hneg.
      by rewrite Hneg in Hpos.
Qed.

(** On the book where [U1] rests a sell limit 10 @ 100.00, the buy limit
    5 @ 100.00 of [U2] meets the best ask and is rejected; the store is
    unchanged (scenario S1).  The buy limit 5 @ 99.99 is not rejected for
    crossing. *)
Lemma cross_prevention_witness :
  validate (limit_request "buy" 10000 5)
  = inr (mk_params SYM buy "limit" (Some (Number (numeral 10000 (-2)))) 5)
  ∧ bestAsk covered_sell_rested.2 SYM = Some 10000
  ∧ place_order covered_sell_rested.2 U2 (limit_request "buy" 10000 5)
    = (Rejected CROSSES_BOOK, covered_sell_rested.2)
  ∧ (place_order covered_sell_rested.2 U2 (limit_request "buy" 9999 5)).1
    ≠ Rejected CROSSES_BOOK.
Proof.
  assert (validate (limit_request "buy" 10000 5)
          = inr (mk_params SYM buy "limit"
                   (Some (Number (numeral 10000 (-2)))) 5)) as Hv
    by (vm_compute; reflexivity).
  assert (bestAsk covered_sell_rested.2 SYM = Some 10000) as Ha
    by (vm_compute; reflexivity).
  split; [exact Hv |]. split; [exact Ha |].
  destruct (cross_prevention covered_sell_rested.2 U2
              (limit_request "buy" 10000 5)
              (mk_params SYM buy "limit" (Some (Number (numeral 10000 (-2)))) 5)
              10000 (-2) Hv eq_refl eq_refl) as (_ & _ & _ & _ & Hbuy & _).
  split; [apply (Hbuy eq_refl 10000 Ha); vm_compute; discriminate |].
  destruct (cross_prevention covered_sell_rested.2 U2
              (limit_request "buy" 9999 5)
              (mk_params SYM buy "limit" (Some (Number (numeral 9999 (-2)))) 5)
              9999 (-2)) as (_ & _ & _ & _ & _ & _ & Hin & _);
    [vm_compute; reflexivity .. |].
  apply (Hin eq_refl). right. exists 10000, 9999.
  split; [exact Ha |]. split; [vm_compute; discriminate |].
  split; [lia | vm_compute; discriminate].
Defined.

(** ** Input normalization *)

Lemma place_order_validate st userId body body' :
  validate body = validate body' →
  place_order st userId body = place_order st userId body'.
Proof. intros H. unfold place_order. by rewrite H. Qed.

(** A numeral at or below zero fails the price check, one of a cent or
    more passes it. *)
Lemma Number_nonpositive m e :
  (decimal m e <= 0)%Q → js_le (Number (numeral m e)) (Finite 0) = true.
Proof.
  intros H. apply binary64_mono in H. by rewrite (binary64_zero 0) in H.
Qed.

Lemma Number_cent m e :
  (1 # 100 <= decimal m e)%Q → js_le (Number (numeral m e)) (Finite 0) = false.
Proof.
  intros H. apply binary64_mono in H. simpl.
  destruct (js_le (binary64 (decimal m e)) (Finite 0)) eqn:Hle; [| done].
  pose proof (js_le_trans _ _ _ H Hle) as Hc. vm_compute in Hc. done.
Qed.

Lemma js_lt_NaN x : js_lt x NaN = false.
Proof. by destruct x. Qed.

Lemma js_le_NaN x : js_le x NaN = false.
Proof. by destruct x. Qed.

(** A price that is no number passes the price check, and the submission
    ends in a rejection: a statement raises on it at the latest. *)
Lemma place_order_NaN st userId body p :
  validate body = inr p → p_price p = Some NaN →
  ∃ e, place_order st userId body = (Rejected e, st) ∧ e ≠ INVALID_INPUT.
Proof.
  intros Hv Hp. unfold place_order. rewrite Hv.
  assert (price_number p = NaN) as Hn by (unfold price_number; by rewrite Hp).
  destruct (crosses_book st p); [by eexists |].
  destruct (symbols st !! p_symbol_id p) as [symRow|]; [| by eexists].
  destruct (check_resources _ _ _ _) as [e|] eqn:He.
  { exists e. split; [done |].
    apply check_resources_error in He as [-> | ->]; done. }
  destruct (reserve _ _ _ _) as [st0|]; simpl; [| by eexists].
  case_bool_decide.
  - pose proof (validate_inr _ _ Hv) as (_ & _ & _ & _ & Hnl).
    rewrite Hnl in Hp; [done |]. congruence.
  - unfold limit_order, insert_order. rewrite Hn. simpl. by eexists.
Qed.

(** C10.  A submission whose type field is absent or the empty string is
    not rejected for the missing field: the type is normalized to 'limit',
    the submission is processed exactly as the same submission with type
    'limit', and so it still requires a positive price: without a price,
    or with one at or below zero, it is rejected as invalid; with one that
    is no number it is rejected as well, though not as invalid once the
    other fields are in order (a statement raises on it); and with one of
    a cent or more it passes the input checks as a limit order.  A price supplied with a
    type that reads 'market' is discarded (set to null): the submission
    passes the input checks as a market order without a price, and is
    processed exactly as the same submission without a price. *)
Theorem missing_type_is_limit st userId body :
  normalizeType None = "limit"
  ∧ normalizeType (Some "") = "limit"
  ∧ normalizeType (Some "market") = "market"
  ∧ (body_type body = None ∨ body_type body = Some "" →
     (* processed as a limit order *)
     place_order st userId body
     = place_order st userId
         (mk_request (body_symbol_id body) (body_side body) (body_price body)
                     (body_quantity body) (Some "limit"))
     ∧ (∀ p, validate body = inr p →
             p_type p = "limit"
             ∧ ∃ v, body_price body = Some v
                    ∧ p_price p = Some (Number v)
                    ∧ js_le (Number v) (Finite 0) = false)
     (* a positive price is still required *)
     ∧ (body_price body = None
        ∨ (∃ m e, body_price body = Some (numeral m e)
                  ∧ (decimal m e <= 0)%Q) →
        place_order st userId body = (Rejected INVALID_INPUT, st))
     ∧ (body_price body = Some non_numeric →
        ∃ e, place_order st userId body = (Rejected e, st)
             ∧ (∀ p, validate body = inr p → e ≠ INVALID_INPUT))
     (* with the other fields in order the input checks pass *)
     ∧ (∀ sid s sd q m e,
          body_symbol_id body = Some sid → sid ≠ 0 →
          body_side body = Some s → parse_side (toLowerCase s) = Some sd →
          body_quantity body = Some q → 0 < q →
          body_price body = Some (numeral m e) → (1 # 100 <= decimal m e)%Q →
          validate body
          = inr (mk_params sid sd "limit" (Some (Number (numeral m e))) q)))
  ∧ (normalizeType (body_type body) = "market" →
     place_order st userId body
     = place_order st userId
         (mk_request (body_symbol_id body) (body_side body) None
                     (body_quantity body) (body_type body))
     ∧ (∀ p, validate body = inr p → p_type p = "market" ∧ p_price p = None)
     ∧ (∀ sid s sd q,
          body_symbol_id body = Some sid → sid ≠ 0 →
          body_side body = Some s → parse_side (toLowerCase s) = Some sd →
          body_quantity body = Some q → 0 < q →
          validate body = inr (mk_params sid sd "market" None q))).
Proof.
  split; [done |]. split; [done |]. split; [done |]. split.
  - intros Hty.
    assert (normalizeType (body_type body) = "limit") as Hn
      by (by destruct Hty as [-> | ->]).
    split; [| split; [| split; [| split]]].
    + apply place_order_validate. unfold validate; simpl. by rewrite Hn.
    + intros p Hv. apply validate_inr in Hv as (_ & _ & Ht & Hl & _).
      rewrite Hn in Ht. split; [done |]. by apply Hl.
    + intros Hbad. unfold place_order.
      assert (validate body = inl INVALID_INPUT) as ->; [| done].
      unfold validate. rewrite Hn.
      destruct (body_symbol_id body); [| done].
      destruct (toLowerCase <$> body_side body); [| done].
      destruct (body_quantity body); [| done].
      case_bool_decide; [done |]. destruct (parse_side _); [| done].
      rewrite bool_decide_eq_true_2 by done.
      destruct Hbad as [-> | (m & e & -> & Hle)]; [done |].
      by rewrite Number_nonpositive.
    + intros Hnan.
      destruct (validate body) as [e|p] eqn:Hv.
      * exists e. unfold place_order. rewrite Hv. split; [done |].
        intros p. discriminate.
      * destruct (place_order_NaN st userId body p Hv) as (e & He & Hne).
        { pose proof (validate_inr _ _ Hv) as (_ & _ & Ht & Hl & _).
          rewrite Hn in Ht. destruct (Hl Ht) as (v & Hbv & -> & _).
          rewrite Hnan in Hbv. by injection Hbv as <-. }
        exists e. by split.
    + intros sid s sd q m e Hsid Hnz Hs Hsd Hq Hqpos Hp Hppos.
      unfold validate. rewrite Hn, Hsid, Hs, Hq, Hp; simpl.
      rewrite bool_decide_eq_false_2.
      * rewrite Hsd. fold (Number (numeral m e)).
        by rewrite (Number_cent m e Hppos).
      * intros [? | [Hemp | [? | ?]]]; try lia.
        rewrite Hemp in Hsd. done.
  - intros Hn. split; [| split].
    + apply place_order_validate. unfold validate; simpl. rewrite Hn.
      destruct (body_symbol_id body); [| done].
      destruct (toLowerCase <$> body_side body); [| done].
      destruct (body_quantity body); [| done].
      case_bool_decide; [done |]. by destruct (parse_side _).
    + intros p Hv. apply validate_inr in Hv as (_ & _ & Ht & _ & Hnl).
      rewrite Hn in Ht. split; [done |]. apply Hnl. by rewrite Ht.
    + intros sid s sd q Hsid Hnz Hs Hsd Hq Hqpos.
      unfold validate. rewrite Hn, Hsid, Hs, Hq; simpl.
      rewrite bool_decide_eq_false_2.
      * by rewrite Hsd.
      * intros [? | [Hemp | [? | ?]]]; try lia.
        rewrite Hemp in Hsd. done.
Qed.

(** A sell of [U1] without a type field and with the price 100.00 passes
    the input checks as a limit order and rests.  A market buy of [U2]
    that carries the price 1.00 passes them as a market order without a
    price, and buys 5 of the 10 that [U1] offers at 100.00. *)
Lemma missing_type_is_limit_witness :
  validate (mk_request (Some SYM) (Some "SELL") (Some (numeral 10000 (-2)))
              (Some 10) None)
  = inr (mk_params SYM sell "limit" (Some (Number (numeral 10000 (-2)))) 10)
  ∧ (place_order initial U1
       (mk_request (Some SYM) (Some "SELL") (Some (numeral 10000 (-2)))
          (Some 10) None)).1
    = OrderPlaced STATUS_OPEN []
  ∧ place_order initial U2
      (mk_request (Some SYM) (Some "buy") (Some non_numeric) (Some 5) None)
    = (Rejected INTERNAL, initial)
  ∧ validate (mk_request (Some SYM) (Some "buy") (Some (numeral 100 (-2)))
                (Some 5) (Some "MARKET"))
    = inr (mk_params SYM buy "market" None 5)
  ∧ (place_order covered_sell_rested.2 U2
       (mk_request (Some SYM) (Some "buy") (Some (numeral 100 (-2)))
          (Some 5) (Some "MARKET"))).1
    = OrderPlaced STATUS_FILLED [mk_fill 10000 5].
Proof.
  destruct (missing_type_is_limit initial U1
              (mk_request (Some SYM) (Some "SELL") (Some (numeral 10000 (-2)))
                 (Some 10) None))
    as (_ & _ & _ & Hlimit & _).
  destruct (Hlimit (or_introl eq_refl)) as (Hsame & _ & _ & _ & Hok).
  destruct (missing_type_is_limit initial U2
              (mk_request (Some SYM) (Some "buy") (Some non_numeric)
                 (Some 5) None))
    as (_ & _ & _ & Hlimit' & _).
  destruct (Hlimit' (or_introl eq_refl)) as (_ & _ & _ & Hnan & _).
  destruct (Hnan eq_refl) as (e & Hrej & _).
  destruct (missing_type_is_limit covered_sell_rested.2 U2
              (mk_request (Some SYM) (Some "buy") (Some (numeral 100 (-2)))
                 (Some 5) (Some "MARKET")))
    as (_ & _ & _ & _ & Hmarket).
  destruct (Hmarket eq_refl) as (Hsame' & _ & Hok').
  split; [| split; [| split; [| split]]].
  - apply (Hok SYM "SELL" sell 10 10000 (-2));
      (reflexivity || lia || (vm_compute; congruence)).
  - rewrite Hsame. vm_compute. reflexivity.
  - rewrite Hrej. f_equal. revert Hrej. vm_compute. congruence.
  - apply (Hok' SYM "buy" buy 5);
      (reflexivity || lia || (vm_compute; congruence)).
  - rewrite Hsame'. vm_compute. reflexivity.
Defined.

(** ** Market orders *)

(** The market branch, read off the walk of its loop. *)
Lemma market_order_walk userId p symRow userCash st r st' :
  market_order userId p symRow userCash st = Some (r, st') →
  let ms := market_walk (p_side p) userCash (p_quantity p)
              (book_orders st (p_symbol_id p) (p_side p) None) in
  (ms = [] → r = Rejected NO_LIQUIDITY)
  ∧ (ms ≠ [] →
     r = OrderPlaced
           (if bool_decide (p_quantity p - filled ms = 0) then STATUS_FILLED
            else STATUS_PARTIAL)
           (fill_of <$> ms)
     ∧ trades st'
       = trades st ++ (market_trade userId (p_symbol_id p) (p_side p) <$> ms)).
Proof.
  unfold market_order.
  destruct (market_loop _ _ _ _ _ _ _ _) as [[[st1 rq] fills]|] eqn:Hl;
    simpl; [| done].
  apply market_loop_walk in Hl as (Hf & Htr & Hr).
  simpl in Hf, Htr, Hr. subst fills rq.
  case_bool_decide as Hnil; intros [= <- <-]; split.
  - done.
  - intros Hms. by destruct (market_walk _ _ _ _).
  - intros Hms. by rewrite Hms in Hnil.
  - intros _. split; [done |].
    simpl. by rewrite trades_stamp_last_trade.
Qed.

Lemma reserve_market userId p userPos st :
  p_type p = "market" → reserve userId p userPos st = Some st.
Proof. intros Ht. unfold reserve. by rewrite Ht. Qed.

(** A validated market order that passed the resource checks runs the
    market branch on the store it was submitted to. *)
Lemma place_order_market st userId body p symRow :
  validate body = inr p → p_type p = "market" →
  symbols st !! p_symbol_id p = Some symRow →
  check_resources p symRow (parseFloat (get_cash st userId))
    (get_position st userId (p_symbol_id p)) = None →
  place_order st userId body
  = transaction st
      (market_order userId p symRow (parseFloat (get_cash st userId)) st).
Proof.
  intros Hv Ht Hs Hc. unfold place_order. rewrite Hv.
  rewrite reserve_market by done.
  unfold crosses_book. rewrite Ht; simpl. by rewrite Hs, Hc.
Qed.

Lemma owners_exist_Forall st :
  Forall (λ o, is_Some (users st !! ord_user_id o)) (orders st) →
  owners_exist st.
Proof. intros H o Ho. by eapply Forall_forall in H. Qed.

(** A market order over a store with its foreign keys is answered by its
    walk. *)
Lemma place_order_market_walk st userId body p symRow :
  validate body = inr p → p_type p = "market" →
  symbols st !! p_symbol_id p = Some symRow →
  check_resources p symRow (parseFloat (get_cash st userId))
    (get_position st userId (p_symbol_id p)) = None →
  is_Some (users st !! userId) → owners_exist st →
  let ms := market_walk (p_side p) (parseFloat (get_cash st userId))
              (p_quantity p)
              (book_orders st (p_symbol_id p) (p_side p) None) in
  (ms = [] → place_order st userId body = (Rejected NO_LIQUIDITY, st))
  ∧ (ms ≠ [] →
     ∃ st',
       place_order st userId body
       = (OrderPlaced
            (if bool_decide (p_quantity p - filled ms = 0) then STATUS_FILLED
             else STATUS_PARTIAL)
            (fill_of <$> ms), st')
       ∧ trades st'
         = trades st
           ++ (market_trade userId (p_symbol_id p) (p_side p) <$> ms)).
Proof.
  intros Hv Ht Hs Hc Hu Hown ms.
  rewrite (place_order_market _ _ _ _ _ Hv Ht Hs Hc).
  destruct (market_loop_total userId (p_symbol_id p) (p_side p)
              (book_orders st (p_symbol_id p) (p_side p) None) st
              (p_quantity p) (parseFloat (get_cash st userId)) [] Hu)
    as [res Hres].
  { intros o Ho. apply Hown.
    by apply elem_of_book_orders in Ho as (? & _). }
  destruct (market_order userId p symRow _ st) as [[r st']|] eqn:Hm.
  - destruct (market_order_walk _ _ _ _ _ _ _ Hm) as [Hnil Hok].
    fold ms in Hnil, Hok. split.
    + intros Hms. by rewrite (Hnil Hms).
    + intros Hms. destruct (Hok Hms) as [-> Htr]. by exists st'.
  - unfold market_order in Hm. rewrite Hres in Hm.
    simpl in Hm. destruct res as [[? ?] ?]. by case_bool_decide.
Qed.


(** ** Price-time priority *)

Lemma prefix_sizes {A} (ms ms' : list A) i m :
  ms `prefix_of` ms' → ms !! i = Some m →
  ms' !! i = Some m ∧ take i ms' = take i ms.
Proof.
  intros [k ->] H. split; [by apply lookup_app_l_Some |].
  apply take_app_le. apply lookup_lt_Some in H. lia.
Qed.

(** C6.  Matching walks the opposite-side OPEN resting orders in
    price-time priority.  The candidates of a taker are exactly the OPEN
    orders of the symbol on the opposite side that its bound reaches
    (price at most the bound for a buyer, at least the bound for a seller,
    all of them for a market order), sorted by ascending price and then
    ascending id for a buyer, by descending price and then ascending id
    for a seller; of two candidates at one price the one with the smaller
    id comes first.  The walk over the candidates takes them in that
    order, from the first on with none skipped, each fill of quantity
    min(residual, maker's remaining quantity).  Over a store in which the
    taker and the owners of the candidates exist each of the three loops
    returns: the loops of a limit order make the fills of the walk, the
    loop of a market order makes them from the first on up to the one
    where a buyer's cash check stops it, and all of them for a seller;
    the entries pushed and the rows appended to the trades table are
    those fills in the same order.  An accepted market order answers with
    such fills, and a market sell over a store with its foreign keys is
    accepted whenever a candidate exists. *)
Theorem price_time_priority st sid sd bound :
  let candidates := book_orders st sid sd bound in
  (* which rows, and in which order *)
  (∀ o, o ∈ candidates
        ↔ o ∈ orders st ∧ ord_symbol_id o = sid ∧ ord_side o = opposite sd
          ∧ ord_status o = OPEN ∧ crosses sd bound o)
  ∧ StronglySorted (priority sd) candidates
  ∧ (∀ o1 o2, o1 ∈ candidates → o2 ∈ candidates →
              ord_price o1 = ord_price o2 → ord_id o1 < ord_id o2 →
              ∃ l1 l2 l3, candidates = l1 ++ o1 :: l2 ++ o2 :: l3)
  (* the walk: no candidate skipped, each fill of the least of the
     residual and the maker's quantity *)
  ∧ (∀ cash r,
       let ms := matcher cash r candidates in
       (fst <$> ms) `prefix_of` candidates
       ∧ ∀ i m, ms !! i = Some m →
                0 < r - filled (take i ms)
                ∧ m.2 = Z.min (r - filled (take i ms)) (ord_quantity m.1))
  (* the three loops return, with fills of the walk in its order *)
  ∧ (∀ userId st1 r cash,
       0 ≤ r → is_Some (users st1 !! userId) →
       (∀ o, o ∈ candidates → is_Some (users st1 !! ord_user_id o)) →
       ∃ res ms,
         market_loop userId sid sd candidates st1 r cash [] = Some res
         ∧ loop_agrees (market_trade userId sid sd) st1 r [] ms res
         ∧ ms `prefix_of` matcher None r candidates
         ∧ (sd = sell → ms = matcher None r candidates))
  ∧ (sd = buy →
     ∀ userId newOrderId st1 r,
       0 ≤ r → is_Some (users st1 !! userId) →
       (∀ o, o ∈ candidates → is_Some (users st1 !! ord_user_id o)) →
       ∃ res,
         limit_buy_loop userId sid newOrderId candidates st1 r [] = Some res
         ∧ loop_agrees (limit_buy_trade userId sid newOrderId) st1 r []
             (matcher None r candidates) res)
  ∧ (sd = sell →
     ∀ userId newOrderId st1 r,
       0 ≤ r → is_Some (users st1 !! userId) →
       (∀ o, o ∈ candidates → is_Some (users st1 !! ord_user_id o)) →
       ∃ res,
         limit_sell_loop userId sid newOrderId candidates st1 r [] = Some res
         ∧ loop_agrees (limit_sell_trade userId sid newOrderId) st1 r []
             (matcher None r candidates) res)
  (* an accepted market order trades fills of the walk *)
  ∧ (∀ userId body p status fills st',
       validate body = inr p → p_type p = "market" →
       p_symbol_id p = sid → p_side p = sd → bound = None →
       place_order st userId body = (OrderPlaced status fills, st') →
       ∃ ms,
         ms ≠ []
         ∧ ms `prefix_of` matcher None (p_quantity p) candidates
         ∧ (sd = sell → ms = matcher None (p_quantity p) candidates)
         ∧ fills = fill_of <$> ms
         ∧ trades st' = trades st ++ (market_trade userId sid sd <$> ms))
  (* a market sell that finds a candidate is accepted *)
  ∧ (∀ userId body p symRow,
       validate body = inr p → p_type p = "market" →
       p_symbol_id p = sid → p_side p = sd → bound = None → sd = sell →
       symbols st !! sid = Some symRow →
       check_resources p symRow (parseFloat (get_cash st userId))
         (get_position st userId sid) = None →
       is_Some (users st !! userId) → owners_exist st →
       candidates ≠ [] →
       ∃ status st',
         place_order st userId body
         = (OrderPlaced status
              (fill_of <$> matcher None (p_quantity p) candidates), st')).
Proof.
  intros candidates.
  split; [intros o; apply elem_of_book_orders |].
  split; [apply book_orders_sorted |].
  split; [intros o1 o2; apply (sorted_tie_break sd), book_orders_sorted |].
  split; [intros cash r ms; split;
          [apply matcher_prefix | intros i m; apply matcher_sizes] |].
  split; [| split; [| split; [| split]]].
  - intros userId st1 r cash Hr Hu Hown.
    destruct (market_loop_total userId sid sd candidates st1 r cash [] Hu Hown)
      as [res Hres].
    exists res, (market_walk sd cash r candidates).
    split; [done |]. split; [by apply market_loop_walk |].
    split; [by apply market_walk_prefix |].
    intros ->. by apply market_walk_sell.
  - intros _ userId newOrderId st1 r Hr Hu Hown.
    destruct (limit_buy_loop_total userId sid newOrderId candidates st1 r []
                Hu Hown) as [res Hres].
    exists res. split; [done |]. by apply limit_buy_loop_matcher.
  - intros _ userId newOrderId st1 r Hr Hu Hown.
    destruct (limit_sell_loop_total userId sid newOrderId candidates st1 r []
                Hu Hown) as [res Hres].
    exists res. split; [done |]. by apply limit_sell_loop_matcher.
  - intros userId body p status fills st' Hv Ht Hsid Hsd Hb Hpo.
    pose proof (validate_inr _ _ Hv) as (Hq & _).
    unfold place_order in Hpo. rewrite Hv in Hpo.
    destruct (crosses_book st p); [done |].
    destruct (symbols st !! p_symbol_id p) as [symRow|]; [| done].
    destruct (check_resources _ _ _ _); [done |].
    rewrite reserve_market in Hpo by done. simpl in Hpo.
    rewrite bool_decide_eq_true_2 in Hpo by done.
    destruct (market_order _ _ _ _ _) as [[r st1]|] eqn:Hm; [| done].
    pose proof (market_order_walk _ _ _ _ _ _ _ Hm) as [Hnil Hok].
    rewrite Hsid, Hsd in Hnil, Hok. subst bound. fold candidates in Hnil, Hok.
    set (ms := market_walk sd _ _ candidates) in *.
    exists ms. destruct (decide (ms = [])) as [Hms | Hms].
    + rewrite (Hnil Hms) in Hpo. done.
    + destruct (Hok Hms) as [-> Htr]. simpl in Hpo.
      injection Hpo as <- <- <-.
      split; [done |]. split; [apply market_walk_prefix; lia |].
      split; [| done]. intros ->. apply market_walk_sell. lia.
  - intros userId body p symRow Hv Ht Hsid Hsd Hb -> Hs Hc Hu Hown Hne.
    pose proof (validate_inr _ _ Hv) as (Hq & _).
    subst sid bound.
    destruct (place_order_market_walk st userId body p symRow Hv Ht Hs Hc
                Hu Hown) as [_ Hok].
    rewrite Hsd in Hok. fold candidates in Hok.
    rewrite market_walk_sell in Hok by lia.
    destruct Hok as (st' & Hpo & _).
    + unfold candidates in *.
      destruct (book_orders st (p_symbol_id p) sell None); [done |].
      simpl. by rewrite bool_decide_eq_true_2.
    + eauto.
Qed.

(** Among the two asks of [U1] at 100.00 the one with the smaller id is
    first in the book, and a market buy of 4 by [U2] takes 3 from it and 1
    from the other. *)
Lemma price_time_priority_witness :
  (∃ l1 l2 l3,
     book_orders tied_asks SYM buy None
     = l1 ++ mk_order 1 U1 SYM sell 10000 3 OPEN
          :: l2 ++ mk_order 2 U1 SYM sell 10000 5 OPEN :: l3)
  ∧ (place_order tied_asks U2 (market_request "buy" 4)).1
    = OrderPlaced STATUS_FILLED [mk_fill 10000 3; mk_fill 10000 1]
  ∧ ∃ ms,
      ms `prefix_of` matcher None 4 (book_orders tied_asks SYM buy None)
      ∧ [mk_fill 10000 3; mk_fill 10000 1] = fill_of <$> ms
      ∧ trades (place_order tied_asks U2 (market_request "buy" 4)).2
        = trades tied_asks ++ (market_trade U2 SYM buy <$> ms).
Proof.
  destruct (price_time_priority tied_asks SYM buy None)
    as (_ & _ & Htie & _ & _ & _ & _ & Hmarket & _).
  split.
  - apply Htie; try (vm_compute; reflexivity).
    + apply list_elem_of_In. vm_compute. auto.
    + apply list_elem_of_In. vm_compute. auto.
  - assert ((place_order tied_asks U2 (market_request "buy" 4)).1
            = OrderPlaced STATUS_FILLED [mk_fill 10000 3; mk_fill 10000 1])
      as Hr by (vm_compute; reflexivity).
    split; [exact Hr |].
    destruct (Hmarket U2 (market_request "buy" 4)
                (mk_params SYM buy "market" None 4) STATUS_FILLED
                [mk_fill 10000 3; mk_fill 10000 1]
                (place_order tied_asks U2 (market_request "buy" 4)).2)
      as (ms & _ & Hpre & _ & Hf & Htr); [vm_compute; reflexivity .. |].
    exists ms. by repeat split.
Defined.

(** ** Burning shares *)

(** C8, as the code has it.  A manager's burn of a positive [qty] of an
    existing symbol is refused when the manager has no position row for
    the symbol or holds fewer than [qty]; [outstanding_shares] is not
    consulted.  An accepted burn subtracts [qty] from the manager's
    position and from the symbol's [outstanding_shares] and changes
    nothing else. *)
Theorem burn_checks_position_only st userId symbolId qty sym :
  0 < qty →
  symbols st !! symbolId = Some sym →
  (positions st !! (userId, symbolId) = None
   ∨ (∃ held, positions st !! (userId, symbolId) = Some held ∧ held < qty) →
   burn st userId manager symbolId qty = (Rejected INSUFFICIENT_SHARES, st))
  ∧ (∀ held,
       positions st !! (userId, symbolId) = Some held → qty ≤ held →
       ∃ st',
         burn st userId manager symbolId qty = (Burned, st')
         ∧ positions st' !! (userId, symbolId) = Some (held - qty)
         ∧ symbols st' !! symbolId
           = Some (mk_symbol (outstanding_shares sym - qty)
                             (last_price sym) (prev_price sym))
         ∧ (∀ k, k ≠ (userId, symbolId) →
                 positions st' !! k = positions st !! k)
         ∧ (∀ k, k ≠ symbolId → symbols st' !! k = symbols st !! k)
         ∧ users st' = users st
         ∧ orders st' = orders st
         ∧ trades st' = trades st).
Proof.
  intros Hq Hs. unfold burn. simpl.
  rewrite bool_decide_eq_false_2 by lia. rewrite Hs. split.
  - intros [-> | (held & -> & Hlt)]; [done |].
    by rewrite bool_decide_eq_true_2.
  - intros held Hp Hle. rewrite Hp, bool_decide_eq_false_2 by lia.
    eexists. split; [done |]. simpl.
    rewrite !lookup_alter, !decide_True, Hp, Hs by done. simpl.
    repeat split; try done.
    + intros k Hk. rewrite lookup_alter. by rewrite decide_False.
    + intros k Hk. rewrite lookup_alter. by rewrite decide_False.
Qed.

(** On the initial store the manager [U1] burns 40 of the 100 shares held:
    60 are left in the position and 60 outstanding. *)
Lemma burn_checks_position_only_witness :
  ∃ st',
    burn initial U1 manager SYM 40 = (Burned, st')
    ∧ positions st' !! (U1, SYM) = Some 60
    ∧ symbols st' !! SYM = Some (mk_symbol 60 None None).
Proof.
  destruct (burn_checks_position_only initial U1 SYM 40
              (mk_symbol 100 None None)) as [_ H];
    [lia | vm_compute; reflexivity |].
  destruct (H 100) as (st' & Hb & Hp & Hs & _);
    [vm_compute; reflexivity | lia |].
  exists st'. split; [exact Hb |]. split; [exact Hp | exact Hs].
Defined.

(** Against C8 as stated: after [U2] sold 5 shares short to the manager
    [U1], the manager holds 105 shares of the 100 outstanding; the burn
    of 105 is not refused although 100 < 105, and it leaves -5 shares
    outstanding. *)
Lemma burn_exceeds_outstanding :
  outstanding_shares <$> symbols manager_long !! SYM = Some 100
  ∧ positions manager_long !! (U1, SYM) = Some 105
  ∧ (burn manager_long U1 manager SYM 105).1 = Burned
  ∧ outstanding_shares
      <$> symbols (burn manager_long U1 manager SYM 105).2 !! SYM
    = Some (-5).
Proof. vm_compute. repeat split. Qed.

(** ** Where the code departs from the specification *)

(** C1 at the scenario S5.  [U1] rests a buy limit 5 @ 90.00 (450.00 is
    reserved) and sells 5 at market into it.  The trade is recorded at the
    maker's price, the last price is stamped and the position of [U1] is
    back at 100, but the cash of [U1] stays 450.00 short: the market leg
    credits and debits 450.00 and the reservation is not returned. *)
Theorem self_trade_keeps_reservation :
  get_cash initial U1 = 1000000
  ∧ get_cash self_trade_rested U1 = 1000000 - 9000 * 5
  ∧ self_trade_crossed.1 = OrderPlaced STATUS_FILLED [mk_fill 9000 5]
  ∧ get_cash self_trade_crossed.2 U1 = 1000000 - 9000 * 5
  ∧ get_position self_trade_crossed.2 U1 SYM = get_position initial U1 SYM
  ∧ trades self_trade_crossed.2
    = [mk_trade SYM 9000 5 (Some 1) None U1 U1 sell]
  ∧ symbols self_trade_crossed.2 !! SYM
    = Some (mk_symbol 100 (Some 9000) (Some 9000))
  ∧ orders self_trade_crossed.2 = [mk_order 1 U1 SYM buy 9000 0 FILLED].
Proof. vm_compute. repeat split. Qed.

(** C2 on a concrete life cycle.  [U2] rests a buy limit 10 @ 100.00
    (1,000.00 reserved), is filled for 3 and for 4 at 100.00 by market
    sells, and cancels the residual 3 (300.00 credited).  Whatever the
    order of the two fills, the cash of [U2] ends 1,400.00 lower, twice
    the 700.00 traded: each fill debits the maker again. *)
Theorem buy_lifecycle_pays_twice :
  get_cash initial U2 = 1000000
  ∧ get_cash lifecycle_rested U2 = 1000000 - 10000 * 10
  ∧ (lifecycle_cancelled 3 4).1 = OrderCancelled
  ∧ get_cash (lifecycle_cancelled 3 4).2 U2 - get_cash initial U2
    = - 2 * (10000 * 3 + 10000 * 4)
  ∧ (lifecycle_cancelled 4 3).1 = OrderCancelled
  ∧ get_cash (lifecycle_cancelled 4 3).2 U2 - get_cash initial U2
    = - 2 * (10000 * 4 + 10000 * 3)
  ∧ trd_price <$> trades (lifecycle_cancelled 3 4).2 = [10000; 10000]
  ∧ trd_quantity <$> trades (lifecycle_cancelled 3 4).2 = [3; 4].
Proof. vm_compute. repeat split. Qed.

(** C3 on a concrete run.  Every balance of the initial store is
    non-negative.  [U2] rests a buy limit 100 @ 100.00 with all of their
    cash (balance 0.00); the market sell of 100 by [U1] is accepted and
    debits the resting buyer once more: the balance of [U2] is
    -10,000.00 after the commit. *)
Theorem maker_balance_goes_negative :
  map_Forall (λ _ cash, 0 ≤ cash) (users initial)
  ∧ get_cash all_in_rested U2 = 0
  ∧ all_in_filled.1 = OrderPlaced STATUS_FILLED [mk_fill 10000 100]
  ∧ get_cash all_in_filled.2 U2 = -1000000.
Proof.
  split; [| vm_compute; repeat split].
  apply map_Forall_to_list, (bool_decide_unpack _). vm_compute. exact I.
Qed.

(** C4 on a concrete run.  [U1] holds 100 shares and rests a sell limit
    10 @ 100.00: the order is covered and nothing is reserved.  Its
    cancellation credits price x quantity = 1,000.00 all the same. *)
Theorem covered_sell_cancel_pays :
  get_position initial U1 SYM = 100
  ∧ covered_sell_rested.1 = OrderPlaced STATUS_OPEN []
  ∧ get_cash covered_sell_rested.2 U1 = get_cash initial U1
  ∧ covered_sell_cancelled.1 = OrderCancelled
  ∧ get_cash covered_sell_cancelled.2 U1 = get_cash initial U1 + 10000 * 10.
Proof. vm_compute. repeat split. Qed.

(** ** Deciding the invariants on a concrete store *)

Lemma ids_fresh_decide st :
  Forall (λ o, ord_id o < orders_auto_increment st) (orders st) →
  NoDup (ord_id <$> orders st) →
  ids_fresh st.
Proof. intros Hlt Hnd. split; [| done]. by apply Forall_forall. Qed.

Lemma uncrossed_decide st :
  Forall (λ b, Forall (λ a,
     ord_symbol_id b = ord_symbol_id a → ord_side b = buy →
     ord_side a = sell → ord_status b = OPEN → ord_status a = OPEN →
     ord_price b < ord_price a) (orders st)) (orders st) →
  uncrossed st.
Proof.
  intros H b a Hb Ha. eapply Forall_forall in H; [| exact Hb].
  eapply Forall_forall in H; [| exact Ha]. exact H.
Qed.

Lemma float_matches_decide st :
  map_Forall (λ sid sym, shares_held st sid = outstanding_shares sym)
    (symbols st) →
  float_matches st.
Proof. done. Qed.

Ltac decide_by_evaluation := apply (bool_decide_unpack _); vm_compute; exact I.

Lemma ids_fresh_two_asks : ids_fresh two_asks.
Proof. apply ids_fresh_decide; decide_by_evaluation. Qed.

Lemma ids_fresh_initial : ids_fresh initial.
Proof. apply ids_fresh_decide; decide_by_evaluation. Qed.

Lemma float_matches_initial : float_matches initial.
Proof.
  apply float_matches_decide, map_Forall_to_list. decide_by_evaluation.
Qed.

(** ** Sums over a table *)

Section msum.
Context `{Countable K} {A : Type} (w : K → A → Z).
Implicit Types m : gmap K A.

Lemma msum_empty : msum w (∅ : gmap K A) = 0.
Proof. unfold msum. by rewrite map_fold_empty. Qed.

Lemma msum_insert_None m k v :
  m !! k = None → msum w (<[k:=v]> m) = w k v + msum w m.
Proof.
  intros Hk. unfold msum. rewrite map_fold_insert_L; [done | | done].
  intros. lia.
Qed.

Lemma msum_delete m k v :
  m !! k = Some v → msum w m = w k v + msum w (delete k m).
Proof.
  intros Hk. rewrite <- (insert_delete_id m k v) at 1 by done.
  apply msum_insert_None, lookup_delete_eq.
Qed.

Lemma msum_insert m k v :
  msum w (<[k:=v]> m)
  = msum w m + w k v - from_option (w k) 0 (m !! k).
Proof.
  destruct (m !! k) as [v0|] eqn:Hk; simpl.
  - rewrite (msum_delete m k v0) by done.
    rewrite <- insert_delete_eq.
    rewrite msum_insert_None by apply lookup_delete_eq. lia.
  - rewrite msum_insert_None by done. lia.
Qed.

Lemma msum_alter m k g :
  msum w (alter g k m)
  = msum w m + from_option (λ v, w k (g v) - w k v) 0 (m !! k).
Proof.
  destruct (m !! k) as [v0|] eqn:Hk; simpl.
  - rewrite <- (insert_id m k v0) at 1 by done.
    rewrite alter_insert_eq, msum_insert, Hk. simpl. lia.
  - assert (alter g k m = m) as ->; [| lia].
    apply map_eq. intros j. rewrite lookup_alter.
    case_decide; subst; by rewrite ?Hk.
Qed.

Lemma msum_filter (P : K * A → Prop) `{∀ x, Decision (P x)} m :
  (∀ k v, m !! k = Some v → ¬ P (k, v) → w k v = 0) →
  msum w (filter P m) = msum w m.
Proof.
  induction m as [|k v m Hk IH] using map_ind; intros Hz.
  { by rewrite map_filter_empty. }
  assert (msum w (filter P m) = msum w m) as IH'.
  { apply IH. intros j x Hj. apply Hz. rewrite lookup_insert_ne; [done |].
    intros ->. congruence. }
  destruct (decide (P (k, v))) as [HP | HP].
  - rewrite map_filter_insert_True by done.
    rewrite !msum_insert_None; [lia | done |].
    by rewrite map_lookup_filter_None_2; [| left].
  - rewrite map_filter_insert_not' by (done || by rewrite Hk).
    rewrite msum_insert_None by done.
    rewrite (Hz k v); [lia | apply lookup_insert_eq | done].
Qed.
End msum.

(** ** Cash and shares under the statements *)

Lemma total_cash_credit uid amount st :
  total_cash (credit_cash uid amount st)
  = total_cash st + (if bool_decide (is_Some (users st !! uid)) then amount else 0).
Proof.
  unfold total_cash, credit_cash; simpl. rewrite msum_alter.
  destruct (users st !! uid) as [c|] eqn:Hc; simpl; lia.
Qed.

Lemma total_cash_debit uid amount st :
  total_cash (debit_cash uid amount st)
  = total_cash st - (if bool_decide (is_Some (users st !! uid)) then amount else 0).
Proof.
  unfold debit_cash. rewrite total_cash_credit. case_bool_decide; lia.
Qed.

Lemma dom_users_credit uid amount st :
  dom (users (credit_cash uid amount st)) = dom (users st).
Proof. apply dom_alter_L. Qed.

Lemma shares_held_adjust uid sid delta st sid' :
  shares_held (adjust_position uid sid delta st) sid'
  = shares_held st sid' + (if bool_decide (sid = sid') then delta else 0).
Proof.
  unfold shares_held, adjust_position; simpl. rewrite msum_insert; simpl.
  destruct (positions st !! (uid, sid)) as [q0|]; simpl;
    case_bool_decide; lia.
Qed.

Lemma shares_held_delete_zero st sid :
  shares_held (delete_zero_positions st) sid = shares_held st sid.
Proof.
  unfold shares_held, delete_zero_positions; simpl.
  apply msum_filter. intros k v _ Hv; simpl in Hv.
  assert (v = 0) as -> by (destruct (decide (v = 0)); [done | by destruct Hv]).
  by case_bool_decide.
Qed.

Lemma get_position_delete_zero st uid sid :
  get_position (delete_zero_positions st) uid sid = get_position st uid sid.
Proof.
  unfold get_position, delete_zero_positions; simpl.
  destruct (positions st !! (uid, sid)) as [q|] eqn:Hq; simpl.
  - destruct (decide (q = 0)) as [-> | Hne].
    + rewrite map_lookup_filter_None_2; [done |]. right. intros x Hx.
      rewrite Hq in Hx. injection Hx as <-. simpl. tauto.
    + by erewrite map_lookup_filter_Some_2.
  - rewrite map_lookup_filter_None_2; [done | by left].
Qed.

(** ** One fill of the market loop *)

Section market_settle.
Context (userId sid : Z) (sd : Side).
Implicit Types (st : db) (m : order * Z).

Lemma dom_users_market_settle st m :
  dom (users (market_settle userId sid sd st m)) = dom (users st).
Proof.
  unfold market_settle. destruct sd; simpl; by rewrite !dom_alter_L.
Qed.

Lemma users_market_settle st m k :
  is_Some (users (market_settle userId sid sd st m) !! k)
  ↔ is_Some (users st !! k).
Proof. by rewrite <- !elem_of_dom, dom_users_market_settle. Qed.

Lemma trades_market_settle st m :
  trades (market_settle userId sid sd st m)
  = trades st ++ [market_trade userId sid sd m].
Proof. unfold market_settle. by destruct sd. Qed.

Lemma symbols_market_settle st m :
  symbols (market_settle userId sid sd st m) = symbols st.
Proof. unfold market_settle. by destruct sd. Qed.

Lemma counter_market_settle st m :
  orders_auto_increment (market_settle userId sid sd st m)
  = orders_auto_increment st.
Proof. unfold market_settle. by destruct sd. Qed.

Lemma orders_market_settle st m :
  orders (market_settle userId sid sd st m)
  = set_order (ord_id m.1) (ord_quantity m.1 - m.2)
      (maker_status (ord_quantity m.1 - m.2)) <$> orders st.
Proof. unfold market_settle. by destruct sd. Qed.

Lemma shares_held_market_settle st m sid' :
  shares_held (market_settle userId sid sd st m) sid' = shares_held st sid'.
Proof.
  unfold market_settle. destruct sd; rewrite !shares_held_adjust;
    unfold shares_held; simpl; case_bool_decide; lia.
Qed.

Lemma total_cash_market_settle st m :
  is_Some (users st !! userId) → is_Some (users st !! ord_user_id m.1) →
  total_cash (market_settle userId sid sd st m) = total_cash st.
Proof.
  intros Hu Hm. unfold market_settle. destruct sd.
  - transitivity (total_cash
      (credit_cash (ord_user_id m.1) (ord_price m.1 * m.2)
         (debit_cash userId (ord_price m.1 * m.2) st))); [reflexivity |].
    rewrite total_cash_credit, total_cash_debit.
    rewrite (bool_decide_eq_true_2 (is_Some (users st !! _))) by done.
    rewrite bool_decide_eq_true_2 by (by apply users_credit_cash).
    lia.
  - transitivity (total_cash
      (debit_cash (ord_user_id m.1) (ord_price m.1 * m.2)
         (credit_cash userId (ord_price m.1 * m.2) st))); [reflexivity |].
    rewrite total_cash_debit, total_cash_credit.
    rewrite (bool_decide_eq_true_2 (is_Some (users st !! _))) by done.
    rewrite bool_decide_eq_true_2 by (by apply users_credit_cash).
    lia.
Qed.
End market_settle.

Lemma insert_trade_users t st st1 :
  insert_trade t st = Some st1 →
  is_Some (users st !! trd_buy_user_id t)
  ∧ is_Some (users st !! trd_sell_user_id t).
Proof. unfold insert_trade. by case_bool_decide. Qed.

(** The market loop is the fold of the settlement of one fill over the
    fills of its walk; every trade row it inserted named users of the
    store. *)
Lemma market_loop_fold userId sid sd book :
  ∀ st r cash acc res,
    market_loop userId sid sd book st r cash acc = Some res →
    res.1.1 = foldl (market_settle userId sid sd) st
                (market_walk sd cash r book)
    ∧ Forall (λ m, is_Some (users st !! userId)
                   ∧ is_Some (users st !! ord_user_id m.1))
        (market_walk sd cash r book).
Proof.
  induction book as [|maker rest IH]; intros st r cash acc res H; simpl in H.
  { injection H as <-. by split. }
  simpl. case_bool_decide as H0.
  { injection H as <-. by split. }
  destruct (bool_decide (sd = buy) && js_lt cash _) eqn:Hg.
  { injection H as <-. by split. }
  destruct (insert_trade _ st) as [st1|] eqn:Hins; simpl in H; [| done].
  pose proof (insert_trade_users _ _ _ Hins) as Hex.
  apply insert_trade_Some in Hins. subst st1.
  assert (is_Some (users st !! userId)
          ∧ is_Some (users st !! ord_user_id maker)) as Hex'
    by (destruct sd; simpl in Hex; tauto).
  assert (∀ cash',
    market_loop userId sid sd rest
      (market_settle userId sid sd st (maker, Z.min r (ord_quantity maker)))
      (r - Z.min r (ord_quantity maker)) cash'
      (acc ++ [mk_fill (ord_price maker) (Z.min r (ord_quantity maker))])
    = Some res →
    res.1.1
    = foldl (market_settle userId sid sd) st
        ((maker, Z.min r (ord_quantity maker))
           :: market_walk sd cash' (r - Z.min r (ord_quantity maker)) rest)
    ∧ Forall (λ m, is_Some (users st !! userId)
                   ∧ is_Some (users st !! ord_user_id m.1))
        ((maker, Z.min r (ord_quantity maker))
           :: market_walk sd cash' (r - Z.min r (ord_quantity maker)) rest))
    as Hstep.
  { intros cash' Hl. apply IH in Hl as [Hst Hall].
    split; [done |]. constructor; [done |].
    eapply Forall_impl; [exact Hall |]. intros m. simpl.
    by rewrite !users_market_settle. }
  destruct sd; eapply Hstep; exact H.
Qed.

(** ** The outcomes of a submission *)

(** A submission ends in one of three ways: it is rejected and the store
    is unchanged; it is a market order that traded the fills of its walk;
    or it is an order that rests, untouched, in the book. *)
Lemma place_order_inv st userId body r st' :
  place_order st userId body = (r, st') →
  (∃ e, r = Rejected e ∧ st' = st)
  ∨ (∃ p symRow,
       validate body = inr p ∧ p_type p = "market"
       ∧ symbols st !! p_symbol_id p = Some symRow
       ∧ let ms := market_walk (p_side p) (parseFloat (get_cash st userId))
                     (p_quantity p)
                     (book_orders st (p_symbol_id p) (p_side p) None) in
         ms ≠ []
         ∧ Forall (λ m, is_Some (users st !! userId)
                        ∧ is_Some (users st !! ord_user_id m.1)) ms
         ∧ r = OrderPlaced
                 (if bool_decide (p_quantity p - filled ms = 0)
                  then STATUS_FILLED else STATUS_PARTIAL)
                 (fill_of <$> ms)
         ∧ st' = traded_store userId p symRow ms st)
  ∨ (∃ p symRow st0 st1 st2,
       validate body = inr p ∧ p_type p ≠ "market"
       ∧ crosses_book st p = false
       ∧ symbols st !! p_symbol_id p = Some symRow
       ∧ check_resources p symRow (parseFloat (get_cash st userId))
           (get_position st userId (p_symbol_id p)) = None
       ∧ reserve userId p (get_position st userId (p_symbol_id p)) st
         = Some st0
       ∧ insert_order userId (p_symbol_id p) (p_side p) (price_number p)
           (p_quantity p) st0
         = Some (orders_auto_increment st, st1)
       ∧ refund_reserved userId p (get_position st userId (p_symbol_id p))
           (p_quantity p) []
           (update_order_quantity (orders_auto_increment st) (p_quantity p) st1)
         = Some st2
       ∧ r = OrderPlaced STATUS_OPEN []
       ∧ st' = delete_zero_positions st2).
Proof.
  unfold place_order.
  destruct (validate body) as [e|p] eqn:Hv; [intros [= <- <-]; left; eauto |].
  pose proof (validate_inr _ _ Hv) as (Hq & _ & _ & Hlim & Hnolim).
  destruct (crosses_book st p) eqn:Hc; [intros [= <- <-]; left; eauto |].
  destruct (symbols st !! p_symbol_id p) as [symRow|] eqn:Hs;
    [| intros [= <- <-]; left; eauto].
  destruct (check_resources _ _ _ _) as [e|] eqn:Hr;
    [intros [= <- <-]; left; eauto |].
  destruct (reserve _ _ _ _) as [st0|] eqn:Hres; simpl;
    [| intros [= <- <-]; left; eauto].
  case_bool_decide as Ht.
  - rewrite reserve_market in Hres by done. injection Hres as <-.
    unfold market_order.
    destruct (market_loop _ _ _ _ _ _ _ _) as [res|] eqn:Hl; simpl;
      [| intros [= <- <-]; left; eauto].
    pose proof (market_loop_walk _ _ _ _ _ _ _ _ _ Hl) as (Hf & _ & Hrem).
    pose proof (market_loop_fold _ _ _ _ _ _ _ _ _ Hl) as (Hst & Hall).
    destruct res as [[st2 rq] fills]. simpl in Hf, Hrem, Hst. subst.
    case_bool_decide as Hnil; simpl.
    + intros [= <- <-]; left; eauto.
    + intros [= <- <-]. right; left. exists p, symRow.
      repeat split; try done.
      intros Hms. by rewrite Hms in Hnil.
  - unfold limit_order.
    destruct (insert_order _ _ _ _ _ _) as [[oid st1]|] eqn:Hins; simpl;
      [| intros [= <- <-]; left; eauto].
    assert (oid = orders_auto_increment st) as ->.
    { apply insert_order_frame in Hins as (_ & -> & _).
      by apply reserve_frame in Hres as (_ & _ & _ & _ & ? & _). }
    destruct (match p_price p with Some _ => _ | None => _ end)
      as [candidates|] eqn:Hcand; simpl; [| intros [= <- <-]; left; eauto].
    assert (candidates = []) as ->.
    { destruct (p_price p) as [price|] eqn:Hp; [| by injection Hcand as <-].
      destruct (decide (p_type p = "limit")) as [Hl | Hl];
        [| by specialize (Hnolim Hl)].
      destruct (Hlim Hl) as (v & _ & [= ->] & Hpos).
      destruct (sql_literal (Number v)) as [bound|] eqn:Hlit; [| done].
      simpl in Hcand. injection Hcand as <-.
      apply (uncrossed_no_candidates st st1 p v bound Hl Hp Hpos Hlit Hc).
      rewrite (open_orders_insert_order _ _ _ _ _ _ _ _ Hins).
      by eapply open_orders_reserve. }
    destruct (p_side p) eqn:Hsd; simpl;
      rewrite (bool_decide_eq_true_2 (0 < p_quantity p)) by done;
      rewrite (bool_decide_eq_false_2 (p_quantity p = 0)) by lia;
      rewrite (bool_decide_eq_false_2 (p_quantity p < p_quantity p)) by lia;
      (destruct (refund_reserved _ _ _ _ _ _) as [st2|] eqn:Href; simpl;
         [| intros [= <- <-]; left; eauto]);
      intros [= <- <-]; right; right; exists p, symRow, st0, st1, st2;
      rewrite Hsd; repeat split; done.
Qed.

Lemma shares_held_positions st st' sid :
  positions st' = positions st → shares_held st' sid = shares_held st sid.
Proof. unfold shares_held. by intros ->. Qed.

Lemma total_cash_users st st' :
  users st' = users st → total_cash st' = total_cash st.
Proof. unfold total_cash. by intros ->. Qed.

Section market_fold.
Context (userId sid : Z) (sd : Side).

Lemma shares_held_market_fold ms st sid' :
  shares_held (foldl (market_settle userId sid sd) st ms) sid'
  = shares_held st sid'.
Proof.
  revert st. induction ms as [|m ms IH]; intros st; simpl; [done |].
  by rewrite IH, shares_held_market_settle.
Qed.

Lemma symbols_market_fold ms st :
  symbols (foldl (market_settle userId sid sd) st ms) = symbols st.
Proof.
  revert st. induction ms as [|m ms IH]; intros st; simpl; [done |].
  by rewrite IH, symbols_market_settle.
Qed.

Lemma counter_market_fold ms st :
  orders_auto_increment (foldl (market_settle userId sid sd) st ms)
  = orders_auto_increment st.
Proof.
  revert st. induction ms as [|m ms IH]; intros st; simpl; [done |].
  by rewrite IH, counter_market_settle.
Qed.

Lemma trades_market_fold ms st :
  trades (foldl (market_settle userId sid sd) st ms)
  = trades st ++ (market_trade userId sid sd <$> ms).
Proof.
  revert st. induction ms as [|m ms IH]; intros st; simpl.
  { by rewrite app_nil_r. }
  by rewrite IH, trades_market_settle, <- app_assoc.
Qed.

Lemma users_market_fold ms st k :
  is_Some (users (foldl (market_settle userId sid sd) st ms) !! k)
  ↔ is_Some (users st !! k).
Proof.
  revert st. induction ms as [|m ms IH]; intros st; simpl; [done |].
  by rewrite IH, users_market_settle.
Qed.

Lemma total_cash_market_fold ms st :
  Forall (λ m, is_Some (users st !! userId)
               ∧ is_Some (users st !! ord_user_id m.1)) ms →
  total_cash (foldl (market_settle userId sid sd) st ms) = total_cash st.
Proof.
  revert st. induction ms as [|m ms IH]; intros st Hall; simpl; [done |].
  apply Forall_cons in Hall as [[Hu Hm] Hall].
  rewrite IH, total_cash_market_settle; [done.. |].
  eapply Forall_impl; [exact Hall |]. intros m'; simpl.
  by rewrite !users_market_settle.
Qed.
End market_fold.


(** The tables other than [users] and [orders] of an order that rests. *)
Lemma rested_frame userId p userPos st st0 st1 st2 oid :
  reserve userId p userPos st = Some st0 →
  insert_order userId (p_symbol_id p) (p_side p) (price_number p)
    (p_quantity p) st0 = Some (oid, st1) →
  refund_reserved userId p userPos (p_quantity p) []
    (update_order_quantity oid (p_quantity p) st1) = Some st2 →
  positions st2 = positions st ∧ symbols st2 = symbols st
  ∧ trades st2 = trades st
  ∧ orders_auto_increment st2 = orders_auto_increment st + 1
  ∧ dom (users st2) = dom (users st)
  ∧ ∀ k, k ≠ userId → users st2 !! k = users st !! k.
Proof.
  intros (Hp0 & Hs0 & _ & Ht0 & Hc0 & Hd0 & Hu0)%reserve_frame
         (_ & -> & Hu1 & Hp1 & Hs1 & Ht1 & _ & Hc1)%insert_order_frame
         (Hp2 & Hs2 & _ & Ht2 & Hc2 & Hd2 & Hu2)%refund_reserved_frame.
  simpl in *.
  rewrite Hp2, Hp1, Hp0, Hs2, Hs1, Hs0, Ht2, Ht1, Ht0, Hc2, Hc1, Hc0,
    Hd2, Hu1, Hd0.
  repeat split. intros k Hk. by rewrite Hu2, Hu1, Hu0.
Qed.

(** ** Conservation *)

(** Shares only change hands in a submission. *)
Lemma shares_held_place_order st userId body sid :
  shares_held (place_order st userId body).2 sid = shares_held st sid.
Proof.
  destruct (place_order st userId body) as [r st'] eqn:Hpo. simpl.
  apply place_order_inv in Hpo
    as [(e & _ & ->) | [(p & symRow & _ & _ & _ & Hm)
                       | (p & symRow & st0 & st1 & st2 & _ & _ & _ & _ & _
                          & Hres & Hins & Href & _ & ->)]];
    [done | |].
  - destruct Hm as (_ & _ & _ & ->). unfold traded_store.
    rewrite shares_held_delete_zero.
    rewrite (shares_held_positions _ _ _
               (proj1 (proj2 (stamp_last_trade_frame _ _ _ _)))).
    apply shares_held_market_fold.
  - rewrite shares_held_delete_zero. apply shares_held_positions.
    by destruct (rested_frame _ _ _ _ _ _ _ _ Hres Hins Href) as (? & _).
Qed.

(** X1.  No submission, accepted or not, changes the number of shares of any
    symbol held by the users together: every fill moves its quantity from
    the seller's position to the buyer's. *)
Theorem place_order_conserves_shares st userId body sid :
  shares_held (place_order st userId body).2 sid = shares_held st sid.
Proof. apply shares_held_place_order. Qed.

(** X2.  A market order, whatever its outcome, leaves the cash of the exchange
    as it was: each fill debits the buyer what it credits the seller. *)
Theorem market_order_conserves_cash st userId body p :
  validate body = inr p → p_type p = "market" →
  total_cash (place_order st userId body).2 = total_cash st.
Proof.
  intros Hv Ht.
  destruct (place_order st userId body) as [r st'] eqn:Hpo. simpl.
  apply place_order_inv in Hpo
    as [(e & _ & ->) | [(p' & symRow & Hv' & _ & _ & Hm)
                       | (p' & symRow & st0 & st1 & st2 & Hv' & Hnm & _)]];
    [done | |].
  - destruct Hm as (_ & Hall & _ & ->). unfold traded_store.
    etrans; [| by apply (total_cash_market_fold userId (p_symbol_id p')
                          (p_side p'))].
    apply total_cash_users. simpl. apply stamp_last_trade_frame.
  - rewrite Hv in Hv'. injection Hv' as <-. done.
Qed.

(** The market buy of 100 against the two asks leaves the 20,000.00 of
    the exchange in place. *)
Lemma market_order_conserves_cash_witness :
  total_cash (place_order two_asks U2 (market_request "buy" 100)).2
  = total_cash two_asks.
Proof.
  apply (market_order_conserves_cash two_asks U2 (market_request "buy" 100)
           (mk_params SYM buy "market" None 100)); vm_compute; reflexivity.
Defined.

Lemma place_order_outstanding st userId body k :
  outstanding_shares <$> symbols (place_order st userId body).2 !! k
  = outstanding_shares <$> symbols st !! k.
Proof.
  destruct (place_order st userId body) as [r st'] eqn:Hpo. simpl.
  apply place_order_inv in Hpo
    as [(e & _ & ->) | [(p & symRow & _ & _ & _ & Hm)
                       | (p & symRow & st0 & st1 & st2 & _ & _ & _ & _ & _
                          & Hres & Hins & Href & _ & ->)]];
    [done | |].
  - destruct Hm as (_ & _ & _ & ->). unfold traded_store. simpl.
    by rewrite stamp_last_trade_outstanding, symbols_market_fold.
  - simpl.
    by destruct (rested_frame _ _ _ _ _ _ _ _ Hres Hins Href) as (_ & -> & _).
Qed.

Lemma float_matches_alt st :
  float_matches st
  ↔ ∀ sid n, outstanding_shares <$> symbols st !! sid = Some n →
             shares_held st sid = n.
Proof.
  unfold float_matches. split.
  - intros Hf sid n Hn. destruct (symbols st !! sid) as [sym|] eqn:Hs; [| done].
    injection Hn as <-. by apply Hf.
  - intros Hf sid sym Hs. apply Hf. by rewrite Hs.
Qed.

(** X3.  Conservation of shares.  If for every symbol the positions of all
    users add up to its outstanding shares, they still do after any
    submission, cancellation, mint or burn: a mint or a burn moves both
    by the same quantity, and the other two move neither. *)
Theorem float_matches_kept st userId :
  float_matches st →
  (∀ body, float_matches (place_order st userId body).2)
  ∧ (∀ orderId, float_matches (cancel_order st userId orderId).2)
  ∧ (∀ role symbolId qty, float_matches (issue st userId role symbolId qty).2)
  ∧ (∀ role symbolId qty, float_matches (burn st userId role symbolId qty).2).
Proof.
  intros Hf. split; [| split; [| split]].
  - intros body. apply float_matches_alt. intros sid n.
    rewrite place_order_outstanding, shares_held_place_order.
    by apply float_matches_alt.
  - intros orderId. unfold cancel_order.
    destruct (filter _ (orders st)) as [|o ?]; [done |]. simpl.
    intros sid sym Hs. rewrite <- (Hf sid sym).
    + apply shares_held_positions. simpl.
      destruct (ord_side o); [done |]. by case_bool_decide.
    + rewrite <- Hs. simpl. destruct (ord_side o); [done |].
      by case_bool_decide.
  - intros role symbolId qty. unfold issue.
    case_bool_decide; [done |]. case_bool_decide; [done |].
    destruct (symbols st !! symbolId) as [sym0|] eqn:Hs0; [| done].
    case_bool_decide; [| done]. simpl.
    intros sid sym Hs. simpl in Hs. rewrite lookup_alter in Hs.
    transitivity (shares_held (adjust_position userId symbolId qty st) sid
                  + 0); [unfold shares_held; simpl; lia |].
    rewrite shares_held_adjust.
    case_decide as Hk; [subst sid |].
    + rewrite Hs0 in Hs. injection Hs as <-. simpl.
      rewrite bool_decide_eq_true_2 by done. rewrite (Hf _ _ Hs0). lia.
    + rewrite bool_decide_eq_false_2 by done. rewrite (Hf _ _ Hs). lia.
  - intros role symbolId qty. unfold burn.
    case_bool_decide; [done |]. case_bool_decide; [done |].
    destruct (symbols st !! symbolId) as [sym0|] eqn:Hs0; [| done].
    destruct (positions st !! (userId, symbolId)) as [held|] eqn:Hp; [| done].
    case_bool_decide; [done |]. simpl.
    intros sid sym Hs. simpl in Hs. rewrite lookup_alter in Hs.
    unfold shares_held. simpl. rewrite msum_alter, Hp. simpl.
    case_decide as Hk; [subst sid |].
    + rewrite Hs0 in Hs. injection Hs as <-. simpl.
      rewrite bool_decide_eq_true_2 by done.
      pose proof (Hf _ _ Hs0) as Hh. unfold shares_held in Hh. lia.
    + rewrite bool_decide_eq_false_2 by done.
      pose proof (Hf _ _ Hs) as Hh. unfold shares_held in Hh. lia.
Qed.

(** On the initial store the 100 shares held are the 100 outstanding, and
    they still match after a burn of 40 and after a mint of 40. *)
Lemma float_matches_kept_witness :
  float_matches initial
  ∧ float_matches (burn initial U1 manager SYM 40).2
  ∧ float_matches (issue initial U1 manager SYM 40).2.
Proof.
  destruct (float_matches_kept initial U1 float_matches_initial)
    as (_ & _ & Hi & Hb).
  split; [exact float_matches_initial |]. split; [apply Hb | apply Hi].
Defined.

(** ** The orders table *)

Lemma set_order_id oid q s o : ord_id (set_order oid q s o) = ord_id o.
Proof. unfold set_order. by case_bool_decide. Qed.

Lemma set_order_quantity_id oid q o :
  ord_id (set_order_quantity oid q o) = ord_id o.
Proof. unfold set_order_quantity. by case_bool_decide. Qed.

Lemma ids_set_order oid q s (l : list order) :
  ord_id <$> (set_order oid q s <$> l) = ord_id <$> l.
Proof.
  rewrite <- list_fmap_compose. apply list_fmap_ext. intros i o _.
  apply set_order_id.
Qed.

Lemma set_order_quantity_other oid q (l : list order) :
  (∀ o, o ∈ l → ord_id o ≠ oid) → set_order_quantity oid q <$> l = l.
Proof.
  intros Hl. rewrite <- (list_fmap_id l) at 2.
  apply Forall_fmap_ext, Forall_forall. intros o Ho.
  unfold set_order_quantity. by rewrite bool_decide_eq_false_2 by by apply Hl.
Qed.

Lemma NoDup_ids_eq (l : list order) o1 o2 :
  NoDup (ord_id <$> l) → o1 ∈ l → o2 ∈ l → ord_id o1 = ord_id o2 → o1 = o2.
Proof.
  induction l as [|x l IH]; simpl; [by intros _ ?%elem_of_nil |].
  intros [Hx Hnd]%NoDup_cons [-> | H1]%elem_of_cons [-> | H2]%elem_of_cons Hid;
    [done | | | by apply IH].
  - destruct Hx. rewrite Hid. by apply list_elem_of_fmap_2.
  - destruct Hx. rewrite <- Hid. by apply list_elem_of_fmap_2.
Qed.


(** A price of whole cents that passed the price check is positive, and
    is stored as it is when its column holds it. *)
Lemma cents_positive (c : Z) :
  js_le (parseFloat c) (Finite 0) = false → 0 < c.
Proof.
  intros H. destruct (decide (0 < c)) as [| Hn]; [done |].
  rewrite <- parseFloat_zero in H. rewrite parseFloat_mono in H; [done | lia].
Qed.

Lemma stored_price_cents (c : Z) lit :
  0 < c ≤ DECIMAL_MAX → sql_literal (parseFloat c) = Some lit →
  round_cents lit = c.
Proof.
  intros Hc Hlit.
  destruct (price_round_trip c) as (x & Hx & _ & Hr);
    [unfold DECIMAL_MAX in Hc; lia |].
  rewrite Hx in Hlit. by injection Hlit as <-.
Qed.

(** The store after an order came to rest, when the ids of the table are
    below the counter: the new row is appended and no other row changes. *)
Lemma rested_orders userId p userPos st st0 st1 st2 :
  (∀ o, o ∈ orders st → ord_id o < orders_auto_increment st) →
  reserve userId p userPos st = Some st0 →
  insert_order userId (p_symbol_id p) (p_side p) (price_number p)
    (p_quantity p) st0
  = Some (orders_auto_increment st, st1) →
  refund_reserved userId p userPos (p_quantity p) []
    (update_order_quantity (orders_auto_increment st) (p_quantity p) st1)
  = Some st2 →
  ∃ lit, sql_literal (price_number p) = Some lit
         ∧ orders st2
           = orders st
             ++ [mk_order (orders_auto_increment st) userId (p_symbol_id p)
                   (p_side p) (round_cents lit) (p_quantity p) OPEN].
Proof.
  intros Hid (_ & _ & Ho0 & _)%reserve_frame
         (_ & _ & _ & _ & _ & _ & (lit & Hlit & Ho) & _)%insert_order_frame
         (_ & _ & Ho2 & _)%refund_reserved_frame.
  exists lit. split; [done |]. rewrite Ho2. simpl. rewrite Ho, Ho0.
  rewrite fmap_app, set_order_quantity_other.
  - simpl. unfold set_order_quantity; simpl.
    by rewrite bool_decide_eq_true_2.
  - intros o Ho'. specialize (Hid _ Ho'). lia.
Qed.

Lemma market_walk_le sd cash r l :
  Forall (λ m, m.2 ≤ ord_quantity m.1) (market_walk sd cash r l).
Proof.
  revert cash r. induction l as [|maker rest IH]; intros cash r; simpl;
    [done |].
  case_bool_decide; [done |].
  destruct (_ && _); [done |].
  constructor; [simpl; lia | apply IH].
Qed.

Lemma market_walk_from_book sd cash r l :
  Forall (λ m, m.1 ∈ l) (market_walk sd cash r l).
Proof.
  revert cash r. induction l as [|maker rest IH]; intros cash r; simpl;
    [done |].
  case_bool_decide; [done |].
  destruct (_ && _); [done |].
  constructor; [simpl; left |].
  eapply Forall_impl; [apply IH |]. intros m Hm. by right.
Qed.

Section orders_market_fold.
Context (userId sid : Z) (sd : Side).

Lemma ids_market_fold ms st :
  ord_id <$> orders (foldl (market_settle userId sid sd) st ms)
  = ord_id <$> orders st.
Proof.
  revert st. induction ms as [|m ms IH]; intros st; simpl; [done |].
  by rewrite IH, orders_market_settle, ids_set_order.
Qed.

Lemma consistent_market_fold ms st :
  Forall (λ m, m.2 ≤ ord_quantity m.1) ms →
  Forall order_consistent (orders st) →
  Forall order_consistent
    (orders (foldl (market_settle userId sid sd) st ms)).
Proof.
  revert st. induction ms as [|m ms IH]; intros st Hms Hc; simpl; [done |].
  apply Forall_cons in Hms as [Hm Hms]. apply IH; [done |].
  rewrite orders_market_settle. apply Forall_fmap.
  eapply Forall_impl; [exact Hc |]. intros o Ho. simpl.
  unfold set_order. case_bool_decide; [| done].
  unfold order_consistent, maker_status; simpl.
  case_bool_decide; split; (done || lia).
Qed.

Lemma later_state_market_fold l0 ms st :
  NoDup (ord_id <$> l0) →
  Forall (λ m, m.1 ∈ l0 ∧ ord_status m.1 = OPEN) ms →
  (∀ o', o' ∈ orders st → ∃ o, o ∈ l0 ∧ later_state o o') →
  ∀ o', o' ∈ orders (foldl (market_settle userId sid sd) st ms) →
        ∃ o, o ∈ l0 ∧ later_state o o'.
Proof.
  intros Hnd. revert st.
  induction ms as [|m ms IH]; intros st Hms Hst; simpl; [done |].
  apply Forall_cons in Hms as [[Hm Hopen] Hms]. apply IH; [done |].
  intros o'. rewrite orders_market_settle.
  intros (oc & -> & Hoc)%list_elem_of_fmap.
  destruct (Hst _ Hoc) as (o & Ho & Hid & Hu & Hsy & Hsd & Hp & Hs).
  exists o. split; [done |]. unfold set_order.
  case_bool_decide as Heq; [| done]. unfold later_state; simpl.
  repeat split; try done. intros _.
  assert (o = m.1) as -> by (eapply NoDup_ids_eq; eauto; congruence).
  done.
Qed.
End orders_market_fold.

Lemma later_state_refl o : later_state o o.
Proof. by unfold later_state. Qed.

(** X4.  Order ids stay the values the counter handed out, and quantity and
    status stay consistent, through every submission and cancellation. *)
(** X4.  Order ids stay the values the counter handed out, and quantity and
    status stay consistent, through every submission and cancellation. *)
Theorem order_table_kept st userId :
  ids_fresh st →
  Forall order_consistent (orders st) →
  (∀ body,
     ids_fresh (place_order st userId body).2
     ∧ Forall order_consistent (orders (place_order st userId body).2))
  ∧ (∀ orderId,
       ids_fresh (cancel_order st userId orderId).2
       ∧ Forall order_consistent (orders (cancel_order st userId orderId).2)).
Proof.
  intros [Hlt Hnd] Hc. split.
  - intros body.
    destruct (place_order st userId body) as [r st'] eqn:Hpo. simpl.
    apply place_order_inv in Hpo
      as [(e & _ & ->) | [(p & symRow & _ & _ & _ & Hm)
                         | (p & symRow & st0 & st1 & st2 & Hv & _ & _ & _ & _
                            & Hres & Hins & Href & _ & ->)]];
      [done | |].
    + destruct Hm as (_ & _ & _ & ->). unfold traded_store.
      set (ms := market_walk _ _ _ _).
      assert (∀ X, orders (delete_zero_positions
                             (stamp_last_trade (p_symbol_id p) symRow X
                                (foldl (market_settle userId (p_symbol_id p)
                                          (p_side p)) st ms)))
                  = orders (foldl (market_settle userId (p_symbol_id p)
                                     (p_side p)) st ms)) as Ho.
      { intros X. simpl. apply stamp_last_trade_frame. }
      assert (∀ X st2, orders_auto_increment
                (delete_zero_positions
                   (stamp_last_trade (p_symbol_id p) symRow X st2))
              = orders_auto_increment st2) as Hcn.
      { intros X st2. simpl. apply stamp_last_trade_frame. }
      split; [split |].
      * intros o Ho'. rewrite Hcn, counter_market_fold.
        rewrite Ho in Ho'.
        apply (list_elem_of_fmap_2 ord_id) in Ho'.
        rewrite ids_market_fold in Ho'.
        apply list_elem_of_fmap in Ho' as (o0 & -> & Ho0). by apply Hlt.
      * by rewrite Ho, ids_market_fold.
      * rewrite Ho. apply consistent_market_fold; [apply market_walk_le | done].
    + pose proof (validate_inr _ _ Hv) as (Hq & _).
      unfold ids_fresh.
      destruct (rested_orders userId p _ st st0 st1 st2 Hlt Hres Hins Href)
        as (lit & _ & Ho).
      destruct (rested_frame _ _ _ _ _ _ _ _ Hres Hins Href)
        as (_ & _ & _ & Hcn & _).
      simpl. rewrite Ho, Hcn.
      split; [split |].
      * intros o [Ho' | ->%list_elem_of_singleton]%elem_of_app; simpl; [| lia].
        specialize (Hlt _ Ho'). lia.
      * rewrite fmap_app. apply NoDup_app. split; [done |]. split.
        -- intros i (o & -> & Ho')%list_elem_of_fmap. simpl.
           intros Heq%list_elem_of_singleton. specialize (Hlt _ Ho'). lia.
        -- simpl. apply NoDup_singleton.
      * apply Forall_app. split; [done |]. apply Forall_singleton.
        unfold order_consistent; simpl. split; done.
  - intros orderId. unfold cancel_order.
    destruct (filter _ (orders st)) as [|o ?]; [done |]. simpl.
    assert (∀ X : db, orders X = orders st →
              orders_auto_increment X = orders_auto_increment st →
              ids_fresh (update_order orderId 0 CANCELLED X)
              ∧ Forall order_consistent
                  (orders (update_order orderId 0 CANCELLED X))) as HX.
    { intros X Ho Hcn. unfold ids_fresh. simpl. rewrite Ho, Hcn.
      rewrite ids_set_order. split; [split; [| done] |].
      - intros o' (o0 & -> & Ho0)%list_elem_of_fmap.
        rewrite set_order_id. by apply Hlt.
      - apply Forall_fmap. eapply Forall_impl; [exact Hc |].
        intros o' Ho'. simpl. unfold set_order. case_bool_decide; [| done].
        by unfold order_consistent. }
    apply HX; destruct (ord_side o); try done; by case_bool_decide.
Qed.

(** The table of the two asks stays well formed through a market buy and
    through a cancellation. *)
Lemma order_table_kept_witness :
  ids_fresh (place_order two_asks U2 (market_request "buy" 100)).2
  ∧ ids_fresh (cancel_order two_asks U1 1).2.
Proof.
  destruct (order_table_kept two_asks U1 ids_fresh_two_asks) as [_ Hc];
    [decide_by_evaluation |].
  destruct (order_table_kept two_asks U2 ids_fresh_two_asks) as [Hp _];
    [decide_by_evaluation |].
  split; [apply Hp | apply Hc].
Defined.

Lemma uncrossed_later st st' :
  uncrossed st →
  (∀ o', o' ∈ orders st' → ∃ o, o ∈ orders st ∧ later_state o o') →
  uncrossed st'.
Proof.
  intros Hu Hl b' a' Hb Ha Hsym Hsb Hsa Hob Hoa.
  destruct (Hl _ Hb) as (b & Hb0 & _ & _ & Hbsy & Hbsd & Hbp & Hbs).
  destruct (Hl _ Ha) as (a & Ha0 & _ & _ & Hasy & Hasd & Hap & Has).
  rewrite Hbp, Hap. apply Hu; try done; try congruence; auto.
Qed.

Lemma cancel_order_orders st userId orderId :
  orders (cancel_order st userId orderId).2 = orders st
  ∨ orders (cancel_order st userId orderId).2
    = set_order orderId 0 CANCELLED <$> orders st.
Proof.
  unfold cancel_order. destruct (filter _ (orders st)) as [|o ?]; [by left |].
  right. simpl. destruct (ord_side o); [done |]. by case_bool_decide.
Qed.

(** X5.  No maker-crossing book.  If the ids of the table are the values the
    counter handed out and every OPEN buy order of a symbol is priced
    strictly below every OPEN sell order of it, the same holds after a
    market submission, after a limit submission whose price is an amount
    of whole cents that its column holds, and after a cancellation. *)
Theorem uncrossed_kept st userId :
  ids_fresh st →
  uncrossed st →
  (∀ body p, validate body = inr p →
             (p_type p = "limit"
              ∧ ∃ m e c, body_price body = Some (numeral m e)
                         ∧ (decimal m e == inject_Z c / 100)%Q
                         ∧ c ≤ DECIMAL_MAX)
             ∨ p_type p = "market" →
             uncrossed (place_order st userId body).2)
  ∧ (∀ orderId, uncrossed (cancel_order st userId orderId).2).
Proof.
  intros [Hlt Hnd] Hu. split.
  - intros body p0 Hv0 Hty.
    destruct (place_order st userId body) as [r st'] eqn:Hpo. simpl.
    apply place_order_inv in Hpo
      as [(e & _ & ->) | [(p & symRow & _ & _ & _ & Hm)
                         | (p & symRow & st0 & st1 & st2 & Hv & Hnm & Hc & _ & _
                            & Hres & Hins & Href & _ & ->)]];
      [done | |].
    + destruct Hm as (_ & _ & _ & ->). apply (uncrossed_later st); [done |].
      unfold traded_store. intros o' Ho'. simpl in Ho'.
      rewrite (proj1 (proj2 (proj2 (stamp_last_trade_frame _ _ _ _)))) in Ho'.
      revert o' Ho'. apply later_state_market_fold; [done | |].
      * eapply Forall_impl; [apply market_walk_from_book |].
        intros m Hm. simpl in Hm.
        apply elem_of_book_orders in Hm as (? & _ & _ & ? & _). done.
      * intros o' Ho'. exists o'. split; [done | apply later_state_refl].
    + rewrite Hv in Hv0. injection Hv0 as <-.
      destruct Hty as [(Hl & m & e & c & Hbp & Hcents & Hmax) | Hmk]; [| done].
      pose proof (validate_inr _ _ Hv) as (_ & _ & _ & Hpr & _).
      destruct (Hpr Hl) as (v & Hbv & Hp & Hpos).
      rewrite Hbp in Hbv. injection Hbv as <-.
      rewrite (Number_cents _ _ _ Hcents) in Hp, Hpos.
      assert (price_number p = parseFloat c) as Hpn
        by (unfold price_number; by rewrite Hp).
      pose proof (cents_positive _ Hpos) as Hc0.
      destruct (rested_orders userId p _ st st0 st1 st2 Hlt Hres Hins Href)
        as (lit & Hlit & Ho).
      rewrite Hpn in Hlit.
      rewrite (stored_price_cents c lit) in Ho by done.
      intros b a. simpl. rewrite Ho.
      unfold crosses_book in Hc. rewrite Hl, Hpn in Hc.
      rewrite bool_decide_eq_true_2 in Hc by done.
      intros [Hb | ->%list_elem_of_singleton]%elem_of_app
             [Ha | ->%list_elem_of_singleton]%elem_of_app; simpl;
        intros Hsym Hsb Hsa Hob Hoa.
      * by apply Hu.
      * rewrite Hsa in Hc. unfold bestBid in Hc.
        assert (b ∈ open_orders st (p_symbol_id p) buy) as Hin
          by (by apply elem_of_open_orders).
        destruct (max_price _) as [bm|] eqn:Hm.
        -- apply max_price_Some in Hm as [_ Hle]. specialize (Hle _ Hin).
           destruct (decide (ord_price b < c)) as [| Hn]; [done |].
           rewrite parseFloat_mono in Hc; [done | lia].
        -- apply max_price_None in Hm. rewrite Hm in Hin.
           by apply elem_of_nil in Hin.
      * rewrite Hsb in Hc. unfold bestAsk in Hc.
        assert (a ∈ open_orders st (p_symbol_id p) sell) as Hin
          by (by apply elem_of_open_orders).
        destruct (min_price _) as [am|] eqn:Hm.
        -- apply min_price_Some in Hm as [_ Hle]. specialize (Hle _ Hin).
           destruct (decide (c < ord_price a)) as [| Hn]; [done |].
           rewrite parseFloat_mono in Hc; [done | lia].
        -- apply min_price_None in Hm. rewrite Hm in Hin.
           by apply elem_of_nil in Hin.
      * congruence.
  - intros orderId. apply (uncrossed_later st); [done |].
    intros o'. destruct (cancel_order_orders st userId orderId) as [-> | ->].
    + intros Ho'. exists o'. split; [done | apply later_state_refl].
    + intros (o & -> & Ho)%list_elem_of_fmap. exists o. split; [done |].
      unfold set_order. case_bool_decide; [| apply later_state_refl].
      by unfold later_state.
Qed.

(** With an ask at 100.00 and a bid at 90.00 resting, the book is still
    uncrossed after the bid 3 @ 95.00 of [U2]. *)
Lemma uncrossed_kept_witness :
  uncrossed (place_order two_sided U2 (limit_request "buy" 9500 3)).2.
Proof.
  destruct (uncrossed_kept two_sided U2) as [Hp _].
  - apply ids_fresh_decide; decide_by_evaluation.
  - apply uncrossed_decide. decide_by_evaluation.
  - apply (Hp (limit_request "buy" 9500 3)
              (mk_params SYM buy "limit" (Some (Number (numeral 9500 (-2)))) 3));
      [vm_compute; reflexivity |].
    left. split; [done |]. exists 9500, (-2), 9500.
    split; [done |]. split; [reflexivity | vm_compute; discriminate].
Defined.

(** ** Amounts of whole cents in the statements *)

(** A product of a stored price and a quantity of up to 10^15 cents is
    written into a statement as a decimal that moves the balance by the
    product. *)
Lemma debit_number_exact uid c q st :
  0 < c → 0 < q → c * q ≤ 10 ^ 15 →
  js_lt (Finite 0) (js_mul (parseFloat c) (number_of_Z q)) = true
  ∧ debit_number uid (js_mul (parseFloat c) (number_of_Z q)) st
    = Some (debit_cash uid (c * q) st).
Proof.
  intros Hc Hq Hcq.
  destruct (amount_near c q Hc Hq Hcq) as (A & -> & HA0 & H1 & H2).
  split; [simpl; by apply bool_decide_eq_true_2 |].
  unfold debit_number, debit_cash, credit_cash. simpl. do 2 f_equal.
  apply alter_ext. intros x _. apply round_cents_near.
  - assert ((inject_Z x / 100 - to_decimal A) * 100
            == inject_Z x - to_decimal A * 100)%Q as -> by (field; done).
    rewrite inject_Z_plus, inject_Z_opp. lra.
  - assert ((inject_Z x / 100 - to_decimal A) * 100
            == inject_Z x - to_decimal A * 100)%Q as -> by (field; done).
    rewrite inject_Z_plus, inject_Z_opp. lra.
Qed.

Lemma credit_number_exact uid c q st :
  0 < c → 0 < q → c * q ≤ 10 ^ 15 →
  credit_number uid (js_mul (parseFloat c) (number_of_Z q)) st
  = Some (credit_cash uid (c * q) st).
Proof.
  intros Hc Hq Hcq.
  destruct (amount_near c q Hc Hq Hcq) as (A & -> & HA0 & H1 & H2).
  unfold credit_number, credit_cash. simpl. do 2 f_equal.
  apply alter_ext. intros x _. apply round_cents_near.
  - assert ((inject_Z x / 100 + to_decimal A) * 100
            == inject_Z x + to_decimal A * 100)%Q as -> by (field; done).
    rewrite inject_Z_plus. lra.
  - assert ((inject_Z x / 100 + to_decimal A) * 100
            == inject_Z x + to_decimal A * 100)%Q as -> by (field; done).
    rewrite inject_Z_plus. lra.
Qed.

(** ** Orders that rest *)

(** The reservation of a limit order at a price of whole cents. *)
Lemma reserve_cents userId p userPos st c :
  p_type p = "limit" → p_price p = Some (parseFloat c) →
  0 < c → 0 < p_quantity p → c * p_quantity p ≤ 10 ^ 15 →
  reserve userId p userPos st
  = Some (match p_side p with
          | buy => debit_cash userId (c * p_quantity p) st
          | sell =>
            if bool_decide (userPos < p_quantity p)
            then debit_cash userId (c * shortQty (p_quantity p) userPos) st
            else st
          end).
Proof.
  intros Ht Hp Hc Hq Hcq.
  assert (price_number p = parseFloat c) as Hpn
    by (unfold price_number; by rewrite Hp).
  unfold reserve. rewrite Ht, Hpn.
  rewrite (bool_decide_eq_true_2 ("limit" = "limit")) by done.
  destruct (p_side p).
  - by apply debit_number_exact.
  - case_bool_decide as Hs; [| done].
    assert (0 < shortQty (p_quantity p) userPos ≤ p_quantity p) as Hsq.
    { unfold shortQty. case_bool_decide; lia. }
    destruct (debit_number_exact userId c (shortQty (p_quantity p) userPos) st)
      as [-> ->]; [lia | lia | nia | done].
Qed.

(** The refund of a limit order that made no fill. *)
Lemma refund_cents userId p userPos st c :
  p_type p = "limit" → p_price p = Some (parseFloat c) →
  0 < c → 0 < p_quantity p → c * p_quantity p ≤ 10 ^ 15 →
  refund_reserved userId p userPos (p_quantity p) [] st
  = Some (match p_side p with
          | buy => st
          | sell =>
            if bool_decide (userPos < p_quantity p)
            then credit_cash userId (c * shortQty (p_quantity p) userPos) st
            else st
          end).
Proof.
  intros Ht Hp Hc Hq Hcq.
  assert (price_number p = parseFloat c) as Hpn
    by (unfold price_number; by rewrite Hp).
  unfold refund_reserved. rewrite Ht, Hpn.
  rewrite (bool_decide_eq_true_2 ("limit" = "limit")) by done. cbv zeta.
  destruct (p_side p).
  - by rewrite bool_decide_eq_false_2 by lia.
  - case_bool_decide as Hs; [| done].
    assert (p_quantity p
            - (if bool_decide (0 < userPos)
               then Z.max 0 (userPos - (p_quantity p - p_quantity p)) else 0)
            = shortQty (p_quantity p) userPos) as ->.
    { unfold shortQty. case_bool_decide; lia. }
    assert (0 < shortQty (p_quantity p) userPos ≤ p_quantity p) as Hsq.
    { unfold shortQty. case_bool_decide; lia. }
    rewrite (bool_decide_eq_true_2 (0 < shortQty _ _)) by lia.
    destruct (debit_number_exact userId c (shortQty (p_quantity p) userPos) st)
      as [-> _]; [lia | lia | nia |].
    apply credit_number_exact; [lia | lia | nia].
Qed.

Lemma users_rested userId p userPos st st0 st1 st2 c oid :
  p_type p = "limit" → p_price p = Some (parseFloat c) →
  0 < c → 0 < p_quantity p → c * p_quantity p ≤ 10 ^ 15 →
  reserve userId p userPos st = Some st0 →
  insert_order userId (p_symbol_id p) (p_side p) (price_number p)
    (p_quantity p) st0 = Some (oid, st1) →
  refund_reserved userId p userPos (p_quantity p) []
    (update_order_quantity oid (p_quantity p) st1) = Some st2 →
  ∀ u, get_cash st2 u
       = get_cash st u
         - (if bool_decide (u = userId ∧ p_side p = buy)
            then c * p_quantity p else 0).
Proof.
  intros Ht Hp Hc Hq Hcq Hres Hins Href u.
  rewrite (reserve_cents _ _ _ _ c) in Hres by done.
  rewrite (refund_cents _ _ _ _ c) in Href by done.
  injection Hres as <-. injection Href as <-.
  pose proof Hins as (Hex & _ & Hus & _)%insert_order_frame.
  unfold get_cash.
  destruct (p_side p) eqn:Hsd; simpl.
  - rewrite Hus. simpl.
    simpl in Hex. rewrite lookup_alter in Hex. rewrite lookup_alter.
    rewrite decide_True in Hex by done. apply fmap_is_Some in Hex as [c0 Hc0].
    case_decide as Hu.
    + subst u. rewrite Hc0. simpl. rewrite bool_decide_eq_true_2 by done. lia.
    + rewrite bool_decide_eq_false_2 by (intros [? _]; done). lia.
  - rewrite (bool_decide_eq_false_2 (_ ∧ sell = buy)) by (intros [_ ?]; done).
    case_bool_decide as Hshort; simpl; rewrite Hus; simpl; [| lia].
    rewrite !lookup_alter. case_decide; [subst u | lia].
    rewrite decide_True by done.
    destruct (users st !! userId); simpl; lia.
Qed.

(** The store after an accepted limit order at a price of whole cents. *)
Lemma limit_order_rested st userId body p status fills st' m e c :
  (∀ o, o ∈ orders st → ord_id o < orders_auto_increment st) →
  validate body = inr p →
  p_type p = "limit" →
  body_price body = Some (numeral m e) →
  (decimal m e == inject_Z c / 100)%Q →
  c * p_quantity p ≤ DECIMAL_MAX →
  place_order st userId body = (OrderPlaced status fills, st') →
  0 < c
  ∧ is_Some (users st !! userId)
  ∧ orders st'
    = orders st
      ++ [mk_order (orders_auto_increment st) userId (p_symbol_id p)
            (p_side p) c (p_quantity p) OPEN]
  ∧ orders_auto_increment st' = orders_auto_increment st + 1
  ∧ (∀ u, get_cash st' u
          = get_cash st u
            - (if bool_decide (u = userId ∧ p_side p = buy)
               then c * p_quantity p else 0))
  ∧ (∀ u sid, get_position st' u sid = get_position st u sid)
  ∧ trades st' = trades st
  ∧ symbols st' = symbols st.
Proof.
  intros Hlt Hv Ht Hbp Hcents Hmax Hpo.
  pose proof (validate_inr _ _ Hv) as (Hq & _ & _ & Hpr & _).
  destruct (Hpr Ht) as (v & Hbv & Hp & Hpos).
  rewrite Hbp in Hbv. injection Hbv as <-.
  rewrite (Number_cents _ _ _ Hcents) in Hp, Hpos.
  pose proof (cents_positive _ Hpos) as Hc0.
  assert (c * p_quantity p ≤ 10 ^ 15) as Hcq
    by (unfold DECIMAL_MAX in Hmax; lia).
  assert (c ≤ DECIMAL_MAX) as Hcm by nia.
  assert (price_number p = parseFloat c) as Hpn
    by (unfold price_number; by rewrite Hp).
  apply place_order_inv in Hpo
    as [(e' & [=] & _) | [(p' & symRow & Hv' & Hm & _)
                        | (p' & symRow & st0 & st1 & st2 & Hv' & _ & _ & _ & _
                           & Hres & Hins & Href & _ & ->)]];
    rewrite Hv in Hv'; injection Hv' as <-; [by rewrite Ht in Hm |].
  destruct (rested_orders userId p _ st st0 st1 st2 Hlt Hres Hins Href)
    as (lit & Hlit & Ho).
  rewrite Hpn in Hlit. rewrite (stored_price_cents c lit) in Ho by done.
  pose proof (users_rested userId p _ st st0 st1 st2 c _ Ht Hp Hc0 Hq Hcq
                Hres Hins Href) as Hcash.
  destruct (rested_frame _ _ _ _ _ _ _ _ Hres Hins Href)
    as (Hpos' & Hsym & Htr & Hcn & Hdom & _).
  split; [done |]. split.
  { apply elem_of_dom.
    pose proof Hres as (_ & _ & _ & _ & _ & <- & _)%reserve_frame.
    apply elem_of_dom. by apply insert_order_frame in Hins as (? & _). }
  split; [done |]. split; [done |]. split; [done |].
  split; [| split; [done | done]].
  intros u sid. rewrite get_position_delete_zero. unfold get_position.
  by rewrite Hpos'.
Qed.

(** X6.  What an accepted limit order does to the store, when the ids of the
    table are below the counter, its price is an amount of whole cents
    and price x quantity is an amount the cash column holds: the new row
    is appended OPEN at its price and full quantity under the id the
    counter held, a buyer is debited price x quantity, a seller nothing
    (the short collateral is debited and refunded within the
    submission), and no position, trade, symbol or other order
    changes. *)
Theorem limit_order_rests st userId body p status fills st' m e c :
  (∀ o, o ∈ orders st → ord_id o < orders_auto_increment st) →
  validate body = inr p →
  p_type p = "limit" →
  body_price body = Some (numeral m e) →
  (decimal m e == inject_Z c / 100)%Q →
  c * p_quantity p ≤ DECIMAL_MAX →
  place_order st userId body = (OrderPlaced status fills, st') →
  0 < c
  ∧ is_Some (users st !! userId)
  ∧ orders st'
    = orders st
      ++ [mk_order (orders_auto_increment st) userId (p_symbol_id p)
            (p_side p) c (p_quantity p) OPEN]
  ∧ orders_auto_increment st' = orders_auto_increment st + 1
  ∧ (∀ u, get_cash st' u
          = get_cash st u
            - (if bool_decide (u = userId ∧ p_side p = buy)
               then c * p_quantity p else 0))
  ∧ (∀ u sid, get_position st' u sid = get_position st u sid)
  ∧ trades st' = trades st
  ∧ symbols st' = symbols st.
Proof. apply limit_order_rested. Qed.

(** The buy limit 5 @ 90.00 of [U2] on the initial store rests under id 1
    and costs [U2] 450.00. *)
Lemma limit_order_rests_witness :
  is_Some (users initial !! U2)
  ∧ orders (place_order initial U2 (limit_request "buy" 9000 5)).2
    = [mk_order 1 U2 SYM buy 9000 5 OPEN]
  ∧ get_cash (place_order initial U2 (limit_request "buy" 9000 5)).2 U2
    = get_cash initial U2 - 9000 * 5.
Proof.
  destruct (limit_order_rests initial U2 (limit_request "buy" 9000 5)
              (mk_params SYM buy "limit" (Some (Number (numeral 9000 (-2)))) 5)
              STATUS_OPEN []
              (place_order initial U2 (limit_request "buy" 9000 5)).2
              9000 (-2) 9000)
    as (_ & Hex & Ho & _ & Hcash & _);
    [apply ids_fresh_initial | vm_compute; reflexivity ..
    | vm_compute; discriminate | vm_compute; reflexivity |].
  split; [exact Hex |]. split; [exact Ho |]. apply (Hcash U2).
Defined.

(** ** Cancellation *)

Lemma filter_unique {A} (P : A → Prop) `{∀ x, Decision (P x)} (l : list A) x :
  NoDup l → x ∈ l → P x → (∀ y, y ∈ l → P y → y = x) → filter P l = [x].
Proof.
  induction l as [|z l IH]; [by intros _ ?%elem_of_nil |].
  intros [Hz Hnd]%NoDup_cons Hx HP Huniq.
  apply elem_of_cons in Hx as [<- | Hx].
  - rewrite filter_cons_True by done. f_equal.
    apply filter_none. intros y Hy HPy.
    assert (y = x) as -> by (apply Huniq; [by right | done]). done.
  - rewrite filter_cons_False.
    + apply IH; try done. intros y Hy. apply Huniq. by right.
    + intros HPz. assert (z = x) as -> by (apply Huniq; [by left | done]).
      done.
Qed.

Lemma cancel_order_found st userId orderId o :
  NoDup (ord_id <$> orders st) →
  o ∈ orders st → ord_id o = orderId → ord_user_id o = userId →
  ord_status o = OPEN → 0 < ord_quantity o →
  cancel_order st userId orderId
  = (OrderCancelled,
     update_order orderId 0 CANCELLED
       (credit_cash userId (ord_price o * ord_quantity o) st)).
Proof.
  intros Hnd Ho Hid Hu Hs Hq. unfold cancel_order.
  rewrite (filter_unique _ _ o); try done.
  - destruct (ord_side o); [done |]. by rewrite bool_decide_eq_true_2.
  - by eapply NoDup_fmap_1.
  - intros y Hy (Hyid & _). eapply NoDup_ids_eq; eauto. congruence.
Qed.

(** The store after a cancellation. *)
Lemma cancel_order_cancelled st userId orderId o :
  NoDup (ord_id <$> orders st) →
  o ∈ orders st → ord_id o = orderId → ord_user_id o = userId →
  ord_status o = OPEN → 0 < ord_quantity o →
  is_Some (users st !! userId) →
  let res := cancel_order st userId orderId in
  res.1 = OrderCancelled
  ∧ (∀ u, get_cash res.2 u
          = get_cash st u
            + (if bool_decide (u = userId)
               then ord_price o * ord_quantity o else 0))
  ∧ orders res.2 = set_order orderId 0 CANCELLED <$> orders st
  ∧ (∀ o', o' ∈ orders st → o' ≠ o → o' ∈ orders res.2)
  ∧ positions res.2 = positions st
  ∧ trades res.2 = trades st
  ∧ symbols res.2 = symbols st
  ∧ (∀ sid sd bound o', o' ∈ book_orders res.2 sid sd bound →
                        ord_id o' ≠ orderId)
  ∧ cancel_order res.2 userId orderId = (Rejected NOT_FOUND_OR_CLOSED, res.2).
Proof.
  intros Hnd Ho Hid Hu Hs Hq Hex res. unfold res.
  rewrite (cancel_order_found st userId orderId o) by done. simpl.
  split; [done |]. split; [| split; [done |]; split; [| split; [done |];
    split; [done |]; split; [done |]; split]].
  - intros u. unfold get_cash. simpl. rewrite lookup_alter.
    destruct Hex as [c Hc]. case_decide as Hk.
    + subst u. rewrite Hc. simpl. by rewrite bool_decide_eq_true_2.
    + rewrite bool_decide_eq_false_2 by done. lia.
  - intros o' Ho' Hne. apply list_elem_of_fmap. exists o'. split; [| done].
    unfold set_order. rewrite bool_decide_eq_false_2; [done |].
    intros Heq. apply Hne. eapply NoDup_ids_eq; eauto. congruence.
  - intros sid sd bound o' (Hin & _ & _ & Hst & _)%elem_of_book_orders.
    simpl in Hin. apply list_elem_of_fmap in Hin as (o0 & -> & _).
    rewrite set_order_id. unfold set_order in Hst.
    case_bool_decide; [done |]. done.
  - unfold cancel_order. simpl. rewrite filter_none; [done |].
    intros y (o0 & -> & _)%list_elem_of_fmap (Hyid & _ & Hyst).
    rewrite set_order_id in Hyid. unfold set_order in Hyst.
    by rewrite bool_decide_eq_true_2 in Hyst.
Qed.



(** Placing a limit order at a price of whole cents and cancelling it at
    once. *)
Lemma limit_order_then_cancel st userId body p status fills st' m e c :
  ids_fresh st →
  validate body = inr p →
  p_type p = "limit" →
  body_price body = Some (numeral m e) →
  (decimal m e == inject_Z c / 100)%Q →
  c * p_quantity p ≤ DECIMAL_MAX →
  place_order st userId body = (OrderPlaced status fills, st') →
  let res := cancel_order st' userId (orders_auto_increment st) in
  res.1 = OrderCancelled
  ∧ (∀ u, get_cash res.2 u
          = get_cash st u
            + (if bool_decide (u = userId ∧ p_side p = sell)
               then c * p_quantity p else 0))
  ∧ (∀ u sid, get_position res.2 u sid = get_position st u sid)
  ∧ trades res.2 = trades st
  ∧ symbols res.2 = symbols st
  ∧ (∀ sid sd, open_orders res.2 sid sd = open_orders st sid sd).
Proof.
  intros [Hlt Hnd] Hv Ht Hbp Hcents Hmax Hpo res.
  pose proof (validate_inr _ _ Hv) as (Hq & _).
  destruct (limit_order_rested _ _ _ _ _ _ _ _ _ _ Hlt Hv Ht Hbp Hcents Hmax Hpo)
    as (Hc0 & Hex & Ho & Hc & Hcash & Hpos & Htr & Hsym).
  assert (is_Some (users st' !! userId)) as Hex'.
  { apply place_order_inv in Hpo
      as [(e' & [=] & _) | [(p' & symRow & Hv' & Hm & _)
                          | (p' & symRow & st0 & st1 & st2 & Hv' & _ & _ & _ & _
                             & Hres & Hins & Href & _ & ->)]];
      rewrite Hv in Hv'; injection Hv' as <-; [by rewrite Ht in Hm |].
    destruct (rested_frame _ _ _ _ _ _ _ _ Hres Hins Href)
      as (_ & _ & _ & _ & Hdom & _).
    apply elem_of_dom. simpl. rewrite Hdom. by apply elem_of_dom. }
  set (new := mk_order (orders_auto_increment st) userId (p_symbol_id p)
                (p_side p) c (p_quantity p) OPEN) in *.
  assert (NoDup (ord_id <$> orders st')) as Hnd'.
  { rewrite Ho, fmap_app. apply NoDup_app. split; [done |]. split.
    - intros i (o & -> & Hin)%list_elem_of_fmap Heq%list_elem_of_singleton.
      specialize (Hlt _ Hin). simpl in Heq. lia.
    - apply NoDup_singleton. }
  destruct (cancel_order_cancelled st' userId (orders_auto_increment st) new)
    as (Hr & Hcash' & Ho' & _ & Hpos' & Htr' & Hsym' & _); try done.
  { rewrite Ho. apply elem_of_app. right. by apply list_elem_of_singleton. }
  fold res in Hr, Hcash', Ho', Hpos', Htr', Hsym'.
  split; [done |]. split; [| split; [| split; [| split]]].
  - intros u. rewrite Hcash', Hcash. unfold new. simpl.
    destruct (p_side p), (decide (u = userId));
      repeat match goal with
             | |- context [bool_decide ?P] =>
               let HP := fresh "HP" in
               destruct (decide P) as [HP | HP];
               [rewrite (bool_decide_eq_true_2 P HP)
               | rewrite (bool_decide_eq_false_2 P HP)]
             end; try lia; exfalso; intuition congruence.
  - intros u sid. unfold get_position. rewrite Hpos'. apply Hpos.
  - by rewrite Htr'.
  - by rewrite Hsym'.
  - intros sid sd. unfold open_orders. rewrite Ho', Ho, fmap_app, filter_app.
    simpl. rewrite filter_cons_False, filter_nil, app_nil_r.
    + f_equal. rewrite <- (list_fmap_id (orders st)) at 2.
      apply Forall_fmap_ext, Forall_forall. intros o Hin.
      unfold set_order. rewrite bool_decide_eq_false_2; [done |].
      specialize (Hlt _ Hin). lia.
    + unfold set_order, new. simpl. rewrite bool_decide_eq_true_2 by done.
      simpl. intros (_ & _ & ?). done.
Qed.

(** X8.  Round trip of a buy limit.  In a table with ids handed out by the
    counter, cancelling an accepted buy limit order whose price is an
    amount of whole cents, with price x quantity an amount the cash
    column holds, returns exactly what its submission reserved: every
    cash balance, every position, the trades, the symbols and the OPEN
    orders are as before the submission. *)
Theorem buy_limit_cancel_restores st userId body p status fills st' m e c :
  ids_fresh st →
  validate body = inr p →
  p_type p = "limit" →
  p_side p = buy →
  body_price body = Some (numeral m e) →
  (decimal m e == inject_Z c / 100)%Q →
  c * p_quantity p ≤ DECIMAL_MAX →
  place_order st userId body = (OrderPlaced status fills, st') →
  let res := cancel_order st' userId (orders_auto_increment st) in
  res.1 = OrderCancelled
  ∧ (∀ u, get_cash res.2 u = get_cash st u)
  ∧ (∀ u sid, get_position res.2 u sid = get_position st u sid)
  ∧ trades res.2 = trades st
  ∧ symbols res.2 = symbols st
  ∧ (∀ sid sd, open_orders res.2 sid sd = open_orders st sid sd).
Proof.
  intros Hid Hv Ht Hsd Hbp Hcents Hmax Hpo res.
  destruct (limit_order_then_cancel _ _ _ _ _ _ _ _ _ _
              Hid Hv Ht Hbp Hcents Hmax Hpo) as (Hr & Hcash & Hrest).
  split; [done |]. split; [| done].
  intros u. fold res in Hcash. rewrite Hcash, Hsd.
  rewrite bool_decide_eq_false_2; [lia | by intros [_ ?]].
Qed.

(** [U2] rests the buy limit 5 @ 90.00 on the initial store and cancels
    it: the balance of [U2] is back at 10,000.00. *)
Lemma buy_limit_cancel_restores_witness :
  get_cash
    (cancel_order (place_order initial U2 (limit_request "buy" 9000 5)).2 U2 1).2
    U2
  = get_cash initial U2.
Proof.
  destruct (buy_limit_cancel_restores initial U2 (limit_request "buy" 9000 5)
              (mk_params SYM buy "limit" (Some (Number (numeral 9000 (-2)))) 5)
              STATUS_OPEN []
              (place_order initial U2 (limit_request "buy" 9000 5)).2
              9000 (-2) 9000)
    as (_ & Hcash & _);
    [apply ids_fresh_initial | vm_compute; reflexivity ..
    | vm_compute; discriminate | vm_compute; reflexivity |].
  apply (Hcash U2).
Defined.



(** ** Orders of an unknown type *)

(** X10.  An order whose type is neither 'limit' nor 'market' passes the input
    checks without a price; it is not checked against the book and
    nothing is reserved for it; when its quantity is one the quantity
    column holds, it comes to rest as an OPEN order at price 0. *)
Theorem unknown_type_rests_at_zero st userId body p symRow :
  validate body = inr p →
  p_type p ≠ "limit" → p_type p ≠ "market" →
  symbols st !! p_symbol_id p = Some symRow →
  check_resources p symRow (parseFloat (get_cash st userId))
    (get_position st userId (p_symbol_id p)) = None →
  is_Some (users st !! userId) →
  p_quantity p ≤ INT_MAX →
  (∀ o, o ∈ orders st → ord_id o < orders_auto_increment st) →
  p_price p = None
  ∧ crosses_book st p = false
  ∧ reserve userId p (get_position st userId (p_symbol_id p)) st = Some st
  ∧ ∃ st',
      place_order st userId body = (OrderPlaced STATUS_OPEN [], st')
      ∧ orders st'
        = orders st
          ++ [mk_order (orders_auto_increment st) userId (p_symbol_id p)
                (p_side p) 0 (p_quantity p) OPEN]
      ∧ users st' = users st
      ∧ trades st' = trades st.
Proof.
  intros Hv Hnl Hnm Hs Hc Hex Hmax Hlt.
  pose proof (validate_inr _ _ Hv) as (Hq & _ & _ & _ & Hnp).
  specialize (Hnp Hnl).
  assert (reserve userId p (get_position st userId (p_symbol_id p)) st
          = Some st)
    as Hres by (unfold reserve; by rewrite bool_decide_eq_false_2).
  assert (crosses_book st p = false) as Hcb
    by (unfold crosses_book; by rewrite bool_decide_eq_false_2).
  split; [done |]. split; [done |]. split; [done |].
  set (st1 := mk_db (users st) (symbols st) (positions st)
                (orders st ++ [mk_order (orders_auto_increment st) userId
                                 (p_symbol_id p) (p_side p) 0
                                 (p_quantity p) OPEN])
                (trades st) (orders_auto_increment st + 1)).
  assert (insert_order userId (p_symbol_id p) (p_side p) (price_number p)
            (p_quantity p) st
          = Some (orders_auto_increment st, st1)) as Hins.
  { unfold insert_order, price_number. rewrite Hnp. simpl.
    change (round_cents (to_decimal 0)) with 0.
    rewrite bool_decide_eq_true_2; [done |].
    split; [done |]. unfold DECIMAL_MAX, INT_MAX in *. lia. }
  exists (delete_zero_positions
            (update_order_quantity (orders_auto_increment st) (p_quantity p)
               st1)).
  split; [| split; [| done]].
  - unfold place_order. rewrite Hv, Hcb, Hs, Hc, Hres. simpl.
    rewrite (bool_decide_eq_false_2 _ Hnm).
    unfold limit_order. rewrite Hins, Hnp. simpl.
    unfold refund_reserved. rewrite (bool_decide_eq_false_2 _ Hnl).
    destruct (p_side p); simpl;
      rewrite (bool_decide_eq_true_2 (0 < p_quantity p)) by done;
      rewrite (bool_decide_eq_false_2 (p_quantity p = 0)) by lia;
      rewrite (bool_decide_eq_false_2 (p_quantity p < p_quantity p)) by lia;
      done.
  - simpl. rewrite fmap_app, set_order_quantity_other.
    + simpl. unfold set_order_quantity; simpl.
      by rewrite bool_decide_eq_true_2.
    + intros o Ho'. specialize (Hlt _ Ho'). lia.
Qed.

(** The sell order of type 'stop' of [U1] rests at price 0 although it
    named the price 100.00. *)
Lemma unknown_type_rests_at_zero_witness :
  ∃ st',
    place_order initial U1 stop_request = (OrderPlaced STATUS_OPEN [], st')
    ∧ orders st' = [mk_order 1 U1 SYM sell 0 10 OPEN].
Proof.
  destruct (unknown_type_rests_at_zero initial U1 stop_request
              (mk_params SYM sell "stop" None 10) (mk_symbol 100 None None))
    as (_ & _ & _ & st' & Hpo & Ho & _);
    [vm_compute; reflexivity | vm_compute; congruence | vm_compute; congruence
    | vm_compute; reflexivity | vm_compute; reflexivity
    | vm_compute; eexists; reflexivity
    | vm_compute; discriminate
    | intros o Ho; by apply elem_of_nil in Ho |].
  exists st'. split; [exact Hpo | exact Ho].
Defined.

(** ** Case of the side and type fields *)

Lemma lower_ascii_idem c : lower_ascii (lower_ascii c) = lower_ascii c.
Proof. destruct c as [[] [] [] [] [] [] [] []]; reflexivity. Qed.

(** A letter that changes is an ASCII letter before and after. *)
Lemma lower_ascii_cases c :
  lower_ascii c = c
  ∨ ((nat_of_ascii c < 128)%nat ∧ (nat_of_ascii (lower_ascii c) < 128)%nat).
Proof.
  destruct c as [[] [] [] [] [] [] [] []];
    first [left; reflexivity | right; vm_compute; split; lia].
Qed.

Lemma lower_ascii_high c n :
  (128 ≤ n)%nat → nat_of_ascii (lower_ascii c) = n → nat_of_ascii c = n.
Proof.
  intros Hn H. destruct (lower_ascii_cases c) as [Hc | [_ Hc]];
    [by rewrite Hc in H | lia].
Qed.

Lemma kelvin_sign_spec c1 c2 c3 :
  kelvin_sign c1 c2 c3 = true
  ↔ nat_of_ascii c1 = 226%nat ∧ nat_of_ascii c2 = 132%nat
    ∧ nat_of_ascii c3 = 170%nat.
Proof.
  unfold kelvin_sign. rewrite !andb_true_iff, !Nat.eqb_eq. tauto.
Qed.

(** The three ways [toLowerCase] reads the head of a string. *)
Lemma toLowerCase_cases s :
  s = ""
  ∨ (∃ c1 c2 c3 r, s = String c1 (String c2 (String c3 r))
                   ∧ kelvin_sign c1 c2 c3 = true
                   ∧ toLowerCase s = String "k" (toLowerCase r))
  ∨ (∃ c1 s1, s = String c1 s1
              ∧ toLowerCase s = String (lower_ascii c1) (toLowerCase s1)
              ∧ ∀ c2 c3 r, s1 = String c2 (String c3 r) →
                           kelvin_sign c1 c2 c3 = false).
Proof.
  destruct s as [|c1 s1]; [by left | right].
  destruct s1 as [|c2 [|c3 r]].
  - right. exists c1, EmptyString. split; [done |]. split; [done |]. done.
  - right. exists c1, (String c2 EmptyString).
    split; [done |]. split; [done |]. done.
  - destruct (kelvin_sign c1 c2 c3) eqn:Hk.
    + left. exists c1, c2, c3, r. split; [done |]. split; [done |].
      simpl. by rewrite Hk.
    + right. exists c1, (String c2 (String c3 r)).
      split; [done |]. split; [simpl; by rewrite Hk |].
      by intros ? ? ? [= <- <- <-].
Qed.

Lemma toLowerCase_idem s : toLowerCase (toLowerCase s) = toLowerCase s.
Proof.
  remember (String.length s) as n eqn:Hn.
  assert (String.length s ≤ n)%nat as Hle by lia. clear Hn.
  revert s Hle. induction n as [|n IH]; intros s Hle.
  { destruct s; [done | simpl in Hle; lia]. }
  destruct (toLowerCase_cases s)
    as [-> | [(c1 & c2 & c3 & r & -> & Hk & ->) | (c1 & s1 & -> & -> & Hnk)]];
    [done | |].
  - destruct (toLowerCase_cases (String "k" (toLowerCase r)))
      as [[=] | [(d1 & d2 & d3 & r' & [= <- _] & Hk' & _)
                | (d1 & t1 & [= <- <-] & -> & _)]].
    + apply kelvin_sign_spec in Hk' as [Hk' _]. done.
    + simpl in Hle. rewrite IH by lia. done.
  - destruct (toLowerCase_cases (String (lower_ascii c1) (toLowerCase s1)))
      as [[=] | [(d1 & d2 & d3 & r' & [= <- Hs1] & Hk' & _)
                | (d1 & t1 & [= <- <-] & -> & _)]].
    + exfalso. apply kelvin_sign_spec in Hk' as (H1 & H2 & H3).
      apply lower_ascii_high in H1; [| lia].
      destruct (toLowerCase_cases s1)
        as [-> | [(e1 & e2 & e3 & r1 & -> & _ & He)
                 | (e1 & s2 & -> & He & _)]]; [done | |];
        rewrite He in Hs1; injection Hs1 as <- Hs2; [done |].
      apply lower_ascii_high in H2; [| lia].
      destruct (toLowerCase_cases s2)
        as [-> | [(f1 & f2 & f3 & r2 & -> & _ & Hf)
                 | (f1 & s3 & -> & Hf & _)]]; [done | |];
        rewrite Hf in Hs2; injection Hs2 as <- _; [done |].
      apply lower_ascii_high in H3; [| lia].
      specialize (Hnk e1 f1 s3 eq_refl).
      assert (kelvin_sign c1 e1 f1 = true) as Hk
        by (by apply kelvin_sign_spec).
      congruence.
    + simpl in Hle. rewrite lower_ascii_idem, IH by lia. done.
Qed.

Lemma toLowerCase_empty s : toLowerCase s = "" ↔ s = "".
Proof.
  split; [| by intros ->].
  destruct (toLowerCase_cases s)
    as [-> | [(c1 & c2 & c3 & r & -> & _ & ->) | (c1 & s1 & -> & -> & _)]];
    done.
Qed.

Theorem side_and_type_ignore_case st userId body :
  place_order st userId body
  = place_order st userId
      (mk_request (body_symbol_id body) (toLowerCase <$> body_side body)
         (body_price body) (body_quantity body)
         (toLowerCase <$> body_type body)).
Proof.
  apply place_order_validate. unfold validate. simpl.
  assert (toLowerCase <$> (toLowerCase <$> body_side body)
          = toLowerCase <$> body_side body) as ->.
  { destruct (body_side body); simpl; [| done]. by rewrite toLowerCase_idem. }
  assert (normalizeType (toLowerCase <$> body_type body)
          = normalizeType (body_type body)) as ->; [| done].
  destruct (body_type body) as [t|]; simpl; [| done].
  destruct (decide (t = "")) as [-> | Hne]; [done |].
  rewrite !bool_decide_eq_false_2; [by rewrite toLowerCase_idem | done |].
  by rewrite toLowerCase_empty.
Qed.

(** ** Minting and burning *)



(** ** Deleting a symbol *)

(** X13.  A symbol is deleted only when no OPEN order and no position row, not
    even one of quantity 0, refers to it; the deletion then leaves no row
    of any table that refers to the symbol, no dangling reference to a
    deleted order, and touches no cash, no position and no order of
    another symbol. *)
Theorem delete_symbol_effect st symbolId st' :
  delete_symbol st manager symbolId = (SymbolDeleted, st') →
  (∀ o, o ∈ orders st → ord_symbol_id o = symbolId → ord_status o ≠ OPEN)
  ∧ (∀ u, positions st !! (u, symbolId) = None)
  ∧ symbols st' !! symbolId = None
  ∧ (∀ o, o ∈ orders st' ↔ o ∈ orders st ∧ ord_symbol_id o ≠ symbolId)
  ∧ (∀ t, t ∈ trades st' → trd_symbol_id t ≠ symbolId)
  ∧ (∀ t i, t ∈ trades st' →
            trd_buy_order_id t = Some i ∨ trd_sell_order_id t = Some i →
            ∀ o, o ∈ orders st → ord_id o = i → ord_symbol_id o ≠ symbolId)
  ∧ positions st' = positions st
  ∧ users st' = users st
  ∧ (∀ k, k ≠ symbolId → symbols st' !! k = symbols st !! k).
Proof.
  unfold delete_symbol. simpl.
  destruct (symbols st !! symbolId) as [sym|]; [| done].
  case_bool_decide as Huse; [done |]. intros [= <-]. simpl.
  assert (filter (λ o, ord_symbol_id o = symbolId ∧ ord_status o = OPEN)
            (orders st) = []) as Hno.
  { destruct (filter _ (orders st)); [done |]. destruct Huse. left.
    simpl. lia. }
  assert (filter (λ kv : Z * Z * Z, kv.1.2 = symbolId) (positions st) = ∅)
    as Hnp.
  { apply map_size_empty_iff.
    destruct (size (filter _ (positions st))) eqn:E; [done |].
    destruct Huse. right. lia. }
  split; [| split; [| split; [| split; [| split; [| split; [| split;
    [| split]]]]]]].
  - intros o Ho Hsy Hop.
    eapply (filter_nil_not_elem_of _ _ o Hno); [by split | done].
  - intros u. destruct (positions st !! (u, symbolId)) as [q|] eqn:Hq;
      [| done].
    assert (filter (λ kv : Z * Z * Z, kv.1.2 = symbolId) (positions st)
            !! (u, symbolId) = Some q) as Hin
      by (by apply map_lookup_filter_Some_2).
    rewrite Hnp in Hin. by rewrite lookup_empty in Hin.
  - apply lookup_delete_eq.
  - intros o. rewrite list_elem_of_filter. tauto.
  - intros t (t0 & -> & Ht0)%list_elem_of_fmap.
    apply list_elem_of_filter in Ht0 as [Hne _]. done.
  - intros t i (t0 & -> & Ht0)%list_elem_of_fmap Href o Ho Hid Hsy.
    assert (i ∈ ord_id <$> filter (λ o, ord_symbol_id o = symbolId) (orders st))
      as Hgone.
    { rewrite <- Hid. apply list_elem_of_fmap_2, list_elem_of_filter. done. }
    unfold null_order_refs in Href. simpl in Href.
    destruct Href as [Href | Href];
      [destruct (trd_buy_order_id t0) as [j|]
      | destruct (trd_sell_order_id t0) as [j|]]; try done;
      case_bool_decide; try done; injection Href as ->; done.
  - apply map_filter_id. intros [u s] q Hq. simpl. intros ->.
    assert (filter (λ kv : Z * Z * Z, kv.1.2 = symbolId) (positions st)
            !! (u, symbolId) = Some q) as Hin
      by (by apply map_lookup_filter_Some_2).
    rewrite Hnp in Hin. by rewrite lookup_empty in Hin.
  - done.
  - intros k Hk. by apply lookup_delete_ne.
Qed.

(** The spare symbol, which nobody holds or trades, is deleted; the
    positions of the other symbol stay. *)
Lemma delete_symbol_effect_witness :
  symbols (delete_symbol with_spare manager SPARE).2 !! SPARE = None
  ∧ positions (delete_symbol with_spare manager SPARE).2
    = positions with_spare.
Proof.
  destruct (delete_symbol_effect with_spare SPARE
              (delete_symbol with_spare manager SPARE).2)
    as (_ & _ & Hs & _ & _ & _ & Hp & _);
    [vm_compute; reflexivity |].
  split; [exact Hs | exact Hp].
Defined.

(** X14.  A burn leaves the manager's position row in the table, so the symbol
    cannot be deleted right after it, even when the whole holding was
    burned. *)
Theorem burn_blocks_delete st userId symbolId qty st' :
  burn st userId manager symbolId qty = (Burned, st') →
  delete_symbol st' manager symbolId = (SymbolInUse, st').
Proof.
  unfold burn. simpl. case_bool_decide; [done |].
  destruct (symbols st !! symbolId) as [sym|] eqn:Hs; [| done].
  destruct (positions st !! (userId, symbolId)) as [held|] eqn:Hp; [| done].
  case_bool_decide; [done |]. intros [= <-].
  unfold delete_symbol. simpl.
  rewrite lookup_alter, decide_True, Hs by done. simpl.
  rewrite bool_decide_eq_true_2; [done |]. right.
  assert (filter (λ kv : Z * Z * Z, kv.1.2 = symbolId)
            (alter (λ q, q - qty) (userId, symbolId) (positions st))
          !! (userId, symbolId) = Some (held - qty)) as Hin.
  { apply map_lookup_filter_Some_2; [| done].
    by rewrite lookup_alter, decide_True, Hp. }
  destruct (size _) eqn:E; [| lia].
  apply map_size_empty_iff in E. rewrite E in Hin.
  by rewrite lookup_empty in Hin.
Qed.

(** After the manager [U1] burned all 100 shares the symbol cannot be
    deleted. *)
Lemma burn_blocks_delete_witness :
  delete_symbol (burn initial U1 manager SYM 100).2 manager SYM
  = (SymbolInUse, (burn initial U1 manager SYM 100).2).
Proof.
  apply (burn_blocks_delete initial U1 SYM 100). vm_compute. reflexivity.
Defined.

(** ** Price stamping *)

Lemma sorted_last_worst {A} (R : relation A) (l k : list A) x :
  StronglySorted R k → (l ++ [x]) `prefix_of` k → ∀ y, y ∈ l → R y x.
Proof.
  intros Hs [k' ->] y Hy. apply StronglySorted_app_1_l in Hs.
  eapply StronglySorted_app_1_elem_of; [exact Hs | done |].
  by apply list_elem_of_singleton.
Qed.

Lemma market_walk_book sd cash r l :
  (fst <$> market_walk sd cash r l) `prefix_of` l.
Proof.
  revert cash r. induction l as [|maker rest IH]; intros cash r; simpl;
    [done |].
  case_bool_decide; [apply prefix_nil |].
  destruct (_ && _); [apply prefix_nil |].
  simpl. apply prefix_cons, IH.
Qed.

Lemma string_lt_irrefl s : string_lt s s = false.
Proof.
  induction s as [|a s IH]; simpl; [done |].
  by rewrite Nat.ltb_irrefl.
Qed.

(** X15.  Price stamping.  A committed market order sets [last_price] to the
    price of its last fill, which is the worst price of all its fills
    (the highest for a buyer, the lowest for a seller), and [prev_price]
    to the former [last_price], or to the same price when the symbol had
    not traded.  The book snapshot then shows 'same' after the first
    trade of a symbol and after a trade at the former price; it compares
    the two prices as texts, so that a move from 90.00 to 100.00 is shown
    as 'down'. *)
Theorem market_order_stamps_price st userId body p symRow status fills st' :
  validate body = inr p →
  p_type p = "market" →
  symbols st !! p_symbol_id p = Some symRow →
  place_order st userId body = (OrderPlaced status fills, st') →
  ∃ f sym',
    last fills = Some f
    ∧ symbols st' !! p_symbol_id p = Some sym'
    ∧ sym' = mk_symbol (outstanding_shares symRow) (Some (fill_price f))
               (Some (default (fill_price f) (last_price symRow)))
    ∧ (∀ g, g ∈ fills →
            match p_side p with
            | buy => fill_price g ≤ fill_price f
            | sell => fill_price f ≤ fill_price g
            end)
    ∧ (default (fill_price f) (last_price symRow) = fill_price f →
       priceDirection sym' = direction_same)
    ∧ (last_price symRow = Some 9000 → fill_price f = 10000 →
       priceDirection sym' = direction_down)
    ∧ (∀ k, k ≠ p_symbol_id p → symbols st' !! k = symbols st !! k).
Proof.
  intros Hv Ht Hs Hpo.
  apply place_order_inv in Hpo
    as [(e & [=] & _) | [(p' & symRow' & Hv' & _ & Hs' & Hm)
                        | (p' & symRow' & st0 & st1 & st2 & Hv' & Hnm & _)]];
    rewrite Hv in Hv'; injection Hv' as <-; [| done].
  rewrite Hs in Hs'. injection Hs' as <-.
  destruct Hm as (Hne & _ & [= -> ->] & ->).
  set (ms := market_walk _ _ _ _) in *.
  destruct (last ms) as [m|] eqn:Hlast;
    [| by apply last_None in Hlast].
  exists (fill_of m), (mk_symbol (outstanding_shares symRow)
                         (Some (fill_price (fill_of m)))
                         (Some (default (fill_price (fill_of m))
                                  (last_price symRow)))).
  assert (last (fill_of <$> ms) = Some (fill_of m)) as Hlf
    by (by rewrite fmap_last, Hlast).
  split; [done |]. unfold traded_store, stamp_last_trade. rewrite Hlf. simpl.
  rewrite symbols_market_fold.
  split; [by rewrite lookup_alter, decide_True, Hs |].
  split; [done |]. split; [| split; [| split]].
  - apply last_Some in Hlast as [ms' Hms]. intros g.
    rewrite Hms, fmap_app. simpl.
    intros [(m' & -> & Hm')%list_elem_of_fmap | ->%list_elem_of_singleton]
      %elem_of_app; [| by destruct (p_side p)].
    assert (priority (p_side p) m'.1 m.1) as Hpr.
    { eapply (sorted_last_worst _ (fst <$> ms')).
      - apply (book_orders_sorted st (p_symbol_id p) (p_side p) None).
      - replace ((fst <$> ms') ++ [m.1]) with (fst <$> ms)
          by (by rewrite Hms, fmap_app).
        apply market_walk_book.
      - by apply list_elem_of_fmap_2. }
    unfold fill_of; simpl. destruct (p_side p); unfold priority in Hpr; lia.
  - intros Heq. unfold priceDirection; simpl. rewrite Heq.
    by rewrite string_lt_irrefl.
  - intros Hl Hf. unfold priceDirection; simpl. rewrite Hl, Hf. simpl.
    vm_compute. reflexivity.
  - intros k Hk. by rewrite lookup_alter, decide_False.
Qed.

(** The market buy of 100 against the two asks fills 60 @ 100.00: the
    first trade of the symbol stamps 100.00 as last and previous price. *)
Lemma market_order_stamps_price_witness :
  ∃ f sym',
    last [mk_fill 10000 60] = Some f
    ∧ symbols (place_order two_asks U2 (market_request "buy" 100)).2 !! SYM
      = Some sym'
    ∧ sym' = mk_symbol 100 (Some (fill_price f)) (Some (fill_price f)).
Proof.
  destruct (market_order_stamps_price two_asks U2 (market_request "buy" 100)
              (mk_params SYM buy "market" None 100) (mk_symbol 100 None None)
              STATUS_PARTIAL [mk_fill 10000 60]
              (place_order two_asks U2 (market_request "buy" 100)).2)
    as (f & sym' & Hl & Hs & Hsym & _);
    [vm_compute; reflexivity ..|].
  exists f, sym'. split; [exact Hl |]. split; [exact Hs | exact Hsym].
Defined.

(** ** What a market order does to its taker *)

Section taker.
Context (userId sid : Z) (sd : Side).

Lemma taker_market_settle st m :
  ord_user_id m.1 ≠ userId → is_Some (users st !! userId) →
  get_cash (market_settle userId sid sd st m) userId
  = get_cash st userId - signed sd (ord_price m.1 * m.2)
  ∧ get_position (market_settle userId sid sd st m) userId sid
    = get_position st userId sid + signed sd m.2.
Proof.
  intros Hne [c Hc]. unfold market_settle, get_cash, get_position, signed.
  destruct sd; simpl; rewrite !lookup_alter;
    rewrite (decide_False (P := ord_user_id m.1 = userId)) by done;
    rewrite decide_True by done; rewrite Hc; simpl;
    (rewrite lookup_insert_ne by congruence);
    rewrite lookup_insert_eq; simpl;
    (split; [lia |]);
    destruct (positions st !! (userId, sid)); simpl; lia.
Qed.

Lemma taker_market_fold ms st :
  Forall (λ m, ord_user_id m.1 ≠ userId) ms →
  is_Some (users st !! userId) →
  get_cash (foldl (market_settle userId sid sd) st ms) userId
  = get_cash st userId - signed sd (cost ms)
  ∧ get_position (foldl (market_settle userId sid sd) st ms) userId sid
    = get_position st userId sid + signed sd (filled ms).
Proof.
  revert st. induction ms as [|m ms IH]; intros st Hms Hex; simpl.
  { rewrite cost_nil, filled_nil. unfold signed. destruct sd; lia. }
  apply Forall_cons in Hms as [Hm Hms].
  destruct (IH (market_settle userId sid sd st m) Hms) as [-> ->];
    [by apply users_market_settle |].
  destruct (taker_market_settle st m Hm Hex) as [-> ->].
  rewrite cost_cons, filled_cons. unfold signed. destruct sd; lia.
Qed.
End taker.


Lemma market_walk_filled_le sd cash r l :
  0 ≤ r → filled (market_walk sd cash r l) ≤ r.
Proof.
  revert cash r. induction l as [|maker rest IH]; intros cash r Hr; simpl;
    [rewrite filled_nil; lia |].
  case_bool_decide; [rewrite filled_nil; lia |].
  destruct (_ && _); [rewrite filled_nil; lia |].
  rewrite filled_cons; simpl.
  specialize (IH (match sd with
                  | buy => js_sub cash
                             (js_mul (parseFloat (ord_price maker))
                                (number_of_Z (Z.min r (ord_quantity maker))))
                  | sell => cash
                  end) (r - Z.min r (ord_quantity maker))).
  lia.
Qed.

Lemma cost_fills ms :
  foldr (λ g acc, fill_price g * fill_quantity g + acc) 0 (fill_of <$> ms)
  = cost ms.
Proof.
  induction ms as [|m l IH]; simpl; [done |].
  rewrite cost_cons, <- IH. done.
Qed.

Lemma quantity_fills ms :
  foldr (λ g acc, fill_quantity g + acc) 0 (fill_of <$> ms) = filled ms.
Proof.
  induction ms as [|m l IH]; simpl; [done |].
  rewrite filled_cons, <- IH. done.
Qed.

(** X16.  Settlement of the taker.  When no trade of a committed market
    order has its submitter on both sides, the submitter's cash moved by
    exactly the cost of the fills (paid by a buyer, received by a seller)
    and the position by exactly the quantity filled, which is at most the
    quantity asked for. *)
Theorem market_taker_settlement st userId body p status fills st' :
  validate body = inr p →
  p_type p = "market" →
  place_order st userId body = (OrderPlaced status fills, st') →
  (∀ t, t ∈ drop (length (trades st)) (trades st') →
        trd_buy_user_id t ≠ trd_sell_user_id t) →
  let amount :=
    foldr (λ g acc, fill_price g * fill_quantity g + acc) 0 fills in
  let quantity := foldr (λ g acc, fill_quantity g + acc) 0 fills in
  get_cash st' userId
  = get_cash st userId
    + (match p_side p with buy => - amount | sell => amount end)
  ∧ get_position st' userId (p_symbol_id p)
    = get_position st userId (p_symbol_id p)
      + (match p_side p with buy => quantity | sell => - quantity end)
  ∧ quantity ≤ p_quantity p.
Proof.
  intros Hv Ht Hpo Hself.
  pose proof (validate_inr _ _ Hv) as (Hq & _).
  apply place_order_inv in Hpo
    as [(e & [=] & _) | [(p' & symRow' & Hv' & _ & Hs' & Hm)
                        | (p' & symRow' & st0 & st1 & st2 & Hv' & Hnm & _)]];
    rewrite Hv in Hv'; injection Hv' as <-; [| done].
  destruct Hm as (Hne & Hall & [= -> ->] & ->).
  set (ms := market_walk _ _ _ _) in *.
  rewrite cost_fills, quantity_fills.
  assert (is_Some (users st !! userId)) as Hex.
  { destruct ms as [|m l]; [done |]. by apply Forall_cons in Hall as [[? _] _]. }
  assert (Forall (λ m, ord_user_id m.1 ≠ userId) ms) as Hothers.
  { apply Forall_forall. intros m Hm Heq.
    apply (Hself (market_trade userId (p_symbol_id p) (p_side p) m)).
    - unfold traded_store. simpl.
      rewrite (proj1 (proj2 (proj2 (proj2 (stamp_last_trade_frame _ _ _ _))))).
      rewrite trades_market_fold, drop_app_length.
      by apply list_elem_of_fmap_2.
    - unfold market_trade. destruct (p_side p); simpl; congruence. }
  destruct (taker_market_fold userId (p_symbol_id p) (p_side p) ms st
              Hothers Hex) as [Hcash Hpos].
  unfold traded_store. rewrite get_position_delete_zero.
  unfold get_cash, get_position in *. simpl.
  rewrite (proj1 (stamp_last_trade_frame _ _ _ _)).
  rewrite (proj1 (proj2 (stamp_last_trade_frame _ _ _ _))).
  rewrite Hcash, Hpos. unfold signed.
  split; [destruct (p_side p); lia |]. split; [destruct (p_side p); lia |].
  apply market_walk_filled_le. lia.
Qed.

(** The market buy of 100 against the two asks of [U1] costs [U2]
    6,000.00 and brings 60 shares. *)
Lemma market_taker_settlement_witness :
  get_cash (place_order two_asks U2 (market_request "buy" 100)).2 U2
  = get_cash two_asks U2 + - (10000 * 60 + 0)
  ∧ get_position (place_order two_asks U2 (market_request "buy" 100)).2 U2 SYM
    = get_position two_asks U2 SYM + (60 + 0).
Proof.
  destruct (market_taker_settlement two_asks U2 (market_request "buy" 100)
              (mk_params SYM buy "market" None 100)
              STATUS_PARTIAL [mk_fill 10000 60]
              (place_order two_asks U2 (market_request "buy" 100)).2)
    as (Hcash & Hpos & _); [vm_compute; reflexivity ..| |].
  - intros t Ht.
    assert (Forall (λ t, trd_buy_user_id t ≠ trd_sell_user_id t)
              (drop (length (trades two_asks))
                 (trades (place_order two_asks U2
                            (market_request "buy" 100)).2))) as Hall
      by decide_by_evaluation.
    by eapply Forall_forall in Hall.
  - split; [exact Hcash | exact Hpos].
Defined.

(** ** The rows the front end shows *)

Section pad_side.
Context (isBuy : bool).

#[local] Instance not_after_trans : Transitive (not_after isBuy).
Proof.
  intros a b c. unfold not_after, sorts_before. destruct isBuy; lia.
Qed.

Lemma insert_row_perm x l : insert_row isBuy x l ≡ₚ x :: l.
Proof.
  induction l as [|y l IH]; simpl; [done |].
  case_decide; [| done]. rewrite IH. apply Permutation_swap.
Qed.

Lemma sort_rows_perm l : sort_rows isBuy l ≡ₚ l.
Proof.
  induction l as [|x l IH]; simpl; [done |].
  by rewrite insert_row_perm, IH.
Qed.

Lemma insert_row_sorted x l :
  StronglySorted (not_after isBuy) l →
  StronglySorted (not_after isBuy) (insert_row isBuy x l).
Proof.
  induction l as [|y l IH]; simpl; intros Hs.
  { repeat constructor. }
  apply StronglySorted_cons in Hs as [Hy Hl].
  case_decide as Hyx.
  - constructor; [by apply IH |].
    rewrite insert_row_perm. constructor; [| done].
    unfold not_after, sorts_before in *. destruct isBuy; lia.
  - constructor; [by constructor |].
    constructor; [done |].
    eapply Forall_impl; [exact Hy |]. intros z Hz.
    by trans y.
Qed.

Lemma sort_rows_sorted l : StronglySorted (not_after isBuy) (sort_rows isBuy l).
Proof.
  induction l as [|x l IH]; simpl; [constructor |].
  by apply insert_row_sorted.
Qed.

Lemma insert_row_stable price x l :
  filter (λ r, row_price r = price) (insert_row isBuy x l)
  = filter (λ r, row_price r = price) (x :: l).
Proof.
  induction l as [|y l IH]; simpl; [done |].
  case_decide as Hyx; [| done].
  rewrite (filter_cons _ y), IH, !(filter_cons _ x), !(filter_cons _ y).
  repeat case_decide; try done.
  unfold sorts_before in Hyx. destruct isBuy; lia.
Qed.

Lemma sort_rows_stable price l :
  filter (λ r, row_price r = price) (sort_rows isBuy l)
  = filter (λ r, row_price r = price) l.
Proof.
  induction l as [|x l IH]; simpl; [done |].
  by rewrite insert_row_stable, !(filter_cons _ x), IH.
Qed.
End pad_side.

(** X17.  The side of the book the front end shows has exactly [MAX_ROWS] rows:
    the best-priced orders first (the highest bids, the lowest asks),
    orders at one price in the order in which they were received, and
    blank rows behind them; an order is left out only when [MAX_ROWS]
    orders that are priced at least as well are shown. *)
Theorem padSide_shows_best orders isBuy :
  ∃ shown hidden,
    padSide orders isBuy
    = (Some <$> shown) ++ replicate (MAX_ROWS - length shown) None
    ∧ length (padSide orders isBuy) = MAX_ROWS
    ∧ length shown = (MAX_ROWS `min` length orders)%nat
    ∧ shown ++ hidden ≡ₚ orders
    ∧ StronglySorted (not_after isBuy) (shown ++ hidden)
    ∧ (∀ price,
         filter (λ r, row_price r = price) (shown ++ hidden)
         = filter (λ r, row_price r = price) orders)
    ∧ (hidden = [] ∨ length shown = MAX_ROWS).
Proof.
  exists (take MAX_ROWS (sort_rows isBuy orders)),
         (drop MAX_ROWS (sort_rows isBuy orders)).
  assert (length (sort_rows isBuy orders) = length orders) as Hlen
    by (by rewrite sort_rows_perm).
  rewrite take_drop.
  split; [done |]. split; [| split; [| split; [| split; [| split]]]].
  - unfold padSide. rewrite length_app, length_fmap, length_replicate.
    rewrite length_take. lia.
  - rewrite length_take. lia.
  - apply sort_rows_perm.
  - apply sort_rows_sorted.
  - intros price. apply sort_rows_stable.
  - rewrite length_take.
    destruct (decide (MAX_ROWS ≤ length (sort_rows isBuy orders))%nat);
      [right; lia | left].
    apply drop_ge. lia.
Qed.

(** ** The trades table and the makers *)

(** X18.  Trades are appended only: a submission keeps every trade row and
    adds its own behind them; a cancellation, a mint and a burn leave the
    table as it is. *)
Theorem trades_append_only st userId :
  (∀ body, trades st `prefix_of` trades (place_order st userId body).2)
  ∧ (∀ orderId, trades (cancel_order st userId orderId).2 = trades st)
  ∧ (∀ role symbolId qty,
       trades (issue st userId role symbolId qty).2 = trades st
       ∧ trades (burn st userId role symbolId qty).2 = trades st).
Proof.
  split; [| split].
  - intros body.
    destruct (place_order st userId body) as [r st'] eqn:Hpo. simpl.
    apply place_order_inv in Hpo
      as [(e & _ & ->) | [(p & symRow & _ & _ & _ & Hm)
                         | (p & symRow & st0 & st1 & st2 & _ & _ & _ & _ & _
                            & Hres & Hins & Href & _ & ->)]];
      [done | |].
    + destruct Hm as (_ & _ & _ & ->). unfold traded_store. simpl.
      rewrite (proj1 (proj2 (proj2 (proj2 (stamp_last_trade_frame _ _ _ _))))).
      rewrite trades_market_fold. by eexists.
    + simpl.
      by destruct (rested_frame _ _ _ _ _ _ _ _ Hres Hins Href)
        as (_ & _ & -> & _).
  - intros orderId. unfold cancel_order.
    destruct (filter _ (orders st)) as [|o ?]; [done |]. simpl.
    destruct (ord_side o); [done |]. by case_bool_decide.
  - intros role symbolId qty. split.
    + unfold issue. repeat (first [done | case_bool_decide | case_match]).
    + unfold burn. repeat (first [done | case_bool_decide | case_match]).
Qed.

(** The row a maker has after a fill of [m.2] units. *)
Lemma set_order_maker (m : order * Z) :
  set_order (ord_id m.1) (ord_quantity m.1 - m.2)
    (maker_status (ord_quantity m.1 - m.2)) m.1
  = mk_order (ord_id m.1) (ord_user_id m.1) (ord_symbol_id m.1)
      (ord_side m.1) (ord_price m.1) (ord_quantity m.1 - m.2)
      (maker_status (ord_quantity m.1 - m.2)).
Proof. unfold set_order. by rewrite bool_decide_eq_true_2. Qed.

Section makers.
Context (userId sid : Z) (sd : Side).

Lemma untouched_market_fold ms st o :
  o ∈ orders st →
  Forall (λ m, ord_id m.1 ≠ ord_id o) ms →
  o ∈ orders (foldl (market_settle userId sid sd) st ms).
Proof.
  revert st. induction ms as [|m ms IH]; intros st Ho Hms; simpl; [done |].
  apply Forall_cons in Hms as [Hm Hms]. apply IH; [| done].
  rewrite orders_market_settle. apply list_elem_of_fmap. exists o.
  split; [| done]. unfold set_order. by rewrite bool_decide_eq_false_2.
Qed.

Lemma makers_market_fold ms st :
  NoDup (ord_id ∘ fst <$> ms) →
  Forall (λ m, m.1 ∈ orders st) ms →
  Forall (λ m, mk_order (ord_id m.1) (ord_user_id m.1) (ord_symbol_id m.1)
                 (ord_side m.1) (ord_price m.1) (ord_quantity m.1 - m.2)
                 (maker_status (ord_quantity m.1 - m.2))
               ∈ orders (foldl (market_settle userId sid sd) st ms)) ms.
Proof.
  revert st. induction ms as [|m ms IH]; intros st Hnd Hin; simpl; [done |].
  apply NoDup_cons in Hnd as [Hm Hnd].
  apply Forall_cons in Hin as [Hm0 Hin].
  assert (Forall (λ m', ord_id m'.1 ≠ ord_id m.1) ms) as Hdiff.
  { apply Forall_forall. intros m' Hm' Heq. apply Hm.
    simpl. rewrite <- Heq. by apply (list_elem_of_fmap_2 (ord_id ∘ fst)). }
  constructor.
  - apply untouched_market_fold.
    + rewrite orders_market_settle, <- set_order_maker.
      by apply list_elem_of_fmap_2.
    + done.
  - apply IH; [done |].
    eapply Forall_impl; [apply Forall_and; split; [exact Hin | exact Hdiff] |].
    intros m' [Hm' Hne]. simpl in *.
    rewrite orders_market_settle. apply list_elem_of_fmap. exists m'.1.
    split; [| done]. unfold set_order. by rewrite bool_decide_eq_false_2.
Qed.
End makers.

Lemma prefix_is_sublist {A} (l k : list A) :
  l `prefix_of` k → l `sublist_of` k.
Proof. intros [k' ->]. by apply sublist_inserts_r. Qed.

Lemma NoDup_ids_sublist (l k : list order) :
  NoDup (ord_id <$> l) → k `sublist_of` l → NoDup (ord_id <$> k).
Proof.
  intros Hnd Hsub. eapply sublist_NoDup; [exact Hnd | by apply fmap_sublist].
Qed.

(** X19.  What a committed market order does to the book, in a table with
    distinct ids: its fills are fills of the price-time walk over the
    opposite OPEN orders, from the first on; every maker it met keeps its
    row with the quantity reduced by the fill, FILLED when nothing is
    left and OPEN otherwise, and every other order is unchanged. *)
Theorem market_order_updates_makers st userId body p status fills st' :
  NoDup (ord_id <$> orders st) →
  validate body = inr p →
  p_type p = "market" →
  place_order st userId body = (OrderPlaced status fills, st') →
  ∃ ms,
    ms `prefix_of` matcher None (p_quantity p)
                     (book_orders st (p_symbol_id p) (p_side p) None)
    ∧ fills = fill_of <$> ms
    ∧ (∀ m, m ∈ ms →
            m.1 ∈ orders st ∧ ord_status m.1 = OPEN ∧ m.2 ≤ ord_quantity m.1
            ∧ mk_order (ord_id m.1) (ord_user_id m.1) (ord_symbol_id m.1)
                (ord_side m.1) (ord_price m.1) (ord_quantity m.1 - m.2)
                (if bool_decide (m.2 = ord_quantity m.1) then FILLED else OPEN)
              ∈ orders st')
    ∧ (∀ o, o ∈ orders st → (∀ m, m ∈ ms → m.1 ≠ o) → o ∈ orders st')
    ∧ length (orders st') = length (orders st).
Proof.
  intros Hnd Hv Ht Hpo.
  pose proof (validate_inr _ _ Hv) as (Hq & _).
  apply place_order_inv in Hpo
    as [(e & [=] & _) | [(p' & symRow' & Hv' & _ & Hs' & Hm)
                        | (p' & symRow' & st0 & st1 & st2 & Hv' & Hnm & _)]];
    rewrite Hv in Hv'; injection Hv' as <-; [| done].
  destruct Hm as (Hne & _ & [= -> ->] & ->).
  set (ms := market_walk _ _ _ _) in *.
  exists ms. split; [apply market_walk_prefix; lia |].
  assert (orders (traded_store userId p symRow' ms st)
          = orders (foldl (market_settle userId (p_symbol_id p) (p_side p))
                      st ms)) as Ho.
  { unfold traded_store. simpl. apply stamp_last_trade_frame. }
  rewrite Ho.
  assert (Forall (λ m, m.1 ∈ orders st ∧ ord_status m.1 = OPEN) ms) as Hin.
  { eapply Forall_impl; [apply market_walk_from_book |]. intros m Hm.
    simpl in Hm.
    by apply elem_of_book_orders in Hm as (? & _ & _ & ? & _). }
  assert (NoDup (ord_id ∘ fst <$> ms)) as Hndm.
  { rewrite list_fmap_compose.
    apply (NoDup_ids_sublist
             (book_orders st (p_symbol_id p) (p_side p) None)).
    - unfold book_orders. rewrite merge_sort_Permutation.
      apply (NoDup_ids_sublist (orders st)); [done |].
      unfold open_orders.
      etrans; [apply sublist_filter | apply sublist_filter].
    - apply prefix_is_sublist, market_walk_book. }
  split; [done |]. split; [| split].
  - intros m Hm.
    pose proof (proj1 (Forall_forall _ _) Hin m Hm) as [Hmo Hms].
    pose proof (proj1 (Forall_forall _ _) (market_walk_le _ _ _ _) m Hm) as Hle.
    split; [done |]. split; [done |]. split; [done |].
    assert (Forall (λ m, m.1 ∈ orders st) ms) as Hin'
      by (eapply Forall_impl; [exact Hin |]; by intros ? [? _]).
    pose proof (proj1 (Forall_forall _ _)
                  (makers_market_fold userId (p_symbol_id p) (p_side p) ms st
                     Hndm Hin') m Hm) as Hmk.
    simpl in Hmk, Hle. unfold maker_status in Hmk.
    destruct (decide (m.2 = ord_quantity m.1)) as [Heq | Hneq].
    + rewrite bool_decide_eq_true_2 by done.
      rewrite bool_decide_eq_true_2 in Hmk by lia. done.
    + rewrite bool_decide_eq_false_2 by done.
      rewrite bool_decide_eq_false_2 in Hmk by lia. done.
  - intros o Hoin Hnot. apply untouched_market_fold; [done |].
    apply Forall_forall. intros m Hm Heq. apply (Hnot m Hm).
    pose proof (proj1 (Forall_forall _ _) Hin m Hm) as [Hmo _].
    eapply NoDup_ids_eq; eauto.
  - rewrite <- (length_fmap ord_id), ids_market_fold. by rewrite length_fmap.
Qed.

(** The market buy of 100 by [U2] fills the ask 60 @ 100.00 of [U1]
    completely: its row is FILLED with quantity 0, and the ask
    40 @ 101.00 is untouched. *)
Lemma market_order_updates_makers_witness :
  ∃ ms,
    ms `prefix_of` matcher None 100 (book_orders two_asks SYM buy None)
    ∧ [mk_fill 10000 60] = fill_of <$> ms
    ∧ length (orders (place_order two_asks U2 (market_request "buy" 100)).2)
      = length (orders two_asks).
Proof.
  destruct (market_order_updates_makers two_asks U2 (market_request "buy" 100)
              (mk_params SYM buy "market" None 100)
              STATUS_PARTIAL [mk_fill 10000 60]
              (place_order two_asks U2 (market_request "buy" 100)).2)
    as (ms & Hpre & Hf & _ & _ & Hl);
    [decide_by_evaluation | vm_compute; reflexivity ..|].
  exists ms. split; [exact Hpre |]. split; [exact Hf | exact Hl].
Defined.

(** ** The foreign key of the orders *)

(** X20.  Every order names a user of the store, before and after any
    submission or cancellation. *)
Theorem owners_exist_kept st userId :
  owners_exist st →
  (∀ body, owners_exist (place_order st userId body).2)
  ∧ (∀ orderId, owners_exist (cancel_order st userId orderId).2).
Proof.
  intros Hown. split.
  - intros body.
    destruct (place_order st userId body) as [r st'] eqn:Hpo. simpl.
    apply place_order_inv in Hpo
      as [(e & _ & ->) | [(p & symRow & _ & _ & _ & Hm)
                         | (p & symRow & st0 & st1 & st2 & Hv & _ & _ & _ & _
                            & Hres & Hins & Href & _ & ->)]];
      [done | |].
    + destruct Hm as (_ & _ & _ & ->). unfold traded_store. intros o Ho.
      simpl in Ho.
      rewrite (proj1 (proj2 (proj2 (stamp_last_trade_frame _ _ _ _)))) in Ho.
      simpl. rewrite (proj1 (stamp_last_trade_frame _ _ _ _)).
      apply users_market_fold.
      revert o Ho.
      generalize (market_walk (p_side p) (parseFloat (get_cash st userId))
                    (p_quantity p)
                    (book_orders st (p_symbol_id p) (p_side p) None)).
      intros ms. revert st Hown.
      induction ms as [|m ms IH]; intros st Hown o Ho; simpl in Ho;
        [by apply Hown |].
      apply (users_market_settle userId (p_symbol_id p) (p_side p) st m).
      apply (IH (market_settle userId (p_symbol_id p) (p_side p) st m));
        [| done].
      intros o'. rewrite orders_market_settle.
      intros (o0 & -> & Ho0)%list_elem_of_fmap.
      apply users_market_settle.
      assert (ord_user_id (set_order (ord_id m.1) (ord_quantity m.1 - m.2)
                (maker_status (ord_quantity m.1 - m.2)) o0)
              = ord_user_id o0) as ->
        by (unfold set_order; by case_bool_decide).
      by apply Hown.
    + destruct (rested_frame _ _ _ _ _ _ _ _ Hres Hins Href)
        as (_ & _ & _ & _ & Hdom & _).
      pose proof Href as (_ & _ & Ho2 & _)%refund_reserved_frame.
      pose proof Hins
        as (Hex & _ & _ & _ & _ & _ & (lit & _ & Ho1) & _)%insert_order_frame.
      pose proof Hres as (_ & _ & Ho0 & _ & _ & Hdom0 & _)%reserve_frame.
      intros o Hin. simpl in Hin. rewrite Ho2 in Hin. simpl in Hin.
      apply list_elem_of_fmap in Hin as (o0 & -> & Hin).
      assert (ord_user_id (set_order_quantity (orders_auto_increment st)
                (p_quantity p) o0) = ord_user_id o0) as ->
        by (unfold set_order_quantity; by case_bool_decide).
      apply elem_of_dom. simpl. rewrite Hdom. apply elem_of_dom.
      rewrite Ho1, Ho0 in Hin.
      apply elem_of_app in Hin as [Hin | ->%list_elem_of_singleton].
      * by apply Hown.
      * simpl. apply elem_of_dom. rewrite <- Hdom0. by apply elem_of_dom.
  - intros orderId o. unfold cancel_order.
    destruct (filter _ (orders st)) as [|o1 ?]; [apply Hown |]. simpl.
    assert (∀ X : db, orders X = orders st → dom (users X) = dom (users st) →
              o ∈ orders (update_order orderId 0 CANCELLED X) →
              is_Some (users (update_order orderId 0 CANCELLED X)
                       !! ord_user_id o)) as HX.
    { intros X HXo HXu. simpl. rewrite HXo.
      intros (o0 & -> & Ho0)%list_elem_of_fmap.
      assert (ord_user_id (set_order orderId 0 CANCELLED o0) = ord_user_id o0)
        as -> by (unfold set_order; by case_bool_decide).
      apply elem_of_dom. rewrite HXu. apply elem_of_dom. by apply Hown. }
    destruct (ord_side o1); [apply HX; [done | apply dom_alter_L] |].
    case_bool_decide; apply HX; try done. apply dom_alter_L.
Qed.

(** The two asks of [U1] belong to a user of the store, and so does every
    order after the market buy of [U2]. *)
Lemma owners_exist_kept_witness :
  owners_exist (place_order two_asks U2 (market_request "buy" 100)).2.
Proof.
  destruct (owners_exist_kept two_asks U2) as [Hp _]; [| apply Hp].
  apply owners_exist_Forall. decide_by_evaluation.
Defined.
